(** * Ingestion pipeline of the WebSocket -> PostgreSQL benchmark server

    A shallow embedding of [main.go]: the three ingestion modes (naive,
    buffered, bulk), the bulk statement builder, the flush closure of the bulk
    worker and the shared progress counter [insertedCount].

    Conventions of the embedding.
    - Go's [int]/[int64] values are [Z]; [atomic.AddInt64] wraps around at 64
      bits and the wrap-around is written out ([Int64.wrap]).
    - A Go [string] is a [String.string] (a sequence of bytes); a slice is a
      [list].
    - The store behind [db.Exec] is outside the program: it is a parameter
      [execErr] that decides, from the statements executed so far and the
      statement at hand, whether the call returns an error.  The embedding keeps
      the list of executed statements.
    - The log is the list of the lines printed; the elapsed time printed by the
      completion line is wall-clock time and is left out of the line.
    - Goroutines are small state machines; a schedule interleaves their atomic
      steps (channel operations, [db.Exec], [atomic.AddInt64],
      [atomic.LoadInt64]). *)

From Stdlib Require Import ZArith List String Ascii Lia Bool.
From Stdlib Require Import Decimal DecimalString DecimalNat DecimalFacts.
From stdpp Require Import base list.
Import ListNotations.

Local Open Scope Z_scope.
Local Open Scope list_scope.

(* ===================================================================== *)
(** ** 64-bit signed integers *)
(* ===================================================================== *)

Module Int64.

Definition modulus : Z := 2 ^ 64.
Definition half_modulus : Z := 2 ^ 63.
Definition max_signed : Z := half_modulus - 1.
Definition min_signed : Z := - half_modulus.

(** Two's complement reduction of an integer to the int64 range. *)
Definition wrap (z : Z) : Z :=
  (z + half_modulus) mod modulus - half_modulus.

(** [atomic.AddInt64(addr, delta)]: the new value, wrapped. *)
Definition add (x delta : Z) : Z := wrap (x + delta).

Definition in_range (z : Z) : Prop := min_signed <= z <= max_signed.

End Int64.

(* ===================================================================== *)
(** ** Package-level constants and variables *)
(* ===================================================================== *)

Definition channelBufferSize : Z := 500000.
Definition workerCount : Z := 4.
Definition batchSize : Z := 5000.

Definition clientCount : Z := 10.
Definition messagesPerClient : Z := 100000.
Definition totalMessages : Z := clientCount * messagesPerClient.

(* ===================================================================== *)
(** ** Statements and [buildBulkInsert] *)
(* ===================================================================== *)

(** A call [db.Exec(query, args...)]. *)
Record Stmt : Type := mkStmt { query : string; args : list string }.

(** The single-row statement of the naive and buffered modes. *)
Definition insertOne : string := "INSERT INTO messages (payload) VALUES ($1)".

(** The prefix of the multi-row statement. *)
Definition insertPrefix : string := "INSERT INTO messages (payload) VALUES ".

(** [%d] of a non-negative [int]: its decimal digits, no sign, no padding. *)
Definition fmt_d (n : nat) : string := NilEmpty.string_of_uint (Nat.to_uint n).

(** [fmt.Sprintf("($%d)", n)]. *)
Definition Sprintf_tuple (n : nat) : string :=
  String.append "($" (String.append (fmt_d n) ")").

(** [strings.Join(elems, sep)]. *)
Fixpoint Join (elems : list string) (sep : string) : string :=
  match elems with
  | [] => EmptyString
  | [e] => e
  | e :: rest => String.append e (String.append sep (Join rest sep))
  end.

(** The [for i, msg := range batch] loop of [buildBulkInsert], entered at
    index [i] with the slices [values] and [args] built so far. *)
Fixpoint buildLoop (i : nat) (batch : list string)
    (values : list string) (args : list string) : list string * list string :=
  match batch with
  | [] => (values, args)
  | msg :: rest =>
      buildLoop (S i) rest (values ++ [Sprintf_tuple (i + 1)]) (args ++ [msg])
  end.

Definition buildBulkInsert (batch : list string) : string * list string :=
  let '(values, args) := buildLoop 0 batch [] [] in
  (String.append insertPrefix (Join values ","), args).

(** *** Reading a statement back

    How the store reads the positional parameters of a statement: a [$]
    followed by a maximal run of decimal digits is the placeholder with that
    number.  [placeholders] lists the placeholders of a statement in order of
    occurrence; [scan cur s] is the scanner, [cur] holding the value of the
    digits read so far when the scanner is inside a placeholder. *)

Definition is_digit (c : ascii) : bool :=
  let n := nat_of_ascii c in (48 <=? n)%nat && (n <=? 57)%nat.

Definition digit_val (c : ascii) : nat := (nat_of_ascii c - 48)%nat.

Definition is_dollar (c : ascii) : bool := Ascii.eqb c "$".

Fixpoint scan (cur : option nat) (s : string) : list nat :=
  match s with
  | EmptyString => match cur with Some n => [n] | None => [] end
  | String c rest =>
      let start := if is_dollar c then Some 0%nat else None in
      match cur with
      | Some n =>
          if is_digit c then scan (Some (10 * n + digit_val c)%nat) rest
          else n :: scan start rest
      | None => scan start rest
      end
  end.

Definition placeholders (q : string) : list nat := scan None q.

(** The number of value tuples of a statement: its opening parentheses after
    the column list, that is, after the keyword [VALUES]. *)
Fixpoint count_char (c : ascii) (s : string) : nat :=
  match s with
  | EmptyString => 0%nat
  | String c' rest => ((if Ascii.eqb c c' then 1 else 0) + count_char c rest)%nat
  end.

Definition tuples (q : string) : nat :=
  count_char "(" (String.substring (String.length insertPrefix)
                    (String.length q - String.length insertPrefix) q).

(* ===================================================================== *)
(** ** The store, the log and the shared progress counter *)
(* ===================================================================== *)

(** The three values of the [-mode] flag. *)
Inductive Mode : Type := Naive | Buffered | Bulk.

(** The lines the program logs after start-up.
    - [LogDbError err]: ["db error:" err] (naive mode);
    - [LogWorkerError id err]: ["worker %d error: %v"] (buffered mode);
    - [LogBulkError id err]: ["worker %d bulk insert error: %v"] (bulk mode);
    - [LogDone m]: ["<m> mode done! Total time: %v"], the completion line. *)
Inductive LogLine : Type :=
| LogDbError (err : string)
| LogWorkerError (id : Z) (err : string)
| LogBulkError (id : Z) (err : string)
| LogDone (m : Mode).

(** The store behind [db.Exec]: whether the call of a statement returns an
    error ([Some err]) or [nil] ([None]), given the statements executed
    before it. *)
Class Store : Type := execErr : list Stmt -> Stmt -> option string.

(** The state shared by all goroutines: the counter [insertedCount], the
    statements handed to [db.Exec] so far and the log. *)
Record World : Type := mkWorld {
  insertedCount : Z;
  executed : list Stmt;
  logs : list LogLine
}.

(** The state at program start: [insertedCount] is zero-initialised. *)
Definition world0 : World :=
  {| insertedCount := 0; executed := []; logs := [] |}.

Definition logPrint (l : LogLine) (w : World) : World :=
  {| insertedCount := insertedCount w;
     executed := executed w;
     logs := logs w ++ [l] |}.

(** [db.Exec(q, a...)]: the statement is handed to the store; the result is
    the error, if any. *)
Definition dbExec `{Store} (q : string) (a : list string) (w : World)
  : World * option string :=
  let st := mkStmt q a in
  ({| insertedCount := insertedCount w;
      executed := executed w ++ [st];
      logs := logs w |},
   execErr (executed w) st).

(** [atomic.AddInt64(&insertedCount, delta)]; the code drops the returned
    value. *)
Definition AddInt64 (delta : Z) (w : World) : World :=
  {| insertedCount := Int64.add (insertedCount w) delta;
     executed := executed w;
     logs := logs w |}.

(** [atomic.LoadInt64(&insertedCount)]. *)
Definition LoadInt64 (w : World) : Z := insertedCount w.

(** [if err != nil { log ... }]. *)
Definition logIfErr (line : string -> LogLine) (err : option string) (w : World)
  : World :=
  match err with
  | Some e => logPrint (line e) w
  | None => w
  end.

(** [if atomic.LoadInt64(&insertedCount) == int64(totalMessages) { log ... }]. *)
Definition checkDone (m : Mode) (w : World) : World :=
  if LoadInt64 w =? totalMessages then logPrint (LogDone m) w else w.

(* ===================================================================== *)
(** ** The three modes, one goroutine at a time *)
(* ===================================================================== *)

(** One iteration of the handler loop of [runNaive] on the frame [msg]. *)
Definition naiveMessage `{Store} (msg : string) (w : World) : World :=
  let '(w, err) := dbExec insertOne [msg] w in
  let w := logIfErr LogDbError err w in
  let w := AddInt64 1 w in
  checkDone Naive w.

(** The handler of [runNaive] on a connection that delivers [frames] and then
    fails to read. *)
Definition naiveHandler `{Store} (frames : list string) (w : World) : World :=
  fold_left (fun w msg => naiveMessage msg w) frames w.

(** One iteration of the worker loop of [runBuffered] on the message [msg]. *)
Definition bufferedMessage `{Store} (id : Z) (msg : string) (w : World) : World :=
  let '(w, err) := dbExec insertOne [msg] w in
  let w := logIfErr (LogWorkerError id) err w in
  let w := AddInt64 1 w in
  checkDone Buffered w.

(** The worker of [runBuffered] on the messages it receives from the
    channel. *)
Definition bufferedWorker `{Store} (id : Z) (msgs : list string) (w : World)
  : World :=
  fold_left (fun w msg => bufferedMessage id msg w) msgs w.

(** The closure [flush] of [bulkInsertWorker]; it reads and writes the
    worker's variable [batch]. *)
Definition flush `{Store} (id : Z) (st : World * list string)
  : World * list string :=
  let '(w, batch) := st in
  if Z.of_nat (length batch) =? 0 then (w, batch)
  else
    let '(q, a) := buildBulkInsert batch in
    let '(w, err) := dbExec q a w in
    let w := logIfErr (LogBulkError id) err w in
    let w := AddInt64 (Z.of_nat (length batch)) w in
    let w := checkDone Bulk w in
    (w, []).

(** The case taken by one [select] of [bulkInsertWorker]. *)
Inductive SelectCase : Type :=
| RecvMsg (msg : string)
| TickerC.

(** One iteration of the [for { select { ... } }] loop. *)
Definition bulkSelect `{Store} (id : Z) (c : SelectCase) (st : World * list string)
  : World * list string :=
  match c with
  | RecvMsg msg =>
      let '(w, batch) := st in
      let batch := batch ++ [msg] in
      if Z.of_nat (length batch) >=? batchSize then flush id (w, batch)
      else (w, batch)
  | TickerC => flush id st
  end.

(** [bulkInsertWorker] along the cases its [select] takes, from an empty
    batch. *)
Definition bulkInsertWorker `{Store} (id : Z) (cases : list SelectCase) (w : World)
  : World * list string :=
  fold_left (fun st c => bulkSelect id c st) cases (w, []).

(** The statement a flush of [batch] hands to the store. *)
Definition bulkStmt (batch : list string) : Stmt :=
  mkStmt (fst (buildBulkInsert batch)) batch.

(** A statement as the bulk mode may execute it: built by [buildBulkInsert]
    from a batch of at least one and at most [batchSize] messages. *)
Definition bulk_stmt_ok (st : Stmt) : Prop :=
  exists batch, batch <> [] /\ st = bulkStmt batch
                /\ Z.of_nat (length batch) <= batchSize.

(** The payloads bound by a list of executed statements. *)
Definition payloads (sts : list Stmt) : list string := concat (map args sts).

(** The number of completion lines in a log. *)
Definition is_done (l : LogLine) : bool :=
  match l with LogDone _ => true | _ => false end.

Definition completions (ls : list LogLine) : nat :=
  length (List.filter is_done ls).

(* ===================================================================== *)
(** ** The intake channel *)
(* ===================================================================== *)

(** A buffered [chan string]: its capacity and the messages it holds, oldest
    first. *)
Record Chan : Type := mkChan { cap : Z; buf : list string }.

(** [make(chan string, n)]. *)
Definition make_chan (n : Z) : Chan := {| cap := n; buf := [] |}.

(** [ch <- msg]: [None] when the send cannot proceed (the buffer is full) and
    the sender stays blocked on it. *)
Definition send (msg : string) (c : Chan) : option Chan :=
  if Z.of_nat (length (buf c)) <? cap c
  then Some {| cap := cap c; buf := buf c ++ [msg] |}
  else None.

(** [<-ch]: [None] when the receive cannot proceed (the buffer is empty). *)
Definition recv (c : Chan) : option (string * Chan) :=
  match buf c with
  | [] => None
  | msg :: rest => Some (msg, {| cap := cap c; buf := rest |})
  end.

(* ===================================================================== *)
(** ** Goroutines and their interleaving *)
(* ===================================================================== *)

(** Where a goroutine stands in its loop.  Every step between two points is
    one operation on shared state; what a goroutine does on its own locals is
    part of the step before it. *)

(** Handler of [runNaive]: before [c.ReadMessage()], before [db.Exec] with the
    frame read, before [atomic.AddInt64], before [atomic.LoadInt64]. *)
Inductive NaivePc : Type := NRead | NExec (msg : string) | NAdd | NLoad.

(** Handler of [runBuffered] and [runBulk]: before [c.ReadMessage()], before
    [ch <- string(msg)]. *)
Inductive HandlerPc : Type := HRead | HSend (msg : string).

(** Worker of [runBuffered]: before the receive of [range ch], before
    [db.Exec], before [atomic.AddInt64], before [atomic.LoadInt64]. *)
Inductive WorkerPc : Type := WRecv | WExec (msg : string) | WAdd | WLoad.

(** [bulkInsertWorker]: at the [select]; inside [flush] before [db.Exec],
    before [atomic.AddInt64], before [atomic.LoadInt64]. *)
Inductive BulkPc : Type := BSelect | BExec | BAdd | BLoad.

(** A goroutine with its local variables: the frames its connection has yet
    to deliver, the worker's [id], the worker's [batch]. *)
Inductive Goroutine : Type :=
| NaiveHandler (frames : list string) (pc : NaivePc)
| Handler (frames : list string) (pc : HandlerPc)
| BufferedWorker (id : Z) (pc : WorkerPc)
| BulkWorker (id : Z) (batch : list string) (pc : BulkPc).

(** Entering [flush]: the test [len(batch) == 0] returns at once, back to the
    [select]. *)
Definition flushEntry (batch : list string) : BulkPc :=
  if Z.of_nat (length batch) =? 0 then BSelect else BExec.

(** The next step of a goroutine; [None] when it is blocked (a read on a
    connection with no frame left, a send on a full channel, a receive on an
    empty one).  At its [select] a bulk worker takes the message case here,
    the ticker case is [go_tick]. *)
Definition go_step `{Store} (g : Goroutine) (w : World) (c : Chan)
  : option (Goroutine * World * Chan) :=
  match g with
  | NaiveHandler frames pc =>
      match pc with
      | NRead =>
          match frames with
          | [] => None
          | msg :: rest => Some (NaiveHandler rest (NExec msg), w, c)
          end
      | NExec msg =>
          let '(w, err) := dbExec insertOne [msg] w in
          Some (NaiveHandler frames NAdd, logIfErr LogDbError err w, c)
      | NAdd => Some (NaiveHandler frames NLoad, AddInt64 1 w, c)
      | NLoad => Some (NaiveHandler frames NRead, checkDone Naive w, c)
      end
  | Handler frames pc =>
      match pc with
      | HRead =>
          match frames with
          | [] => None
          | msg :: rest => Some (Handler rest (HSend msg), w, c)
          end
      | HSend msg =>
          match send msg c with
          | None => None
          | Some c' => Some (Handler frames HRead, w, c')
          end
      end
  | BufferedWorker id pc =>
      match pc with
      | WRecv =>
          match recv c with
          | None => None
          | Some (msg, c') => Some (BufferedWorker id (WExec msg), w, c')
          end
      | WExec msg =>
          let '(w, err) := dbExec insertOne [msg] w in
          Some (BufferedWorker id WAdd, logIfErr (LogWorkerError id) err w, c)
      | WAdd => Some (BufferedWorker id WLoad, AddInt64 1 w, c)
      | WLoad => Some (BufferedWorker id WRecv, checkDone Buffered w, c)
      end
  | BulkWorker id batch pc =>
      match pc with
      | BSelect =>
          match recv c with
          | None => None
          | Some (msg, c') =>
              let batch := batch ++ [msg] in
              if Z.of_nat (length batch) >=? batchSize
              then Some (BulkWorker id batch (flushEntry batch), w, c')
              else Some (BulkWorker id batch BSelect, w, c')
          end
      | BExec =>
          let '(q, a) := buildBulkInsert batch in
          let '(w, err) := dbExec q a w in
          Some (BulkWorker id batch BAdd, logIfErr (LogBulkError id) err w, c)
      | BAdd =>
          Some (BulkWorker id batch BLoad,
                AddInt64 (Z.of_nat (length batch)) w, c)
      | BLoad => Some (BulkWorker id [] BSelect, checkDone Bulk w, c)
      end
  end.

(** The ticker case of the [select] of a bulk worker: [flush()]. *)
Definition go_tick (g : Goroutine) : option Goroutine :=
  match g with
  | BulkWorker id batch BSelect => Some (BulkWorker id batch (flushEntry batch))
  | _ => None
  end.

(** The whole program: the shared state, the intake channel and the
    goroutines. *)
Record System : Type := mkSystem {
  world : World;
  ch : Chan;
  pool : list Goroutine
}.

(** What the scheduler does next: goroutine [i] takes its step, or the
    [select] of bulk worker [i] takes a tick. *)
Inductive Action : Type := Run (i : nat) | Tick (i : nat).

Definition sys_step `{Store} (a : Action) (s : System) : option System :=
  match a with
  | Run i =>
      match pool s !! i with
      | None => None
      | Some g =>
          match go_step g (world s) (ch s) with
          | None => None
          | Some (g', w', c') =>
              Some {| world := w'; ch := c'; pool := <[i := g']> (pool s) |}
          end
      end
  | Tick i =>
      match pool s !! i with
      | None => None
      | Some g =>
          match go_tick g with
          | None => None
          | Some g' =>
              Some {| world := world s; ch := ch s;
                      pool := <[i := g']> (pool s) |}
          end
      end
  end.

(** A schedule, run from [s]; [None] if it asks a blocked goroutine to move. *)
Fixpoint run `{Store} (acts : list Action) (s : System) : option System :=
  match acts with
  | [] => Some s
  | a :: rest =>
      match sys_step a s with
      | None => None
      | Some s' => run rest s'
      end
  end.

(** The worker pool: [for i := 0; i < workerCount; i++ { go ... }]. *)
Definition spawn (worker : Z -> Goroutine) : list Goroutine :=
  map (fun i => worker (Z.of_nat i)) (seq 0 (Z.to_nat workerCount)).

(** The connections of a run: for each one, the frames its client sends. *)
Definition Conns : Type := list (list string).

(** [runNaive]: no channel and no worker, one handler per connection. *)
Definition runNaive (conns : Conns) : System :=
  {| world := world0;
     ch := make_chan 0;
     pool := map (fun frames => NaiveHandler frames NRead) conns |}.

(** [runBuffered]: the channel, [workerCount] workers, one handler per
    connection. *)
Definition runBuffered (conns : Conns) : System :=
  {| world := world0;
     ch := make_chan channelBufferSize;
     pool := spawn (fun id => BufferedWorker id WRecv)
             ++ map (fun frames => Handler frames HRead) conns |}.

(** [runBulk]: the channel, [workerCount] bulk workers with an empty batch,
    one handler per connection. *)
Definition runBulk (conns : Conns) : System :=
  {| world := world0;
     ch := make_chan channelBufferSize;
     pool := spawn (fun id => BulkWorker id [] BSelect)
             ++ map (fun frames => Handler frames HRead) conns |}.

(** The [switch *mode] of [main]. *)
Definition start (m : Mode) (conns : Conns) : System :=
  match m with
  | Naive => runNaive conns
  | Buffered => runBuffered conns
  | Bulk => runBulk conns
  end.

(** The messages a goroutine holds that no statement has carried yet. *)
Definition unsent (g : Goroutine) : list string :=
  match g with
  | NaiveHandler frames pc =>
      match pc with NExec msg => msg :: frames | _ => frames end
  | Handler frames pc =>
      match pc with HSend msg => msg :: frames | HRead => frames end
  | BufferedWorker _ pc =>
      match pc with WExec msg => [msg] | _ => [] end
  | BulkWorker _ batch pc =>
      match pc with BSelect | BExec => batch | BAdd | BLoad => [] end
  end.

(** The number of messages a goroutine has executed and not yet added to the
    counter. *)
Definition owed (g : Goroutine) : nat :=
  match g with
  | NaiveHandler _ NAdd => 1
  | BufferedWorker _ WAdd => 1
  | BulkWorker _ batch BAdd => length batch
  | _ => 0
  end.

(** The same, over all goroutines. *)
Definition debt (s : System) : nat := sum_list_with owed (pool s).

(** A goroutine at rest: at the head of its loop with nothing in hand. *)
Definition at_rest (g : Goroutine) : bool :=
  match g with
  | NaiveHandler [] NRead => true
  | Handler [] HRead => true
  | BufferedWorker _ WRecv => true
  | BulkWorker _ [] BSelect => true
  | _ => false
  end.

(** All messages have been processed: every connection is drained, the channel
    is empty, every goroutine is at rest (for a bulk worker: its last partial
    batch has been flushed on a tick). *)
Definition quiescent (s : System) : bool :=
  match buf (ch s) with
  | [] => forallb at_rest (pool s)
  | _ :: _ => false
  end.

(** Every message still on its way: in the channel or in a goroutine's
    hands. *)
Definition in_flight (s : System) : list string :=
  buf (ch s) ++ concat (map unsent (pool s)).

(** All messages of a run, delivered or not, executed or not. *)
Definition all_messages (s : System) : list string :=
  payloads (executed (world s)) ++ in_flight s.

(** The counter accounts for the executed payloads: it is an int64 and, up to
    the 64-bit wrap-around, counter + debt = number of payloads executed. *)
Definition accounted (s : System) : Prop :=
  Int64.in_range (insertedCount (world s))
  /\ exists k : Z,
       Z.of_nat (length (payloads (executed (world s))))
       = insertedCount (world s) + Z.of_nat (debt s) + k * Int64.modulus.

(** What holds of every goroutine of the bulk mode: a bulk worker never holds
    more than [batchSize] messages, holds fewer at its [select], and is inside
    [flush] past the emptiness test only with a non-empty batch. *)
Definition bulk_ok (g : Goroutine) : Prop :=
  match g with
  | BulkWorker _ batch pc =>
      Z.of_nat (length batch) <= batchSize
      /\ (pc = BSelect -> Z.of_nat (length batch) < batchSize)
      /\ (pc <> BSelect -> batch <> [])
  | Handler _ _ => True
  | NaiveHandler _ _ | BufferedWorker _ _ => False
  end.

Definition bulk_inv (s : System) : Prop :=
  Forall bulk_ok (pool s) /\ Forall bulk_stmt_ok (executed (world s)).

(** The channel of the buffered and bulk modes: its capacity is
    [channelBufferSize] and it never holds more. *)
Definition chan_inv (s : System) : Prop :=
  cap (ch s) = channelBufferSize
  /\ Z.of_nat (length (buf (ch s))) <= channelBufferSize.

(** Two shared states that agree on the progress made: the same counter and
    the same statements handed to the store (the logs may differ). *)
Definition same_progress (w1 w2 : World) : Prop :=
  insertedCount w1 = insertedCount w2 /\ executed w1 = executed w2.

(** A goroutine that has added to the counter and has yet to load it. *)
Definition at_load (g : Goroutine) : bool :=
  match g with
  | NaiveHandler _ NLoad | BufferedWorker _ WLoad | BulkWorker _ _ BLoad => true
  | _ => false
  end.

(** What holds along a run that delivers exactly [totalMessages] messages:
    no message is lost, the counter never wraps and lags behind the executed
    payloads by the debt, and once the counter is at the target either the
    completion line is in the log or some goroutine has yet to load the
    counter. *)
Definition on_target (s : System) : Prop :=
  Z.of_nat (length (all_messages s)) = totalMessages
  /\ 0 <= insertedCount (world s)
  /\ insertedCount (world s) + Z.of_nat (debt s)
     = Z.of_nat (length (payloads (executed (world s))))
  /\ (insertedCount (world s) = totalMessages ->
      (1 <= completions (logs (world s)))%nat
      \/ exists (j : nat) (g : Goroutine),
           pool s !! j = Some g /\ at_load g = true).

(** A store that never fails. *)
Definition reliable : Store := fun _ _ => None.

(** A store that always fails. *)
Definition broken : Store := fun _ _ => Some "connection refused"%string.

(* ===================================================================== *)
(** ** A schedule on which two workers finish together *)
(* ===================================================================== *)

(** The buffered mode with one connection: workers 0 to 3 wait at their
    receive, the handler (goroutine 4) has [frames] left to read, the channel
    is empty. *)
Definition idle (k : Z) (sts : list Stmt) (ls : list LogLine)
    (frames : list string) : System :=
  {| world := {| insertedCount := k; executed := sts; logs := ls |};
     ch := make_chan channelBufferSize;
     pool := [BufferedWorker 0 WRecv; BufferedWorker 1 WRecv;
              BufferedWorker 2 WRecv; BufferedWorker 3 WRecv;
              Handler frames HRead] |}.

(** One message from the connection to the store, all by worker 0: the
    handler reads and sends; worker 0 receives, executes, adds, loads. *)
Definition round : list Action :=
  [Run 4; Run 4; Run 0; Run 0; Run 0; Run 0]%nat.

(** Two messages, taken by workers 0 and 1, which both add before either
    loads. *)
Definition race : list Action :=
  [Run 4; Run 4; Run 0; Run 4; Run 4; Run 1;
   Run 0; Run 1; Run 0; Run 1; Run 0; Run 1]%nat.

(** [n] rounds, then the race. *)
Definition racy_schedule (n : nat) : list Action :=
  concat (repeat round n) ++ race.

(** One client that sends [n] messages. *)
Definition one_client (n : Z) : Conns := [repeat "m"%string (Z.to_nat n)].

(** The buffered mode with one connection and a backlog [b] in the channel:
    the workers have not moved yet. *)
Definition backlog (b : list string) (frames : list string) (pc : HandlerPc)
  : System :=
  {| world := world0;
     ch := {| cap := channelBufferSize; buf := b |};
     pool := [BufferedWorker 0 WRecv; BufferedWorker 1 WRecv;
              BufferedWorker 2 WRecv; BufferedWorker 3 WRecv;
              Handler frames pc] |}.

(** The handler reads a frame and sends it. *)
Definition enqueue : list Action := [Run 4; Run 4]%nat.

(* ===================================================================== *)
(** ** Start-up: [mustSQL] and [main] *)
(* ===================================================================== *)

Definition nl : string := String "010" EmptyString.
Definition tab : string := String "009" EmptyString.

(** The two statements of [mustSQL], as the raw string literals spell them. *)
Definition dropTable : string := "DROP TABLE IF EXISTS messages CASCADE".

Definition createTable : string :=
  String.concat nl
    [EmptyString;
     "    CREATE TABLE IF NOT EXISTS messages (";
     "        id SERIAL PRIMARY KEY,";
     "        payload TEXT NOT NULL,";
     "        created_at TIMESTAMP DEFAULT NOW()";
     "    )";
     tab]%string.

(** Why the process ends in [log.Fatal]:
    - [FatalMode mode]: ["unknown mode: %s"], the default of the switch;
    - [FatalOpen err]: [sql.Open] failed;
    - [FatalDrop err]: ["failed to drop table: %v"];
    - [FatalCreate err]: ["failed to create table: %v"];
    - [FatalListen err]: [app.Listen] returned. *)
Inductive Fatal : Type :=
| FatalMode (mode : string)
| FatalOpen (err : string)
| FatalDrop (err : string)
| FatalCreate (err : string)
| FatalListen (err : string).

(** [mustSQL], from the shared state [w]: [sql.Open] (its error is
    [openErr]), then the two statements.  The result is the shared state with
    the table recreated, or the fatal error with the shared state at the
    exit. *)
Definition mustSQL `{Store} (openErr : option string) (w : World)
  : Fatal * World + World :=
  match openErr with
  | Some e => inl (FatalOpen e, w)
  | None =>
      let '(w, err) := dbExec dropTable [] w in
      match err with
      | Some e => inl (FatalDrop e, w)
      | None =>
          let '(w, err) := dbExec createTable [] w in
          match err with
          | Some e => inl (FatalCreate e, w)
          | None => inr w
          end
      end
  end.

(** The [switch *mode] of [main], on the value of the flag. *)
Definition modeOf (mode : string) : option Mode :=
  if String.eqb mode "naive" then Some Naive
  else if String.eqb mode "buffered" then Some Buffered
  else if String.eqb mode "bulk" then Some Bulk
  else None.

(** The default of the flag [-mode]. *)
Definition defaultMode : string := "naive".

(** The goroutines and the channel of a mode, over the shared state [w] that
    [mustSQL] returned. *)
Definition serving (m : Mode) (conns : Conns) (w : World) : System :=
  {| world := w; ch := ch (start m conns); pool := pool (start m conns) |}.

(** How [main] ends up: dead, or serving. *)
Inductive Outcome : Type :=
| Died (why : Fatal) (w : World)
| Up (s : System).

(** [main] with the flag [mode]: the switch enters [runNaive], [runBuffered]
    or [runBulk], each of which calls [mustSQL] first; then [app.Listen],
    whose error, if it returns one, is [listenErr].  The informational lines
    logged on the way are left out. *)
Definition main `{Store} (mode : string) (openErr listenErr : option string)
    (conns : Conns) : Outcome :=
  match modeOf mode with
  | None => Died (FatalMode mode) world0
  | Some m =>
      match mustSQL openErr world0 with
      | inl (why, w) => Died why w
      | inr w =>
          match listenErr with
          | Some e => Died (FatalListen e) w
          | None => Up (serving m conns w)
          end
      end
  end.

(** The store as seen after the statements [pre] have been executed. *)
Definition after (pre : list Stmt) (S : Store) : Store :=
  fun sts st => @execErr S (pre ++ sts) st.

(** The shared state [w] with the statements [pre] executed before its
    own. *)
Definition preceded (pre : list Stmt) (w : World) : World :=
  {| insertedCount := insertedCount w;
     executed := pre ++ executed w;
     logs := logs w |}.

Definition preceded_sys (pre : list Stmt) (s : System) : System :=
  {| world := preceded pre (world s); ch := ch s; pool := pool s |}.

(** The statements of [mustSQL]. *)
Definition ddl : list Stmt := [mkStmt dropTable []; mkStmt createTable []].

(** An INSERT of the program: the single-row statement with one argument, or
    a statement built by [buildBulkInsert]. *)
Definition single_row (st : Stmt) : Prop :=
  exists msg : string, st = mkStmt insertOne [msg].

Definition is_insert (st : Stmt) : Prop :=
  single_row st \/ exists batch : list string, st = bulkStmt batch.

(** The kind of a goroutine: which loop it runs. *)
Inductive Kind : Type := KNaive | KHandler | KBuffered | KBulk.

Definition kind (g : Goroutine) : Kind :=
  match g with
  | NaiveHandler _ _ => KNaive
  | Handler _ _ => KHandler
  | BufferedWorker _ _ => KBuffered
  | BulkWorker _ _ _ => KBulk
  end.

Definition is_worker (g : Goroutine) : bool :=
  match g with
  | BufferedWorker _ _ | BulkWorker _ _ _ => true
  | _ => false
  end.

(** The steps a goroutine has yet to take for what it holds: a frame of a
    naive handler costs four steps (read, execute, add, load); a frame of a
    handler costs two (read, send) and the five a worker may need for the
    message; a bulk worker needs the tick and three steps to flush a batch it
    holds at its [select]. *)
Definition work_of (g : Goroutine) : nat :=
  match g with
  | NaiveHandler frames pc =>
      4 * length frames
      + match pc with NRead => 0 | NExec _ => 3 | NAdd => 2 | NLoad => 1 end
  | Handler frames pc =>
      7 * length frames + match pc with HRead => 0 | HSend _ => 6 end
  | BufferedWorker _ pc =>
      match pc with WRecv => 0 | WExec _ => 3 | WAdd => 2 | WLoad => 1 end
  | BulkWorker _ batch pc =>
      match pc with
      | BSelect => match batch with [] => 0 | _ :: _ => 4 end
      | BExec => 3
      | BAdd => 2
      | BLoad => 1
      end
  end%nat.

(** A bound on the steps left in [s]: five for each message in the channel
    (the receive, and a flush it may start), and the work of each goroutine. *)
Definition work (s : System) : nat :=
  5 * length (buf (ch s)) + sum_list_with work_of (pool s).

(** Some action can be taken in [s] that brings the system forward. *)
Definition can_move `{Store} (s : System) : Prop :=
  exists (a : Action) (s' : System),
    sys_step a s = Some s' /\ (work s' < work s)%nat.

(** The steps the server spends on one message, at most: four in naive mode,
    seven with a channel in between. *)
Definition steps_per_message (m : Mode) : nat :=
  match m with Naive => 4 | Buffered | Bulk => 7 end.

(** The actions of a schedule, run from [s], other than ticks taken by a bulk
    worker whose batch is empty (they change nothing). *)
Definition idle_tick (a : Action) (s : System) : bool :=
  match a with
  | Run _ => false
  | Tick i =>
      match pool s !! i with
      | Some (BulkWorker _ [] BSelect) => true
      | _ => false
      end
  end.

Fixpoint effective `{Store} (acts : list Action) (s : System) : nat :=
  match acts with
  | [] => 0
  | a :: rest =>
      match sys_step a s with
      | None => 0
      | Some s' => (if idle_tick a s then 0 else 1) + effective rest s'
      end
  end.

(** The counter never wrapped: it is non-negative and lags behind the
    executed payloads by exactly the debt, and the messages of the run fit an
    int64. *)
Definition no_wrap (s : System) : Prop :=
  Z.of_nat (length (all_messages s)) <= Int64.max_signed
  /\ 0 <= insertedCount (world s)
  /\ insertedCount (world s) + Z.of_nat (debt s)
     = Z.of_nat (length (payloads (executed (world s)))).

(** The messages received along the cases of a [select], in order. *)
Definition received (cases : list SelectCase) : list string :=
  concat (map (fun c => match c with RecvMsg msg => [msg] | TickerC => [] end)
            cases).

(* ===================================================================== *)
(** ** The load generator ([client/client.go]) *)
(* ===================================================================== *)

Module Client.

Definition clientCount : Z := 10.
Definition messagesPerClient : Z := 100000.

(** [fmt.Sprintf("client-%d-message-%d", id, i)], both numbers being
    non-negative. *)
Definition message (id i : nat) : string :=
  String.append "client-"
    (String.append (fmt_d id) (String.append "-message-" (fmt_d i))).

(** The network, as the client meets it: the error of the dial of client
    [id], and the error of the write of message [i] by client [id]. *)
Class Net : Type := {
  dialErr : nat -> option string;
  writeErr : nat -> nat -> option string
}.

(** The lines a client logs: ["client %d dial error: %v"] and
    ["client %d write error: %v"]. *)
Inductive Log : Type :=
| DialError (id : nat) (err : string)
| WriteError (id : nat) (err : string).

(** The loop [for i := range messagesPerClient] of [runClient], entered at
    index [i] with [n] iterations to go; [sent] is what the connection has
    carried so far.  A write error ends the client. *)
Fixpoint sendLoop `{Net} (id i n : nat) (sent : list string)
  : list string * list Log :=
  match n with
  | O => (sent, [])
  | Datatypes.S n' =>
      match writeErr id i with
      | Some e => (sent, [WriteError id e])
      | None => sendLoop id (Datatypes.S i) n' (sent ++ [message id i])
      end
  end.

(** [runClient]: the messages written to the connection, in order, and the
    lines logged. *)
Definition runClient `{Net} (id : nat) : list string * list Log :=
  match dialErr id with
  | Some e => ([], [DialError id e])
  | None => sendLoop id 0 (Z.to_nat messagesPerClient) []
  end.

(** [%d] of an [int]. *)
Definition fmt_int (z : Z) : string := NilEmpty.string_of_int (Z.to_int z).

(** [main], once [wg.Wait()] has returned: what each client has written and
    logged, and the line printed at the end. *)
Record Result : Type := mkResult {
  written : list (list string);
  logged : list (list Log);
  printed : string
}.

Definition main `{Net} : Result :=
  let results := map runClient (seq 0 (Z.to_nat clientCount)) in
  let total := clientCount * messagesPerClient in
  {| written := map fst results;
     logged := map snd results;
     printed :=
       String.append "Sent "
         (String.append (fmt_int total)
            (String.append " messages using "
               (String.append (fmt_int clientCount)
                  (String.append " clients " nl)))) |}.

(** A network without errors. *)
Definition sound : Net := {| dialErr := fun _ => None; writeErr := fun _ _ => None |}.

(** A network on which the write of message [k] fails for every client. *)
Definition cut (k : nat) : Net :=
  {| dialErr := fun _ => None;
     writeErr := fun _ i => if Nat.eqb i k then Some "broken pipe"%string else None |}.

(** *** Reading a message back *)

(** [strip p s]: [s] without its prefix [p]. *)
Fixpoint strip (p s : string) : option string :=
  match p with
  | EmptyString => Some s
  | String a p' =>
      match s with
      | String b s' => if Ascii.eqb a b then strip p' s' else None
      | EmptyString => None
      end
  end.

(** The value of the longest run of digits at the head of [s], read after
    the value [acc], and what follows the run. *)
Fixpoint read_digits (acc : nat) (s : string) : nat * string :=
  match s with
  | EmptyString => (acc, EmptyString)
  | String c rest =>
      if is_digit c then read_digits (10 * acc + digit_val c)%nat rest
      else (acc, s)
  end.

(** A number: at least one digit. *)
Definition read_nat (s : string) : option (nat * string) :=
  match s with
  | EmptyString => None
  | String c _ => if is_digit c then Some (read_digits 0 s) else None
  end.

(** The client and the index a message names. *)
Definition parseMessage (s : string) : option (nat * nat) :=
  match strip "client-" s with
  | None => None
  | Some s1 =>
      match read_nat s1 with
      | None => None
      | Some (id, s2) =>
          match strip "-message-" s2 with
          | None => None
          | Some s3 =>
              match read_nat s3 with
              | Some (i, EmptyString) => Some (id, i)
              | _ => None
              end
          end
      end
  end.

(** [s] is empty or starts with a character that is not a digit. *)
Definition no_digit_head (s : string) : Prop :=
  match s with
  | EmptyString => True
  | String c _ => is_digit c = false
  end.

End Client.

(* ===================================================================== *)
(** * Properties *)
(* ===================================================================== *)

(** ** The program on small inputs *)

Example buildBulkInsert_3 :
  buildBulkInsert ["a"; "b"; "c"]%string
  = ("INSERT INTO messages (payload) VALUES ($1),($2),($3)"%string,
     ["a"; "b"; "c"]%string).
Proof. reflexivity. Qed.

Example placeholders_12 :
  placeholders (fst (buildBulkInsert (repeat "m"%string 12))) = seq 1 12.
Proof. reflexivity. Qed.

Example tuples_3 :
  tuples (fst (buildBulkInsert ["a"; "b"; "c"]%string)) = 3%nat.
Proof. reflexivity. Qed.

Example wrap_max : Int64.add Int64.max_signed 1 = Int64.min_signed.
Proof. reflexivity. Qed.

(** Ten frames on a naive handler whose store refuses every write: ten
    statements, ten error lines, and the counter is 10. *)
Example naive_ten_failures :
  let w := @naiveHandler broken (repeat "m"%string 10) world0 in
  insertedCount w = 10
  /\ executed w = repeat (mkStmt insertOne ["m"%string]) 10
  /\ logs w = repeat (LogDbError "connection refused") 10.
Proof. repeat split. Qed.

(** A bulk worker receives two messages, then its ticker fires twice: one
    statement with two tuples on the first tick, nothing on the second. *)
Example bulk_two_then_ticks :
  @bulkInsertWorker reliable 0
    [RecvMsg "a"; RecvMsg "b"; TickerC; TickerC] world0
  = ({| insertedCount := 2;
        executed := [mkStmt "INSERT INTO messages (payload) VALUES ($1),($2)"
                       ["a"; "b"]%string];
        logs := [] |}, []).
Proof. reflexivity. Qed.

(** The buffered mode, two messages, workers 0 and 1 interleaved. *)
Example buffered_two_workers :
  exists s : System,
    @run reliable
      [Run 4; Run 4; Run 4; Run 4; Run 0; Run 1; Run 1; Run 0;
       Run 0; Run 0; Run 1; Run 1]%nat
      (start Buffered [["a"; "b"]%string]) = Some s
    /\ quiescent s = true
    /\ insertedCount (world s) = 2
    /\ payloads (executed (world s)) = ["b"; "a"]%string.
Proof. eexists. split; [vm_compute; reflexivity|]. repeat split. Qed.

(** The naive mode, two connections with one frame each, their handlers
    interleaved. *)
Example naive_two_connections :
  exists s : System,
    @run reliable
      [Run 0; Run 1; Run 1; Run 0; Run 0; Run 1; Run 1; Run 0]%nat
      (start Naive [["a"]; ["b"]]%string) = Some s
    /\ quiescent s = true
    /\ insertedCount (world s) = 2
    /\ executed (world s)
       = [mkStmt insertOne ["b"%string]; mkStmt insertOne ["a"%string]].
Proof. eexists. split; [vm_compute; reflexivity|]. repeat split. Qed.

(** A receive on the empty channel and a read on a drained connection do not
    proceed. *)
Example blocked_at_start :
  @sys_step reliable (Run 0) (start Buffered [[]]) = None
  /\ @sys_step reliable (Run 4) (start Buffered [[]]) = None
  /\ @sys_step reliable (Tick 4) (start Bulk [[]]) = None.
Proof. repeat split. Qed.

(** ** The statement builder *)

Section BuildBulkInsert.

Lemma buildLoop_spec (batch : list string) :
  forall i values args,
    buildLoop i batch values args
    = (values ++ map Sprintf_tuple (seq (i + 1) (length batch)), args ++ batch).
Proof.
  induction batch as [|msg rest IH]; intros i values args; simpl.
  - now rewrite !app_nil_r.
  - rewrite IH, <- !app_assoc. simpl.
    now replace (S i + 1)%nat with (S (i + 1)) by lia.
Qed.

Lemma buildBulkInsert_eq (batch : list string) :
  buildBulkInsert batch
  = (String.append insertPrefix
       (Join (map Sprintf_tuple (seq 1 (length batch))) ","),
     batch).
Proof.
  unfold buildBulkInsert. now rewrite buildLoop_spec.
Qed.

Lemma buildBulkInsert_args (batch : list string) :
  snd (buildBulkInsert batch) = batch.
Proof. now rewrite buildBulkInsert_eq. Qed.

(** The scanner reads a printed number back. *)
Lemma scan_digits (d : Decimal.uint) :
  forall acc s,
    scan (Some acc) (String.append (NilEmpty.string_of_uint d) s)
    = scan (Some (Nat.of_uint_acc d acc)) s.
Proof.
  induction d; intros acc s; simpl; try reflexivity;
    rewrite <- IHd; f_equal; f_equal;
    rewrite Nat.tail_mul_spec; unfold digit_val; simpl; lia.
Qed.

Lemma scan_fmt_d (n : nat) (s : string) :
  scan (Some 0%nat) (String.append (fmt_d n) s) = scan (Some n) s.
Proof.
  unfold fmt_d. rewrite scan_digits.
  change (Nat.of_uint_acc (Nat.to_uint n) 0) with (Nat.of_uint (Nat.to_uint n)).
  now rewrite Unsigned.of_to.
Qed.

Lemma append_assoc (a b c : string) :
  String.append (String.append a b) c = String.append a (String.append b c).
Proof. induction a; simpl; congruence. Qed.

Lemma scan_tuple (n : nat) (s : string) :
  scan None (String.append (Sprintf_tuple n) s)
  = scan (Some n) (String ")" s).
Proof.
  unfold Sprintf_tuple. rewrite !append_assoc. simpl.
  now rewrite scan_fmt_d.
Qed.

Lemma append_nil_r (s : string) : String.append s EmptyString = s.
Proof. induction s; simpl; congruence. Qed.

Lemma scan_Join (ns : list nat) :
  scan None (Join (map Sprintf_tuple ns) ",") = ns.
Proof.
  induction ns as [|n [|n' ns] IH].
  - reflexivity.
  - cbn [map Join]. rewrite <- (append_nil_r (Sprintf_tuple n)).
    now rewrite scan_tuple.
  - change (Join (map Sprintf_tuple (n :: n' :: ns)) ",")
      with (String.append (Sprintf_tuple n)
              (String.append "," (Join (map Sprintf_tuple (n' :: ns)) ","))).
    rewrite scan_tuple.
    change (scan (Some n) (String ")" (String.append "," ?s)))
      with (n :: scan None s).
    now rewrite IH.
Qed.

Lemma placeholders_query (batch : list string) :
  placeholders (fst (buildBulkInsert batch)) = seq 1 (length batch).
Proof.
  rewrite buildBulkInsert_eq. unfold placeholders, fst.
  unfold insertPrefix. cbn [String.append]. cbn [scan is_dollar Ascii.eqb Bool.eqb].
  apply scan_Join.
Qed.

End BuildBulkInsert.

Section Tuples.

Lemma count_char_append (c : ascii) (a b : string) :
  count_char c (String.append a b) = (count_char c a + count_char c b)%nat.
Proof. induction a; simpl; [reflexivity | rewrite IHa; lia]. Qed.

Lemma count_paren_digits (d : Decimal.uint) :
  count_char "(" (NilEmpty.string_of_uint d) = 0%nat.
Proof. induction d; simpl; auto. Qed.

Lemma count_paren_tuple (n : nat) : count_char "(" (Sprintf_tuple n) = 1%nat.
Proof.
  unfold Sprintf_tuple, fmt_d.
  rewrite !count_char_append, count_paren_digits. reflexivity.
Qed.

Lemma count_paren_Join (ns : list nat) :
  count_char "(" (Join (map Sprintf_tuple ns) ",") = length ns.
Proof.
  induction ns as [|n [|n' ns] IH].
  - reflexivity.
  - cbn [map Join length]. apply count_paren_tuple.
  - change (Join (map Sprintf_tuple (n :: n' :: ns)) ",")
      with (String.append (Sprintf_tuple n)
              (String.append "," (Join (map Sprintf_tuple (n' :: ns)) ","))).
    rewrite !count_char_append, count_paren_tuple, IH. reflexivity.
Qed.

Lemma substring_all (s : string) : String.substring 0 (String.length s) s = s.
Proof. induction s; simpl; congruence. Qed.

Lemma tuples_prefix (s : string) :
  tuples (String.append insertPrefix s) = count_char "(" s.
Proof.
  unfold tuples, insertPrefix. cbn [String.append String.length Nat.sub].
  cbn [String.substring]. rewrite Nat.sub_0_r. now rewrite substring_all.
Qed.

Lemma tuples_query (batch : list string) :
  tuples (fst (buildBulkInsert batch)) = length batch.
Proof.
  rewrite buildBulkInsert_eq. cbn [fst].
  now rewrite tuples_prefix, count_paren_Join, length_seq.
Qed.

End Tuples.

(** ** 64-bit arithmetic *)

Section Int64Facts.

Lemma wrap_in_range (z : Z) : Int64.in_range z -> Int64.wrap z = z.
Proof.
  unfold Int64.in_range, Int64.wrap, Int64.min_signed, Int64.max_signed,
    Int64.modulus, Int64.half_modulus.
  intros Hz. rewrite Z.mod_small; lia.
Qed.

Lemma wrap_range (z : Z) : Int64.in_range (Int64.wrap z).
Proof.
  unfold Int64.in_range, Int64.wrap, Int64.min_signed, Int64.max_signed,
    Int64.modulus, Int64.half_modulus.
  pose proof (Z.mod_pos_bound (z + 2 ^ 63) (2 ^ 64) ltac:(lia)). lia.
Qed.

Lemma wrap_eqm (z : Z) : exists k, Int64.wrap z = z + k * Int64.modulus.
Proof.
  exists (- ((z + Int64.half_modulus) / Int64.modulus)).
  unfold Int64.wrap. rewrite Z.mod_eq by (unfold Int64.modulus; lia). lia.
Qed.

Lemma in_range_unique (a b k : Z) :
  Int64.in_range a -> Int64.in_range b -> a = b + k * Int64.modulus -> a = b.
Proof.
  unfold Int64.in_range, Int64.min_signed, Int64.max_signed,
    Int64.modulus, Int64.half_modulus. intros Ha Hb E. nia.
Qed.

Lemma wrap_add_l (a b : Z) : Int64.wrap (Int64.wrap a + b) = Int64.wrap (a + b).
Proof.
  unfold Int64.wrap, Int64.modulus, Int64.half_modulus.
  f_equal.
  replace ((a + 2 ^ 63) mod 2 ^ 64 - 2 ^ 63 + b + 2 ^ 63)
    with ((a + 2 ^ 63) mod 2 ^ 64 + b) by lia.
  rewrite Zplus_mod_idemp_l. f_equal. lia.
Qed.

Lemma add_add (x a b : Z) :
  Int64.add (Int64.add x a) b = Int64.add x (a + b).
Proof.
  unfold Int64.add. rewrite wrap_add_l. f_equal. lia.
Qed.

Lemma add_in_range (x d : Z) :
  Int64.in_range (x + d) -> Int64.add x d = x + d.
Proof. apply wrap_in_range. Qed.

Lemma totalMessages_val : totalMessages = 1000000.
Proof. reflexivity. Qed.

Lemma totalMessages_in_range : Int64.in_range totalMessages.
Proof. rewrite totalMessages_val. unfold Int64.in_range, Int64.min_signed, Int64.max_signed, Int64.half_modulus. lia. Qed.

End Int64Facts.

(** ** One goroutine at a time *)

Section Sequential.

Context `{Store}.

Lemma checkDone_count (m : Mode) (w : World) :
  insertedCount (checkDone m w) = insertedCount w.
Proof. unfold checkDone. now destruct (_ =? _). Qed.

Lemma checkDone_executed (m : Mode) (w : World) :
  executed (checkDone m w) = executed w.
Proof. unfold checkDone. now destruct (_ =? _). Qed.

Lemma logIfErr_count line err (w : World) :
  insertedCount (logIfErr line err w) = insertedCount w.
Proof. now destruct err. Qed.

Lemma logIfErr_executed line err (w : World) :
  executed (logIfErr line err w) = executed w.
Proof. now destruct err. Qed.

Lemma naiveMessage_count (msg : string) (w : World) :
  insertedCount (naiveMessage msg w) = Int64.add (insertedCount w) 1.
Proof.
  unfold naiveMessage, dbExec.
  now rewrite checkDone_count; cbn; rewrite logIfErr_count.
Qed.

Lemma naiveMessage_executed (msg : string) (w : World) :
  executed (naiveMessage msg w) = executed w ++ [mkStmt insertOne [msg]].
Proof.
  unfold naiveMessage, dbExec.
  now rewrite checkDone_executed; cbn; rewrite logIfErr_executed.
Qed.

Lemma bufferedMessage_count (id : Z) (msg : string) (w : World) :
  insertedCount (bufferedMessage id msg w) = Int64.add (insertedCount w) 1.
Proof.
  unfold bufferedMessage, dbExec.
  now rewrite checkDone_count; cbn; rewrite logIfErr_count.
Qed.

Lemma bufferedMessage_executed (id : Z) (msg : string) (w : World) :
  executed (bufferedMessage id msg w) = executed w ++ [mkStmt insertOne [msg]].
Proof.
  unfold bufferedMessage, dbExec.
  now rewrite checkDone_executed; cbn; rewrite logIfErr_executed.
Qed.

Lemma naiveHandler_executed (frames : list string) :
  forall w, executed (naiveHandler frames w)
            = executed w ++ map (fun msg => mkStmt insertOne [msg]) frames.
Proof.
  unfold naiveHandler.
  induction frames as [|msg rest IH]; intros w; simpl.
  - now rewrite app_nil_r.
  - now rewrite IH, naiveMessage_executed, <- app_assoc.
Qed.

Lemma naiveHandler_count (frames : list string) :
  forall w, Int64.in_range (insertedCount w) ->
            insertedCount (naiveHandler frames w)
            = Int64.wrap (insertedCount w + Z.of_nat (length frames)).
Proof.
  unfold naiveHandler.
  induction frames as [|msg rest IH]; intros w Hw.
  - cbn [fold_left length]. rewrite Z.add_0_r. symmetry. now apply wrap_in_range.
  - cbn [fold_left length]. rewrite IH, naiveMessage_count.
    + unfold Int64.add. rewrite wrap_add_l. f_equal. lia.
    + rewrite naiveMessage_count. apply wrap_range.
Qed.

Lemma bufferedWorker_executed (id : Z) (msgs : list string) :
  forall w, executed (bufferedWorker id msgs w)
            = executed w ++ map (fun msg => mkStmt insertOne [msg]) msgs.
Proof.
  unfold bufferedWorker.
  induction msgs as [|msg rest IH]; intros w; simpl.
  - now rewrite app_nil_r.
  - now rewrite IH, bufferedMessage_executed, <- app_assoc.
Qed.

Lemma bufferedWorker_count (id : Z) (msgs : list string) :
  forall w, Int64.in_range (insertedCount w) ->
            insertedCount (bufferedWorker id msgs w)
            = Int64.wrap (insertedCount w + Z.of_nat (length msgs)).
Proof.
  unfold bufferedWorker.
  induction msgs as [|msg rest IH]; intros w Hw.
  - cbn [fold_left length]. rewrite Z.add_0_r. symmetry. now apply wrap_in_range.
  - cbn [fold_left length]. rewrite IH, bufferedMessage_count.
    + unfold Int64.add. rewrite wrap_add_l. f_equal. lia.
    + rewrite bufferedMessage_count. apply wrap_range.
Qed.

Lemma flush_empty (id : Z) (w : World) : flush id (w, []) = (w, []).
Proof. reflexivity. Qed.

Lemma flush_nonempty (id : Z) (w : World) (batch : list string) :
  batch <> [] ->
  flush id (w, batch)
  = (checkDone Bulk
       (AddInt64 (Z.of_nat (length batch))
          (logIfErr (LogBulkError id)
             (execErr (executed w) (bulkStmt batch))
             {| insertedCount := insertedCount w;
                executed := executed w ++ [bulkStmt batch];
                logs := logs w |})),
     []).
Proof.
  intros Hne. unfold flush.
  destruct (Z.eqb_spec (Z.of_nat (length batch)) 0) as [E|_].
  - destruct batch; [congruence | simpl in E; lia].
  - unfold bulkStmt. rewrite buildBulkInsert_eq. reflexivity.
Qed.

Lemma flush_batch (id : Z) (w : World) (batch : list string) :
  snd (flush id (w, batch)) = [].
Proof.
  destruct batch as [|m b]; [reflexivity|].
  now rewrite flush_nonempty.
Qed.

Lemma flush_count (id : Z) (w : World) (batch : list string) :
  batch <> [] ->
  insertedCount (fst (flush id (w, batch)))
  = Int64.add (insertedCount w) (Z.of_nat (length batch)).
Proof.
  intros Hne. rewrite flush_nonempty by assumption. cbn [fst].
  rewrite checkDone_count. cbn. now rewrite logIfErr_count.
Qed.

Lemma flush_executed (id : Z) (w : World) (batch : list string) :
  batch <> [] ->
  executed (fst (flush id (w, batch))) = executed w ++ [bulkStmt batch].
Proof.
  intros Hne. rewrite flush_nonempty by assumption. cbn [fst].
  rewrite checkDone_executed. cbn. now rewrite logIfErr_executed.
Qed.

Lemma batchSize_pos : 0 < batchSize.
Proof. reflexivity. Qed.

Lemma size_trigger (batch : list string) (msg : string) :
  Z.of_nat (length batch) < batchSize ->
  (Z.of_nat (length (batch ++ [msg])) >=? batchSize) = true ->
  Z.of_nat (length (batch ++ [msg])) = batchSize.
Proof.
  rewrite length_app. cbn [length]. intros Hlt Hge.
  apply Z.geb_le in Hge. lia.
Qed.

Lemma bulkSelect_batch (id : Z) (c : SelectCase) (w : World) (batch : list string) :
  Z.of_nat (length batch) < batchSize ->
  Z.of_nat (length (snd (bulkSelect id c (w, batch)))) < batchSize.
Proof.
  intros Hlt. pose proof batchSize_pos as Hpos.
  destruct c as [msg|]; cbn [bulkSelect].
  - destruct (Z.of_nat (length (batch ++ [msg])) >=? batchSize) eqn:E.
    + now rewrite flush_batch.
    + cbn [snd]. destruct (Z.geb_spec (Z.of_nat (length (batch ++ [msg]))) batchSize);
        [discriminate | lia].
  - now rewrite flush_batch.
Qed.

Lemma bulkSelect_executed (id : Z) (c : SelectCase) (w : World) (batch : list string) :
  Z.of_nat (length batch) < batchSize ->
  Forall bulk_stmt_ok (executed w) ->
  Forall bulk_stmt_ok (executed (fst (bulkSelect id c (w, batch)))).
Proof.
  intros Hlt Hok.
  destruct c as [msg|]; cbn [bulkSelect].
  - destruct (Z.of_nat (length (batch ++ [msg])) >=? batchSize) eqn:E; [|exact Hok].
    rewrite flush_executed by (now destruct batch).
    apply Forall_app; split; [exact Hok|].
    constructor; [|constructor].
    exists (batch ++ [msg]). split; [now destruct batch|]. split; [reflexivity|].
    rewrite (size_trigger batch msg Hlt E). lia.
  - destruct batch as [|m b]; [exact Hok|].
    rewrite flush_executed by discriminate.
    apply Forall_app; split; [exact Hok|].
    constructor; [|constructor].
    exists (m :: b). split; [discriminate|]. split; [reflexivity|]. lia.
Qed.

Lemma bulkInsertWorker_batch (id : Z) (cases : list SelectCase) (w : World) :
  Z.of_nat (length (snd (bulkInsertWorker id cases w))) < batchSize.
Proof.
  unfold bulkInsertWorker.
  induction cases as [|c pre IH] using rev_ind.
  - apply batchSize_pos.
  - rewrite fold_left_app. cbn [fold_left].
    destruct (fold_left _ pre (w, [])) as [w1 batch].
    now apply bulkSelect_batch.
Qed.

(** Between two iterations of its loop a bulk worker holds fewer than
    [batchSize] messages, and all it has executed are well-formed bulk
    statements. *)
Lemma bulkInsertWorker_inv (id : Z) (cases : list SelectCase) (w : World) :
  Forall bulk_stmt_ok (executed w) ->
  Z.of_nat (length (snd (bulkInsertWorker id cases w))) < batchSize
  /\ Forall bulk_stmt_ok (executed (fst (bulkInsertWorker id cases w))).
Proof.
  intros Hok. unfold bulkInsertWorker.
  induction cases as [|c pre IH] using rev_ind.
  - cbn. split; [apply batchSize_pos | exact Hok].
  - rewrite fold_left_app. cbn [fold_left].
    destruct (fold_left _ pre (w, [])) as [w1 batch].
    cbn [fst snd] in IH. destruct IH as [Hlt Hex].
    split; [now apply bulkSelect_batch | now apply bulkSelect_executed].
Qed.

End Sequential.

(** ** Interleaved goroutines *)

Section Interleaving.

Context `{Store}.

Lemma run_app (a b : list Action) (s : System) :
  run (a ++ b) s = match run a s with Some s' => run b s' | None => None end.
Proof.
  revert s. induction a as [|x a IH]; intros s; cbn [run app]; [reflexivity|].
  destruct (sys_step x s); [apply IH | reflexivity].
Qed.

(** Induction along a schedule. *)
Lemma run_invariant (P : System -> Prop) :
  (forall a s s', P s -> sys_step a s = Some s' -> P s') ->
  forall acts s s', P s -> run acts s = Some s' -> P s'.
Proof.
  intros Hstep acts. induction acts as [|a acts IH]; intros s s' Hs Hrun.
  - cbn in Hrun. now inversion Hrun; subst.
  - cbn in Hrun. destruct (sys_step a s) as [s1|] eqn:E; [|discriminate].
    eapply IH; [eapply Hstep; eassumption | exact Hrun].
Qed.

(** A step changes one goroutine of the pool. *)
Lemma sys_step_inv (a : Action) (s s' : System) :
  sys_step a s = Some s' ->
  exists i g g',
    pool s !! i = Some g /\ pool s' = <[i := g']> (pool s)
    /\ ((a = Run i /\ go_step g (world s) (ch s) = Some (g', world s', ch s'))
        \/ (a = Tick i /\ go_tick g = Some g'
            /\ world s' = world s /\ ch s' = ch s)).
Proof.
  destruct a as [i|i]; cbn [sys_step]; intros Hs;
    destruct (pool s !! i) as [g|] eqn:Eg; try discriminate.
  - destruct (go_step g (world s) (ch s)) as [[[g' w'] c']|] eqn:E;
      [|discriminate].
    inversion Hs; subst; clear Hs. exists i, g, g'. cbn. auto.
  - destruct (go_tick g) as [g'|] eqn:E; [|discriminate].
    inversion Hs; subst; clear Hs. exists i, g, g'. cbn.
    split; [assumption|]. split; [reflexivity|]. right. auto.
Qed.

Lemma pool_split (l : list Goroutine) (i : nat) (g g' : Goroutine) :
  l !! i = Some g ->
  exists l1 l2, l = l1 ++ g :: l2 /\ <[i := g']> l = l1 ++ g' :: l2.
Proof.
  intros Hl. exists (take i l), (drop (S i) l). split.
  - symmetry. now apply take_drop_middle.
  - apply insert_take_drop. now apply lookup_lt_Some in Hl.
Qed.

Lemma unsent_insert (l : list Goroutine) (i : nat) (g g' : Goroutine) :
  l !! i = Some g ->
  unsent g ++ concat (map unsent (<[i := g']> l))
  ≡ₚ unsent g' ++ concat (map unsent l).
Proof.
  intros Hl. destruct (pool_split l i g g' Hl) as (l1 & l2 & -> & ->).
  rewrite !map_app, !concat_app. cbn [map concat].
  rewrite !(Permutation_app_swap_app (unsent _) (concat (map unsent l1))).
  apply Permutation_app_head.
  rewrite !app_assoc. apply Permutation_app_tail. apply Permutation_app_comm.
Qed.

Lemma owed_insert (l : list Goroutine) (i : nat) (g g' : Goroutine) :
  l !! i = Some g ->
  (owed g + sum_list_with owed (<[i := g']> l)
   = owed g' + sum_list_with owed l)%nat.
Proof.
  intros Hl. destruct (pool_split l i g g' Hl) as (l1 & l2 & -> & ->).
  rewrite !sum_list_with_app. cbn [sum_list_with]. lia.
Qed.

Lemma payloads_snoc (sts : list Stmt) (st : Stmt) :
  payloads (sts ++ [st]) = payloads sts ++ args st.
Proof.
  unfold payloads. rewrite map_app, concat_app. cbn. now rewrite app_nil_r.
Qed.

Lemma recv_Some (c c' : Chan) (msg : string) :
  recv c = Some (msg, c') -> buf c = msg :: buf c' /\ cap c' = cap c.
Proof.
  unfold recv. destruct (buf c) as [|m rest] eqn:E; [discriminate|].
  intros [= <- <-]. auto.
Qed.

Lemma send_Some (c c' : Chan) (msg : string) :
  send msg c = Some c' ->
  buf c' = buf c ++ [msg] /\ cap c' = cap c
  /\ Z.of_nat (length (buf c)) < cap c.
Proof.
  unfold send. destruct (Z.ltb_spec (Z.of_nat (length (buf c))) (cap c));
    [|discriminate].
  intros [= <-]. auto.
Qed.

(** No step of a goroutine loses or duplicates a message. *)
Lemma go_step_messages (g g' : Goroutine) (w w' : World) (c c' : Chan) :
  go_step g w c = Some (g', w', c') ->
  payloads (executed w') ++ buf c' ++ unsent g'
  ≡ₚ payloads (executed w) ++ buf c ++ unsent g.
Proof.
  destruct g as [frames pc|frames pc|id pc|id batch pc]; destruct pc;
    cbn [go_step]; intros Hs.
  - destruct frames; inversion Hs; subst; reflexivity.
  - inversion Hs; subst; clear Hs. cbn [unsent dbExec].
    rewrite logIfErr_executed. cbn [executed]. rewrite payloads_snoc.
    cbn [args]. solve_Permutation.
  - inversion Hs; subst; reflexivity.
  - inversion Hs; subst; clear Hs. now rewrite checkDone_executed.
  - destruct frames; inversion Hs; subst; reflexivity.
  - destruct (send msg c) as [c1|] eqn:E; inversion Hs; subst; clear Hs.
    apply send_Some in E as (-> & _ & _). cbn [unsent]. solve_Permutation.
  - destruct (recv c) as [[m c1]|] eqn:E; inversion Hs; subst; clear Hs.
    apply recv_Some in E as (-> & _). cbn [unsent]. solve_Permutation.
  - inversion Hs; subst; clear Hs. cbn [unsent dbExec].
    rewrite logIfErr_executed. cbn [executed]. rewrite payloads_snoc.
    cbn [args]. solve_Permutation.
  - inversion Hs; subst; reflexivity.
  - inversion Hs; subst; clear Hs. now rewrite checkDone_executed.
  - destruct (recv c) as [[m c1]|] eqn:E; [|discriminate].
    apply recv_Some in E as (-> & _).
    assert (unsent g' = batch ++ [m] /\ w' = w /\ c' = c1) as (-> & -> & ->).
    { destruct (_ >=? _); inversion Hs; subst; clear Hs;
        [unfold flushEntry; destruct (_ =? _)|]; auto. }
    solve_Permutation.
  - rewrite buildBulkInsert_eq in Hs. inversion Hs; subst; clear Hs.
    cbn [unsent dbExec]. rewrite logIfErr_executed. cbn [executed].
    rewrite payloads_snoc. cbn [args]. solve_Permutation.
  - inversion Hs; subst; reflexivity.
  - inversion Hs; subst; clear Hs. now rewrite checkDone_executed.
Qed.

Lemma go_tick_unsent (g g' : Goroutine) :
  go_tick g = Some g' -> unsent g' = unsent g /\ owed g' = owed g.
Proof.
  destruct g as [| | |id batch []]; try discriminate.
  intros [= <-]. unfold flushEntry. now destruct (_ =? _).
Qed.

(** The messages of a run are the same in every state of it. *)
Lemma sys_step_messages (a : Action) (s s' : System) :
  sys_step a s = Some s' -> all_messages s' ≡ₚ all_messages s.
Proof.
  intros Hs.
  destruct (sys_step_inv a s s' Hs) as (i & g & g' & Hg & Hp & Hk).
  unfold all_messages, in_flight. rewrite Hp.
  pose proof (unsent_insert (pool s) i g g' Hg) as Hu.
  set (X' := concat (map unsent (<[i:=g']> (pool s)))) in *.
  set (X := concat (map unsent (pool s))) in *.
  apply (Permutation_app_inv_l (unsent g)).
  destruct Hk as [(_ & Hstep) | (_ & Htick & -> & ->)].
  - apply go_step_messages in Hstep.
    set (P' := payloads (executed (world s'))) in *.
    set (P := payloads (executed (world s))) in *.
    transitivity (P' ++ buf (ch s') ++ (unsent g ++ X')); [solve_Permutation|].
    rewrite Hu.
    transitivity ((P' ++ buf (ch s') ++ unsent g') ++ X); [solve_Permutation|].
    rewrite Hstep. solve_Permutation.
  - apply go_tick_unsent in Htick as [Hu' _]. rewrite Hu' in Hu.
    set (P := payloads (executed (world s))) in *.
    transitivity (P ++ buf (ch s) ++ (unsent g ++ X')); [solve_Permutation|].
    rewrite Hu. solve_Permutation.
Qed.

Lemma run_messages (acts : list Action) (s s' : System) :
  run acts s = Some s' -> all_messages s' ≡ₚ all_messages s.
Proof.
  intros Hr.
  apply (run_invariant (fun x => all_messages x ≡ₚ all_messages s))
    with (acts := acts) (s := s); [|reflexivity|exact Hr].
  intros a s1 s2 H1 H2. now rewrite (sys_step_messages a s1 s2 H2).
Qed.

Lemma payloads_length_snoc (sts : list Stmt) (st : Stmt) :
  length (payloads (sts ++ [st]))
  = (length (payloads sts) + length (args st))%nat.
Proof. now rewrite payloads_snoc, length_app. Qed.

(** What a step of a goroutine does to the counter, to its debt and to the
    number of executed payloads. *)
Lemma go_step_count (g g' : Goroutine) (w w' : World) (c c' : Chan) :
  go_step g w c = Some (g', w', c') ->
  Int64.in_range (insertedCount w) ->
  Int64.in_range (insertedCount w')
  /\ exists k : Z,
       Z.of_nat (length (payloads (executed w')))
       - Z.of_nat (owed g') - insertedCount w'
       = Z.of_nat (length (payloads (executed w)))
         - Z.of_nat (owed g) - insertedCount w + k * Int64.modulus.
Proof.
  intros Hs Hr.
  assert (Hexec : forall line q a,
    Int64.in_range (insertedCount (logIfErr line (snd (dbExec q a w)) (fst (dbExec q a w))))
    /\ forall n, n = length a ->
       Z.of_nat (length (payloads (executed
           (logIfErr line (snd (dbExec q a w)) (fst (dbExec q a w))))))
       - Z.of_nat n
       - insertedCount (logIfErr line (snd (dbExec q a w)) (fst (dbExec q a w)))
       = Z.of_nat (length (payloads (executed w))) - Z.of_nat 0 - insertedCount w
         + 0 * Int64.modulus).
  { intros line q a. rewrite logIfErr_count, logIfErr_executed.
    cbn [dbExec fst snd executed insertedCount].
    split; [exact Hr|]. intros n ->. rewrite payloads_length_snoc.
    cbn [args]. lia. }
  assert (Hadd : forall n,
    Int64.in_range (insertedCount (AddInt64 (Z.of_nat n) w))
    /\ exists k, Z.of_nat (length (payloads (executed (AddInt64 (Z.of_nat n) w))))
         - Z.of_nat 0 - insertedCount (AddInt64 (Z.of_nat n) w)
       = Z.of_nat (length (payloads (executed w))) - Z.of_nat n - insertedCount w
         + k * Int64.modulus).
  { intros n. cbn [AddInt64 executed insertedCount]. split; [apply wrap_range|].
    destruct (wrap_eqm (insertedCount w + Z.of_nat n)) as [k Hk].
    unfold Int64.add. rewrite Hk. exists (- k). lia. }
  assert (Hdone : forall m,
    Int64.in_range (insertedCount (checkDone m w))
    /\ exists k, Z.of_nat (length (payloads (executed (checkDone m w))))
         - Z.of_nat 0 - insertedCount (checkDone m w)
       = Z.of_nat (length (payloads (executed w))) - Z.of_nat 0 - insertedCount w
         + k * Int64.modulus).
  { intros m. rewrite checkDone_count, checkDone_executed.
    split; [exact Hr | exists 0; lia]. }
  assert (Hskip : Int64.in_range (insertedCount w)
    /\ exists k, Z.of_nat (length (payloads (executed w)))
         - Z.of_nat 0 - insertedCount w
       = Z.of_nat (length (payloads (executed w))) - Z.of_nat 0 - insertedCount w
         + k * Int64.modulus).
  { split; [exact Hr | exists 0; lia]. }
  destruct g as [frames pc|frames pc|id pc|id batch pc]; destruct pc;
    cbn [go_step] in Hs.
  - destruct frames; inversion Hs; subst. exact Hskip.
  - inversion Hs; subst; clear Hs.
    destruct (Hexec LogDbError insertOne [msg]) as [? E].
    split; [assumption|]. exists 0. now apply E.
  - inversion Hs; subst. apply (Hadd 1%nat).
  - inversion Hs; subst. apply Hdone.
  - destruct frames; inversion Hs; subst. exact Hskip.
  - destruct (send msg c); inversion Hs; subst. exact Hskip.
  - destruct (recv c) as [[m c1]|]; inversion Hs; subst. exact Hskip.
  - inversion Hs; subst; clear Hs.
    destruct (Hexec (LogWorkerError id) insertOne [msg]) as [? E].
    split; [assumption|]. exists 0. now apply E.
  - inversion Hs; subst. apply (Hadd 1%nat).
  - inversion Hs; subst. apply Hdone.
  - destruct (recv c) as [[m c1]|]; [|discriminate].
    assert (owed g' = 0%nat /\ w' = w) as [-> ->].
    { destruct (_ >=? _); inversion Hs; subst; clear Hs;
        [unfold flushEntry; destruct (_ =? _)|]; auto. }
    exact Hskip.
  - rewrite buildBulkInsert_eq in Hs. inversion Hs; subst; clear Hs.
    destruct (Hexec (LogBulkError id)
                (String.append insertPrefix
                   (Join (map Sprintf_tuple (seq 1 (length batch))) ","))
                batch) as [? E].
    split; [assumption|]. exists 0. now apply E.
  - inversion Hs; subst. apply (Hadd (length batch)).
  - inversion Hs; subst. apply Hdone.
Qed.

Lemma sys_step_accounted (a : Action) (s s' : System) :
  accounted s -> sys_step a s = Some s' -> accounted s'.
Proof.
  intros [Hr [k Hk]] Hs.
  destruct (sys_step_inv a s s' Hs) as (i & g & g' & Hg & Hp & Hc).
  pose proof (owed_insert (pool s) i g g' Hg) as Ho.
  unfold accounted, debt in *. rewrite Hp.
  destruct Hc as [(_ & Hstep) | (_ & Htick & Hw & _)].
  - destruct (go_step_count _ _ _ _ _ _ Hstep Hr) as [Hr' [k' Hk']].
    split; [exact Hr'|]. exists (k + k'). lia.
  - apply go_tick_unsent in Htick as [_ Ho']. rewrite Hw.
    split; [exact Hr|]. exists k. lia.
Qed.

Lemma run_accounted (acts : list Action) (s s' : System) :
  accounted s -> run acts s = Some s' -> accounted s'.
Proof. apply run_invariant. intros; eapply sys_step_accounted; eauto. Qed.

End Interleaving.

(** ** Start and rest *)

Section StartAndRest.

Context `{Store}.

Lemma spawn_eq (worker : Z -> Goroutine) :
  spawn worker = [worker 0; worker 1; worker 2; worker 3].
Proof. reflexivity. Qed.

Lemma unsent_handlers (conns : Conns) :
  concat (map unsent (map (fun frames => Handler frames HRead) conns))
  = concat conns.
Proof. induction conns as [|c conns IH]; cbn; [reflexivity | now rewrite IH]. Qed.

Lemma unsent_naive_handlers (conns : Conns) :
  concat (map unsent (map (fun frames => NaiveHandler frames NRead) conns))
  = concat conns.
Proof. induction conns as [|c conns IH]; cbn; [reflexivity | now rewrite IH]. Qed.

Lemma owed_handlers (conns : Conns) :
  sum_list_with owed (map (fun frames => Handler frames HRead) conns) = 0%nat.
Proof. induction conns as [|c conns IH]; cbn; [reflexivity | exact IH]. Qed.

Lemma owed_naive_handlers (conns : Conns) :
  sum_list_with owed (map (fun frames => NaiveHandler frames NRead) conns)
  = 0%nat.
Proof. induction conns as [|c conns IH]; cbn; [reflexivity | exact IH]. Qed.

Lemma start_messages (m : Mode) (conns : Conns) :
  all_messages (start m conns) = concat conns.
Proof.
  destruct m; unfold all_messages, in_flight; cbn [start runNaive runBuffered
    runBulk world ch pool world0 executed payloads map concat make_chan buf app].
  - apply unsent_naive_handlers.
  - rewrite spawn_eq, map_app, concat_app, unsent_handlers. reflexivity.
  - rewrite spawn_eq, map_app, concat_app, unsent_handlers. reflexivity.
Qed.

Lemma start_debt (m : Mode) (conns : Conns) : debt (start m conns) = 0%nat.
Proof.
  unfold debt. destruct m; cbn [start runNaive runBuffered runBulk pool].
  - apply owed_naive_handlers.
  - rewrite spawn_eq, sum_list_with_app, owed_handlers. reflexivity.
  - rewrite spawn_eq, sum_list_with_app, owed_handlers. reflexivity.
Qed.

Lemma start_world (m : Mode) (conns : Conns) : world (start m conns) = world0.
Proof. now destruct m. Qed.

Lemma start_accounted (m : Mode) (conns : Conns) : accounted (start m conns).
Proof.
  unfold accounted. rewrite start_debt, start_world. split.
  - cbn. unfold Int64.in_range, Int64.min_signed,
      Int64.max_signed, Int64.half_modulus. lia.
  - exists 0. reflexivity.
Qed.

Lemma at_rest_spec (g : Goroutine) :
  at_rest g = true -> unsent g = [] /\ owed g = 0%nat.
Proof.
  destruct g as [[|] []|[|] []|? []|? [|] []]; cbn; intros; try discriminate; auto.
Qed.

Lemma quiescent_spec (s : System) :
  quiescent s = true -> in_flight s = [] /\ debt s = 0%nat.
Proof.
  unfold quiescent, in_flight, debt.
  destruct (buf (ch s)); [|discriminate]. cbn [app].
  induction (pool s) as [|g l IH]; cbn [forallb map concat sum_list_with].
  - auto.
  - intros [Hg Hl]%andb_prop. destruct (at_rest_spec g Hg) as [-> ->].
    destruct (IH Hl) as [-> ->]. auto.
Qed.

End StartAndRest.

(** ** The completion line under a race *)

Section Race.

Lemma checkDone_hit (m : Mode) (w : World) :
  insertedCount w = totalMessages -> checkDone m w = logPrint (LogDone m) w.
Proof.
  unfold checkDone, LoadInt64. intros ->. now rewrite Z.eqb_refl.
Qed.

Lemma checkDone_miss (m : Mode) (w : World) :
  insertedCount w <> totalMessages -> checkDone m w = w.
Proof.
  unfold checkDone, LoadInt64. intros Hne.
  now destruct (Z.eqb_spec (insertedCount w) totalMessages).
Qed.

Lemma start_idle (frames : list string) :
  start Buffered [frames] = idle 0 [] [] frames.
Proof. reflexivity. Qed.

Lemma add_small (k d : Z) :
  0 <= k -> 0 <= d -> k + d <= totalMessages + 1 -> Int64.add k d = k + d.
Proof.
  intros. apply add_in_range. pose proof totalMessages_val.
  unfold Int64.in_range, Int64.min_signed, Int64.max_signed, Int64.half_modulus.
  lia.
Qed.

Lemma send_empty (msg : string) :
  send msg (make_chan channelBufferSize)
  = Some {| cap := channelBufferSize; buf := [msg] |}.
Proof. reflexivity. Qed.

Lemma send_emptied (msg : string) :
  send msg {| cap := channelBufferSize; buf := [] |}
  = Some {| cap := channelBufferSize; buf := [msg] |}.
Proof. reflexivity. Qed.

Lemma round_spec (k : Z) (sts : list Stmt) (ls : list LogLine)
    (msg : string) (frames : list string) :
  0 <= k -> k + 1 < totalMessages ->
  @run reliable round (idle k sts ls (msg :: frames))
  = Some (idle (k + 1) (sts ++ [mkStmt insertOne [msg]]) ls frames).
Proof.
  intros H0 Hlt. unfold round, idle.
  cbn -[Int64.add totalMessages Z.eqb Z.add checkDone].
  rewrite send_empty.
  cbn -[Int64.add totalMessages Z.eqb Z.add checkDone].
  rewrite checkDone_miss;
    unfold AddInt64, make_chan; cbn [insertedCount executed logs];
    rewrite add_small by lia; [reflexivity | lia].
Qed.

Lemma rounds_spec (msg : string) (frames : list string) (n : nat) :
  forall k sts ls,
    0 <= k -> k + Z.of_nat n < totalMessages ->
    exists sts',
      @run reliable (concat (repeat round n))
        (idle k sts ls (repeat msg n ++ frames))
      = Some (idle (k + Z.of_nat n) sts' ls frames).
Proof.
  induction n as [|n IH]; intros k sts ls H0 Hlt.
  - exists sts. cbn [repeat concat run app]. now rewrite Z.add_0_r.
  - cbn [repeat concat]. rewrite run_app.
    cbn [app]. rewrite round_spec by lia.
    destruct (IH (k + 1) (sts ++ [mkStmt insertOne [msg]]) ls) as [sts' E];
      [lia | lia |].
    exists sts'. rewrite E. f_equal. f_equal. lia.
Qed.

(** From [totalMessages - 2]: both workers add, then both load the target
    and both log. *)
Lemma race_twice (sts : list Stmt) (ls : list LogLine) (m1 m2 : string) :
  exists sts',
    @run reliable race (idle (totalMessages - 2) sts ls [m1; m2])
    = Some (idle totalMessages sts'
              (ls ++ [LogDone Buffered; LogDone Buffered]) []).
Proof.
  eexists. unfold race, idle. pose proof totalMessages_val as Hv.
  cbn -[Int64.add totalMessages Z.eqb Z.add Z.sub checkDone].
  rewrite send_empty.
  cbn -[Int64.add totalMessages Z.eqb Z.add Z.sub checkDone].
  rewrite send_emptied.
  cbn -[Int64.add totalMessages Z.eqb Z.add Z.sub checkDone].
  rewrite (checkDone_hit Buffered); [rewrite (checkDone_hit Buffered)|];
    rewrite ?checkDone_count;
    unfold AddInt64, make_chan, logPrint; cbn [insertedCount executed logs];
    rewrite ?add_add, ?add_small by lia; try lia.
  replace (totalMessages - 2 + (1 + 1)) with totalMessages by lia.
  rewrite <- (app_assoc ls). reflexivity.
Qed.

(** From [totalMessages - 1], with one message more than expected: the
    counter passes the target between the add and the load of worker 0, and
    no worker logs. *)
Lemma race_skip (sts : list Stmt) (ls : list LogLine) (m1 m2 : string) :
  exists sts',
    @run reliable race (idle (totalMessages - 1) sts ls [m1; m2])
    = Some (idle (totalMessages + 1) sts' ls []).
Proof.
  eexists. unfold race, idle. pose proof totalMessages_val as Hv.
  cbn -[Int64.add totalMessages Z.eqb Z.add Z.sub checkDone].
  rewrite send_empty.
  cbn -[Int64.add totalMessages Z.eqb Z.add Z.sub checkDone].
  rewrite send_emptied.
  cbn -[Int64.add totalMessages Z.eqb Z.add Z.sub checkDone].
  rewrite (checkDone_miss Buffered); [rewrite (checkDone_miss Buffered)|];
    rewrite ?checkDone_count;
    unfold AddInt64, make_chan; cbn [insertedCount executed logs];
    rewrite ?add_add, ?add_small by lia; try lia.
  replace (totalMessages - 1 + (1 + 1)) with (totalMessages + 1) by lia.
  reflexivity.
Qed.

End Race.

(** ** The bulk mode and the channel under interleaving *)

Section BulkInterleaved.

Context `{Store}.

Lemma flushEntry_cases (batch : list string) :
  (batch = [] /\ flushEntry batch = BSelect)
  \/ (batch <> [] /\ flushEntry batch = BExec).
Proof. destruct batch; [left | right]; split; (reflexivity || discriminate). Qed.

Lemma go_step_bulk (g g' : Goroutine) (w w' : World) (c c' : Chan) :
  go_step g w c = Some (g', w', c') ->
  bulk_ok g -> Forall bulk_stmt_ok (executed w) ->
  bulk_ok g' /\ Forall bulk_stmt_ok (executed w').
Proof.
  pose proof batchSize_pos as Hpos.
  destruct g as [frames pc|frames pc|id pc|id batch pc]; cbn [bulk_ok];
    try contradiction; destruct pc; cbn [go_step]; intros Hs Hg Hw.
  - destruct frames; inversion Hs; subst. cbn. auto.
  - destruct (send msg c); inversion Hs; subst. cbn. auto.
  - destruct Hg as (Hle & Hlt & Hne). specialize (Hlt eq_refl).
    destruct (recv c) as [[m c1]|]; [|discriminate].
    destruct (Z.of_nat (length (batch ++ [m])) >=? batchSize) eqn:E;
      inversion Hs; subst; clear Hs; (split; [|exact Hw]); cbn [bulk_ok].
    + pose proof (size_trigger batch m Hlt E) as Heq.
      destruct (flushEntry_cases (batch ++ [m])) as [[He _]|[_ ->]];
        [now destruct batch|].
      split; [lia|]. split; [discriminate|]. intros _. now destruct batch.
    + rewrite length_app in *. cbn [length] in *.
      destruct (Z.geb_spec (Z.of_nat (length batch + 1)) batchSize);
        [discriminate|].
      split; [lia|]. split; [intros _; lia | congruence].
  - destruct Hg as (Hle & _ & Hne). specialize (Hne ltac:(discriminate)).
    rewrite buildBulkInsert_eq in Hs. inversion Hs; subst; clear Hs.
    cbn [bulk_ok dbExec]. rewrite logIfErr_executed. cbn [executed].
    split; [split; [lia|]; split; [discriminate | auto]|].
    apply Forall_app; split; [exact Hw|]. constructor; [|constructor].
    exists batch. split; [exact Hne|]. split; [|exact Hle].
    unfold bulkStmt. now rewrite buildBulkInsert_eq.
  - inversion Hs; subst; clear Hs. cbn [bulk_ok AddInt64 executed].
    destruct Hg as (Hle & _ & Hne).
    split; [split; [lia|]; split; [discriminate | auto] | exact Hw].
  - inversion Hs; subst; clear Hs. rewrite checkDone_executed.
    cbn [bulk_ok length]. split; [|exact Hw].
    split; [lia|]. split; [intros _; cbn; lia | congruence].
Qed.

Lemma go_tick_bulk (g g' : Goroutine) :
  go_tick g = Some g' -> bulk_ok g -> bulk_ok g'.
Proof.
  destruct g as [| | |id batch []]; try discriminate.
  intros [= <-] (Hle & Hlt & _). cbn [bulk_ok].
  destruct (flushEntry_cases batch) as [[-> ->]|[Hne ->]].
  - split; [assumption|]. split; [auto | congruence].
  - split; [assumption|]. split; [discriminate | auto].
Qed.

Lemma sys_step_bulk (a : Action) (s s' : System) :
  bulk_inv s -> sys_step a s = Some s' -> bulk_inv s'.
Proof.
  intros [Hp Hw] Hs.
  destruct (sys_step_inv a s s' Hs) as (i & g & g' & Hg & Hp' & Hc).
  pose proof (Forall_lookup_1 _ _ _ _ Hp Hg) as Hok.
  unfold bulk_inv. rewrite Hp'.
  destruct Hc as [(_ & Hstep) | (_ & Htick & Hw' & _)].
  - destruct (go_step_bulk _ _ _ _ _ _ Hstep Hok Hw) as [Hg' Hex].
    split; [now apply Forall_insert | exact Hex].
  - rewrite Hw'. split; [|exact Hw].
    apply Forall_insert; [exact Hp | now apply (go_tick_bulk g)].
Qed.

Lemma start_bulk_inv (conns : Conns) : bulk_inv (start Bulk conns).
Proof.
  pose proof batchSize_pos as Hpos.
  split; [|constructor]. cbn [start runBulk pool]. rewrite spawn_eq.
  apply Forall_app; split.
  - repeat constructor; cbn; try lia; congruence.
  - induction conns; cbn; constructor; cbn; auto.
Qed.

Lemma run_bulk_inv (conns : Conns) (acts : list Action) (s : System) :
  run acts (start Bulk conns) = Some s -> bulk_inv s.
Proof.
  apply run_invariant; [|apply start_bulk_inv].
  intros; eapply sys_step_bulk; eauto.
Qed.

(** *** The channel *)

Lemma go_step_chan (g g' : Goroutine) (w w' : World) (c c' : Chan) :
  go_step g w c = Some (g', w', c') ->
  Z.of_nat (length (buf c)) <= cap c ->
  cap c' = cap c /\ Z.of_nat (length (buf c')) <= cap c'.
Proof.
  intros Hs Hc.
  destruct g as [frames pc|frames pc|id pc|id batch pc]; destruct pc;
    cbn [go_step] in Hs;
    try (rewrite buildBulkInsert_eq in Hs);
    try (destruct frames; inversion Hs; subst; auto; fail);
    try (inversion Hs; subst; auto; fail).
  - destruct (send msg c) as [c1|] eqn:E; inversion Hs; subst; clear Hs.
    apply send_Some in E as (Hb & Hcap & Hlt).
    rewrite Hb, Hcap, length_app. cbn [length]. split; [reflexivity | lia].
  - destruct (recv c) as [[m c1]|] eqn:E; inversion Hs; subst; clear Hs.
    apply recv_Some in E as (Hb & Hcap). rewrite Hb in Hc. cbn [length] in Hc.
    rewrite Hcap. split; [reflexivity | lia].
  - destruct (recv c) as [[m c1]|] eqn:E; [|discriminate].
    apply recv_Some in E as (Hb & Hcap). rewrite Hb in Hc. cbn [length] in Hc.
    assert (c' = c1) as ->
      by (destruct (_ >=? _); inversion Hs; subst; reflexivity).
    rewrite Hcap. split; [reflexivity | lia].
Qed.

Lemma sys_step_chan (a : Action) (s s' : System) :
  chan_inv s -> sys_step a s = Some s' -> chan_inv s'.
Proof.
  intros [Hcap Hle] Hs.
  destruct (sys_step_inv a s s' Hs) as (i & g & g' & Hg & Hp' & Hc).
  unfold chan_inv.
  destruct Hc as [(_ & Hstep) | (_ & _ & _ & ->)]; [|auto].
  rewrite <- Hcap in Hle.
  destruct (go_step_chan _ _ _ _ _ _ Hstep Hle) as [E Hle'].
  rewrite <- Hcap, <- E. auto.
Qed.

Lemma run_chan_inv (m : Mode) (conns : Conns) (acts : list Action) (s : System) :
  m <> Naive -> run acts (start m conns) = Some s -> chan_inv s.
Proof.
  intros Hm. apply run_invariant; [intros; eapply sys_step_chan; eauto|].
  destruct m; [congruence| |]; split; cbn; (reflexivity || discriminate).
Qed.

(** A step leaves the other goroutines where they are. *)
Lemma sys_step_other (a : Action) (s s' : System) (i : nat) (g : Goroutine) :
  sys_step a s = Some s' -> a <> Run i -> a <> Tick i ->
  pool s !! i = Some g -> pool s' !! i = Some g.
Proof.
  intros Hs Hr Ht Hg.
  destruct (sys_step_inv a s s' Hs) as (j & gj & gj' & _ & -> & Hc).
  rewrite list_lookup_insert_ne; [exact Hg|].
  intros ->. destruct Hc as [(-> & _) | (-> & _)]; congruence.
Qed.

End BulkInterleaved.

(** ** Failed writes *)

Section FailedWrites.

Variables S1 S2 : Store.

Lemma naiveMessage_indep (msg : string) (w1 w2 : World) :
  same_progress w1 w2 ->
  same_progress (@naiveMessage S1 msg w1) (@naiveMessage S2 msg w2).
Proof.
  intros [Hc He]. split.
  - now rewrite !naiveMessage_count, Hc.
  - now rewrite !naiveMessage_executed, He.
Qed.

Lemma bufferedMessage_indep (id : Z) (msg : string) (w1 w2 : World) :
  same_progress w1 w2 ->
  same_progress (@bufferedMessage S1 id msg w1) (@bufferedMessage S2 id msg w2).
Proof.
  intros [Hc He]. split.
  - now rewrite !bufferedMessage_count, Hc.
  - now rewrite !bufferedMessage_executed, He.
Qed.

Lemma flush_indep (id : Z) (batch : list string) (w1 w2 : World) :
  same_progress w1 w2 ->
  same_progress (fst (@flush S1 id (w1, batch))) (fst (@flush S2 id (w2, batch)))
  /\ snd (@flush S1 id (w1, batch)) = snd (@flush S2 id (w2, batch)).
Proof.
  intros [Hc He]. destruct batch as [|m b].
  - rewrite !flush_empty. repeat split; assumption.
  - split; [split|].
    + now rewrite !flush_count, Hc by discriminate.
    + now rewrite !flush_executed, He by discriminate.
    + now rewrite !flush_batch.
Qed.

Lemma bulkSelect_indep (id : Z) (c : SelectCase) (batch : list string)
    (w1 w2 : World) :
  same_progress w1 w2 ->
  same_progress (fst (@bulkSelect S1 id c (w1, batch)))
                (fst (@bulkSelect S2 id c (w2, batch)))
  /\ snd (@bulkSelect S1 id c (w1, batch)) = snd (@bulkSelect S2 id c (w2, batch)).
Proof.
  intros Hw. destruct c as [msg|]; cbn [bulkSelect].
  - destruct (_ >=? _); [now apply flush_indep | auto].
  - now apply flush_indep.
Qed.

Lemma bulkInsertWorker_indep (id : Z) (cases : list SelectCase) (w : World) :
  same_progress (fst (@bulkInsertWorker S1 id cases w))
                (fst (@bulkInsertWorker S2 id cases w))
  /\ snd (@bulkInsertWorker S1 id cases w) = snd (@bulkInsertWorker S2 id cases w).
Proof.
  unfold bulkInsertWorker.
  induction cases as [|c pre IH] using rev_ind.
  - cbn. repeat split.
  - rewrite !fold_left_app. cbn [fold_left].
    destruct (fold_left _ pre (w, [])) as [w1 b1].
    destruct (fold_left _ pre (w, [])) as [w2 b2].
    cbn [fst snd] in IH. destruct IH as [Hw ->].
    now apply bulkSelect_indep.
Qed.

End FailedWrites.

Section ErrorsAreLogged.

Context `{Store}.

Lemma checkDone_logs (m : Mode) (w : World) (l : LogLine) :
  In l (logs w) -> In l (logs (checkDone m w)).
Proof.
  unfold checkDone. destruct (_ =? _); [|auto].
  cbn. intros Hl. apply in_or_app. auto.
Qed.

Lemma naiveMessage_logs_error (msg err : string) (w : World) :
  execErr (executed w) (mkStmt insertOne [msg]) = Some err ->
  In (LogDbError err) (logs (naiveMessage msg w)).
Proof.
  intros He. unfold naiveMessage, dbExec. rewrite He.
  apply checkDone_logs. cbn. apply in_or_app. right. now left.
Qed.

Lemma bufferedMessage_logs_error (id : Z) (msg err : string) (w : World) :
  execErr (executed w) (mkStmt insertOne [msg]) = Some err ->
  In (LogWorkerError id err) (logs (bufferedMessage id msg w)).
Proof.
  intros He. unfold bufferedMessage, dbExec. rewrite He.
  apply checkDone_logs. cbn. apply in_or_app. right. now left.
Qed.

Lemma flush_logs_error (id : Z) (batch : list string) (err : string) (w : World) :
  batch <> [] ->
  execErr (executed w) (bulkStmt batch) = Some err ->
  In (LogBulkError id err) (logs (fst (flush id (w, batch)))).
Proof.
  intros Hne He. rewrite flush_nonempty by assumption. rewrite He. cbn [fst].
  apply checkDone_logs. cbn. apply in_or_app. right. now left.
Qed.

End ErrorsAreLogged.

(** ** A goroutine left alone

    The functions of the part "one goroutine at a time" are what the steps of
    a goroutine amount to when no other goroutine moves in between. *)

Section Alone.

Context `{Store}.

Lemma step_at (l : list Goroutine) (i : nat) (g g' : Goroutine)
    (w w' : World) (c c' : Chan) :
  (i < length l)%nat ->
  go_step g w c = Some (g', w', c') ->
  sys_step (Run i) {| world := w; ch := c; pool := <[i := g]> l |}
  = Some {| world := w'; ch := c'; pool := <[i := g']> l |}.
Proof.
  intros Hi Hs. cbn [sys_step pool world ch].
  rewrite list_lookup_insert_eq by assumption. rewrite Hs.
  now rewrite list_insert_insert_eq.
Qed.

Lemma tick_at (l : list Goroutine) (i : nat) (g g' : Goroutine)
    (w : World) (c : Chan) :
  (i < length l)%nat ->
  go_tick g = Some g' ->
  sys_step (Tick i) {| world := w; ch := c; pool := <[i := g]> l |}
  = Some {| world := w; ch := c; pool := <[i := g']> l |}.
Proof.
  intros Hi Hs. cbn [sys_step pool world ch].
  rewrite list_lookup_insert_eq by assumption. rewrite Hs.
  now rewrite list_insert_insert_eq.
Qed.

Lemma system_at (s : System) (i : nat) (g : Goroutine) :
  pool s !! i = Some g ->
  s = {| world := world s; ch := ch s; pool := <[i := g]> (pool s) |}
  /\ (i < length (pool s))%nat.
Proof.
  intros Hg. split; [|now apply lookup_lt_Some in Hg].
  rewrite list_insert_id by assumption. now destruct s.
Qed.

Lemma naive_alone (s : System) (i : nat) (msg : string) (frames : list string) :
  pool s !! i = Some (NaiveHandler (msg :: frames) NRead) ->
  run [Run i; Run i; Run i; Run i] s
  = Some {| world := naiveMessage msg (world s);
            ch := ch s;
            pool := <[i := NaiveHandler frames NRead]> (pool s) |}.
Proof.
  intros Hg. destruct (system_at s i _ Hg) as [Es Hi].
  rewrite Es at 1. cbn [run].
  do 4 (erewrite step_at by (assumption || (cbn [go_step]; reflexivity))).
  reflexivity.
Qed.

Lemma buffered_alone (s : System) (i : nat) (id : Z) (msg : string) (c' : Chan) :
  pool s !! i = Some (BufferedWorker id WRecv) ->
  recv (ch s) = Some (msg, c') ->
  run [Run i; Run i; Run i; Run i] s
  = Some {| world := bufferedMessage id msg (world s);
            ch := c';
            pool := <[i := BufferedWorker id WRecv]> (pool s) |}.
Proof.
  intros Hg Hr. destruct (system_at s i _ Hg) as [Es Hi].
  rewrite Es at 1. cbn [run].
  erewrite step_at by (assumption || (cbn [go_step]; rewrite Hr; reflexivity)).
  do 3 (erewrite step_at by (assumption || (cbn [go_step]; reflexivity))).
  reflexivity.
Qed.

(** Inside [flush], past the emptiness test: execute, add, load and reset. *)
Lemma flush_body_alone (l : list Goroutine) (i : nat) (id : Z)
    (batch : list string) (w : World) (c : Chan) :
  (i < length l)%nat -> batch <> [] ->
  run [Run i; Run i; Run i]
    {| world := w; ch := c; pool := <[i := BulkWorker id batch BExec]> l |}
  = Some {| world := fst (flush id (w, batch));
            ch := c;
            pool := <[i := BulkWorker id [] BSelect]> l |}.
Proof.
  intros Hi Hne. cbn [run].
  erewrite step_at
    by (assumption || (cbn [go_step]; rewrite buildBulkInsert_eq; reflexivity)).
  do 2 (erewrite step_at by (assumption || (cbn [go_step]; reflexivity))).
  rewrite flush_nonempty by assumption. unfold bulkStmt.
  rewrite buildBulkInsert_eq. reflexivity.
Qed.

(** The ticker case of the [select]. *)
Lemma tick_alone (s : System) (i : nat) (id : Z) (batch : list string) :
  pool s !! i = Some (BulkWorker id batch BSelect) ->
  exists k : nat,
    run (Tick i :: repeat (Run i) k) s
    = Some {| world := fst (bulkSelect id TickerC (world s, batch));
              ch := ch s;
              pool := <[i := BulkWorker id
                               (snd (bulkSelect id TickerC (world s, batch)))
                               BSelect]> (pool s) |}.
Proof.
  intros Hg. destruct (system_at s i _ Hg) as [Es Hi].
  cbn [bulkSelect]. rewrite flush_batch.
  destruct (flushEntry_cases batch) as [[-> He]|[Hne He]].
  - exists 0%nat. rewrite Es at 1. cbn [repeat run].
    erewrite tick_at by (assumption || reflexivity). reflexivity.
  - exists 3%nat. rewrite Es at 1. cbn [repeat]. cbn [run].
    erewrite tick_at by (assumption || (cbn [go_tick]; rewrite He; reflexivity)).
    now apply flush_body_alone.
Qed.

(** The message case of the [select]. *)
Lemma recv_alone (s : System) (i : nat) (id : Z) (batch : list string)
    (msg : string) (c' : Chan) :
  pool s !! i = Some (BulkWorker id batch BSelect) ->
  recv (ch s) = Some (msg, c') ->
  exists k : nat,
    run (Run i :: repeat (Run i) k) s
    = Some {| world := fst (bulkSelect id (RecvMsg msg) (world s, batch));
              ch := c';
              pool := <[i := BulkWorker id
                               (snd (bulkSelect id (RecvMsg msg) (world s, batch)))
                               BSelect]> (pool s) |}.
Proof.
  intros Hg Hr. destruct (system_at s i _ Hg) as [Es Hi].
  cbn [bulkSelect].
  destruct (Z.of_nat (length (batch ++ [msg])) >=? batchSize) eqn:E.
  - exists 3%nat. rewrite Es at 1. cbn [repeat]. cbn [run].
    assert (He : flushEntry (batch ++ [msg]) = BExec)
      by (destruct (flushEntry_cases (batch ++ [msg])) as [[He _]|[_ ->]];
          [now destruct batch | reflexivity]).
    erewrite step_at
      by (assumption || (cbn [go_step]; rewrite Hr, E, He; reflexivity)).
    rewrite flush_batch. apply flush_body_alone; [assumption | now destruct batch].
  - exists 0%nat. rewrite Es at 1. cbn [repeat run fst snd].
    erewrite step_at
      by (assumption || (cbn [go_step]; rewrite Hr, E; reflexivity)).
    reflexivity.
Qed.

End Alone.

(** ** Filling the channel *)

Section Filling.

Lemma send_room (msg : string) (b : list string) :
  Z.of_nat (length b) < channelBufferSize ->
  send msg {| cap := channelBufferSize; buf := b |}
  = Some {| cap := channelBufferSize; buf := b ++ [msg] |}.
Proof.
  intros Hlt. unfold send. cbn [buf cap].
  now destruct (Z.ltb_spec (Z.of_nat (length b)) channelBufferSize); [|lia].
Qed.

Lemma send_full (msg : string) (c : Chan) :
  Z.of_nat (length (buf c)) = cap c -> send msg c = None.
Proof.
  intros Hlt. unfold send.
  now destruct (Z.ltb_spec (Z.of_nat (length (buf c))) (cap c)); [lia|].
Qed.

Lemma enqueue_spec (msg : string) (b frames : list string) :
  Z.of_nat (length b) < channelBufferSize ->
  @run reliable enqueue (backlog b (msg :: frames) HRead)
  = Some (backlog (b ++ [msg]) frames HRead).
Proof.
  intros Hlt. unfold enqueue, backlog.
  cbn -[send channelBufferSize].
  rewrite send_room by assumption. reflexivity.
Qed.

Lemma enqueue_many (msg : string) (frames : list string) (n : nat) :
  forall b,
    Z.of_nat (length b) + Z.of_nat n <= channelBufferSize ->
    @run reliable (concat (repeat enqueue n))
      (backlog b (repeat msg n ++ frames) HRead)
    = Some (backlog (b ++ repeat msg n) frames HRead).
Proof.
  induction n as [|n IH]; intros b Hle.
  - cbn [repeat concat run app]. now rewrite app_nil_r.
  - cbn [repeat concat]. rewrite run_app. cbn [app].
    rewrite enqueue_spec by lia.
    rewrite IH by (rewrite length_app; cbn [length]; lia).
    now rewrite <- app_assoc.
Qed.

(** A client that sends one message more than the channel holds, with the
    workers stalled, fills the channel; its handler then stands blocked at
    the send. *)
Lemma channel_fills :
  exists (acts : list Action) (s : System),
    @run reliable acts (start Buffered (one_client (channelBufferSize + 1)))
    = Some s
    /\ Z.of_nat (length (buf (ch s))) = channelBufferSize
    /\ pool s !! 4%nat = Some (Handler [] (HSend "m"%string))
    /\ @sys_step reliable (Run 4) s = None.
Proof.
  assert (Hn : exists n, Z.of_nat n = channelBufferSize
                         /\ Z.to_nat (channelBufferSize + 1) = (n + 1)%nat).
  { exists (Z.to_nat channelBufferSize).
    assert (0 <= channelBufferSize) by discriminate. split; lia. }
  destruct Hn as (n & Hn & Hn1).
  exists (concat (repeat enqueue n) ++ [Run 4]),
         (backlog (repeat "m"%string n) [] (HSend "m"%string)).
  unfold one_client. rewrite Hn1, repeat_app. cbn [repeat].
  change (start Buffered [?f]) with (backlog [] f HRead).
  rewrite run_app, enqueue_many by (cbn [length]; lia).
  cbn [app]. split; [reflexivity|].
  unfold backlog. cbn [ch buf pool].
  rewrite repeat_length. split; [exact Hn|]. split; [reflexivity|].
  cbn -[send channelBufferSize].
  rewrite send_full; [reflexivity|]. cbn [buf cap]. now rewrite repeat_length.
Qed.

End Filling.

(** ** The completion line when exactly [totalMessages] messages arrive *)

Section AtLeastOnce.

Context `{Store}.

Lemma completions_snoc (ls : list LogLine) (l : LogLine) :
  completions (ls ++ [l])
  = (completions ls + (if is_done l then 1 else 0))%nat.
Proof.
  unfold completions. rewrite List.filter_app, length_app. cbn [List.filter].
  now destruct (is_done l).
Qed.

Lemma logIfErr_completions line err (w : World) :
  (forall e, is_done (line e) = false) ->
  completions (logs (logIfErr line err w)) = completions (logs w).
Proof.
  intros Hl. destruct err as [e|]; [|reflexivity]. cbn [logIfErr logPrint logs].
  rewrite completions_snoc, Hl. lia.
Qed.

Lemma checkDone_completions (m : Mode) (w : World) :
  (completions (logs w) <= completions (logs (checkDone m w)))%nat
  /\ (insertedCount w = totalMessages ->
      (1 <= completions (logs (checkDone m w)))%nat).
Proof.
  split.
  - unfold checkDone. destruct (_ =? _); [|lia].
    cbn [logPrint logs]. rewrite completions_snoc. lia.
  - intros E. rewrite checkDone_hit by assumption.
    cbn [logPrint logs]. rewrite completions_snoc. cbn. lia.
Qed.

(** The four kinds of step: a step on the channel or the connection, an
    execution, an add, a load. *)
Lemma go_step_kind (g g' : Goroutine) (w w' : World) (c c' : Chan) :
  go_step g w c = Some (g', w', c') ->
  (w' = w /\ owed g = 0%nat /\ owed g' = 0%nat
   /\ at_load g = false /\ at_load g' = false)
  \/ (exists st, executed w' = executed w ++ [st]
        /\ insertedCount w' = insertedCount w
        /\ completions (logs w') = completions (logs w)
        /\ owed g = 0%nat /\ owed g' = length (args st)
        /\ at_load g = false /\ at_load g' = false)
  \/ (w' = AddInt64 (Z.of_nat (owed g)) w /\ owed g' = 0%nat
      /\ at_load g = false /\ at_load g' = true)
  \/ (exists m, w' = checkDone m w /\ owed g = 0%nat /\ owed g' = 0%nat
        /\ at_load g = true /\ at_load g' = false).
Proof.
  assert (Hexec : forall line q a,
    (forall e, is_done (line e) = false) ->
    exists st,
      executed (logIfErr line (snd (dbExec q a w)) (fst (dbExec q a w)))
      = executed w ++ [st]
      /\ insertedCount (logIfErr line (snd (dbExec q a w)) (fst (dbExec q a w)))
         = insertedCount w
      /\ completions (logs (logIfErr line (snd (dbExec q a w))
                              (fst (dbExec q a w))))
         = completions (logs w)
      /\ length (args st) = length a).
  { intros line q a Hl. exists (mkStmt q a).
    rewrite logIfErr_executed, logIfErr_count, logIfErr_completions by exact Hl.
    repeat split. }
  destruct g as [frames pc|frames pc|id pc|id batch pc]; destruct pc;
    cbn [go_step]; intros Hs.
  - left. destruct frames; inversion Hs; subst. repeat split.
  - right; left. inversion Hs; subst; clear Hs.
    destruct (Hexec LogDbError insertOne [msg] ltac:(reflexivity))
      as (st & ? & ? & ? & Hl).
    exists st. cbn [owed at_load]. rewrite Hl. repeat split; assumption.
  - do 2 right; left. inversion Hs; subst. repeat split.
  - do 3 right. inversion Hs; subst. exists Naive. repeat split.
  - left. destruct frames; inversion Hs; subst. repeat split.
  - left. destruct (send msg c); inversion Hs; subst. repeat split.
  - left. destruct (recv c) as [[m c1]|]; inversion Hs; subst. repeat split.
  - right; left. inversion Hs; subst; clear Hs.
    destruct (Hexec (LogWorkerError id) insertOne [msg] ltac:(reflexivity))
      as (st & ? & ? & ? & Hl).
    exists st. cbn [owed at_load]. rewrite Hl. repeat split; assumption.
  - do 2 right; left. inversion Hs; subst. repeat split.
  - do 3 right. inversion Hs; subst. exists Buffered. repeat split.
  - left. destruct (recv c) as [[m c1]|]; [|discriminate].
    destruct (_ >=? _); inversion Hs; subst; clear Hs;
      [unfold flushEntry; destruct (_ =? _)|]; repeat split.
  - right; left. rewrite buildBulkInsert_eq in Hs. inversion Hs; subst; clear Hs.
    destruct (Hexec (LogBulkError id)
                (String.append insertPrefix
                   (Join (map Sprintf_tuple (seq 1 (length batch))) ","))
                batch ltac:(reflexivity))
      as (st & ? & ? & ? & Hl).
    exists st. cbn [owed at_load]. rewrite Hl. repeat split; assumption.
  - do 2 right; left. inversion Hs; subst. repeat split.
  - do 3 right. inversion Hs; subst. exists Bulk. repeat split.
Qed.

Lemma go_tick_not_load (g g' : Goroutine) :
  go_tick g = Some g' -> at_load g = false.
Proof. destruct g as [| | |? ? []]; (discriminate || reflexivity). Qed.

Lemma sum_owed_ge (l : list Goroutine) (i : nat) (g : Goroutine) :
  l !! i = Some g -> (owed g <= sum_list_with owed l)%nat.
Proof.
  intros Hl. apply sum_list_with_in. apply list_elem_of_lookup. eauto.
Qed.

Lemma sys_step_on_target (a : Action) (s s' : System) :
  on_target s -> sys_step a s = Some s' -> on_target s'.
Proof.
  intros (Hall & H0 & Hacc & Hdone) Hs.
  pose proof (Permutation_length (sys_step_messages a s s' Hs)) as Hlen.
  destruct (sys_step_inv a s s' Hs) as (i & g & g' & Hg & Hp & Hc).
  pose proof (owed_insert (pool s) i g g' Hg) as Ho. rewrite <- Hp in Ho.
  pose proof (sum_owed_ge (pool s) i g Hg) as Hge.
  assert (Hpay : Z.of_nat (length (payloads (executed (world s))))
                 <= totalMessages).
  { unfold all_messages in Hall. rewrite length_app in Hall. lia. }
  assert (Hkeep : forall j gj, j <> i -> pool s !! j = Some gj ->
                               pool s' !! j = Some gj).
  { intros j gj Hj Hgj. rewrite Hp. now rewrite list_lookup_insert_ne. }
  assert (Hnew : pool s' !! i = Some g').
  { rewrite Hp. apply list_lookup_insert_eq. now apply lookup_lt_Some in Hg. }
  unfold on_target, debt in *. rewrite Hlen. split; [exact Hall|].
  destruct Hc as [(_ & Hstep) | (_ & Htick & Hw & _)].
  - destruct (go_step_kind _ _ _ _ _ _ Hstep)
      as [(Ew & Eo & Eo' & El & El')
         |[(st & Eex & Ec & Ecomp & Eo & Eo' & El & El')
         |[(Ew & Eo' & El & El')
         |(m & Ew & Eo & Eo' & El & El')]]].
    + rewrite Ew. split; [exact H0|]. split; [lia|].
      intros E. destruct (Hdone E) as [?|(j & gj & Hgj & Hlj)]; [now left|].
      right. exists j, gj. split; [|exact Hlj]. apply Hkeep; [|exact Hgj].
      intros ->. congruence.
    + rewrite Ec, Eex, payloads_length_snoc, Ecomp.
      split; [exact H0|]. split; [lia|].
      intros E. destruct (Hdone E) as [?|(j & gj & Hgj & Hlj)]; [now left|].
      right. exists j, gj. split; [|exact Hlj]. apply Hkeep; [|exact Hgj].
      intros ->. congruence.
    + rewrite Ew. cbn [AddInt64 insertedCount executed logs].
      rewrite add_small by lia.
      split; [lia|]. split; [lia|].
      intros _. right. exists i, g'. split; [exact Hnew | exact El'].
    + rewrite Ew, checkDone_count, checkDone_executed.
      split; [exact H0|]. split; [lia|].
      intros E. left. now apply checkDone_completions.
  - pose proof (go_tick_not_load _ _ Htick) as Hnl.
    apply go_tick_unsent in Htick as [_ Ho']. rewrite Hw.
    split; [exact H0|]. split; [lia|].
    intros E. destruct (Hdone E) as [?|(j & gj & Hgj & Hlj)]; [now left|].
    right. exists j, gj. split; [|exact Hlj]. apply Hkeep; [|exact Hgj].
    intros ->. congruence.
Qed.

Lemma start_on_target (m : Mode) (conns : Conns) :
  Z.of_nat (length (concat conns)) = totalMessages ->
  on_target (start m conns).
Proof.
  intros HN. unfold on_target.
  rewrite start_messages, start_debt, start_world.
  split; [exact HN|]. split; [reflexivity|]. split; [reflexivity|].
  cbn [world0 insertedCount]. rewrite totalMessages_val. discriminate.
Qed.

Lemma at_rest_not_load (l : list Goroutine) (j : nat) (g : Goroutine) :
  forallb at_rest l = true -> l !! j = Some g -> at_load g = false.
Proof.
  intros Hall Hg.
  assert (Hr : at_rest g = true).
  { rewrite forallb_forall in Hall. apply Hall.
    apply list_elem_of_In, list_elem_of_lookup. eauto. }
  destruct g as [[|] []|[|] []|? []|? [|] []]; cbn in *; congruence.
Qed.

(** When exactly [totalMessages] messages are delivered and all have been
    processed, the counter is at the target and the completion line has been
    logged at least once, on every interleaving and in every mode. *)
Lemma completion_at_least_once (m : Mode) (conns : Conns)
    (acts : list Action) (s : System) :
  Z.of_nat (length (concat conns)) = totalMessages ->
  run acts (start m conns) = Some s ->
  quiescent s = true ->
  insertedCount (world s) = totalMessages
  /\ (1 <= completions (logs (world s)))%nat.
Proof.
  intros HN Hrun Hq.
  assert (Ht : on_target s).
  { apply (run_invariant on_target) with (acts := acts) (s := start m conns);
      [intros; eapply sys_step_on_target; eauto
      | now apply start_on_target | exact Hrun]. }
  destruct Ht as (Hall & H0 & Hacc & Hdone).
  destruct (quiescent_spec s Hq) as [Hf Hd].
  unfold all_messages in Hall. rewrite Hf, app_nil_r in Hall.
  rewrite Hd in Hacc.
  assert (E : insertedCount (world s) = totalMessages) by lia.
  split; [exact E|].
  destruct (Hdone E) as [Hc|(j & g & Hg & Hl)]; [exact Hc|].
  unfold quiescent in Hq. destruct (buf (ch s)); [|discriminate].
  rewrite (at_rest_not_load _ _ _ Hq Hg) in Hl. discriminate.
Qed.

End AtLeastOnce.

(* ===================================================================== *)
(** * The claims *)
(* ===================================================================== *)

(** C1.  The claim: for every interleaving the completion line is logged
    exactly once, because the value compared to the target is the value the
    increment itself returned.  The code drops the value returned by
    [atomic.AddInt64] and compares a second, separate [atomic.LoadInt64].
    Here is a run of the program at its own constants that the claim
    excludes: buffered mode, one client sending [totalMessages] messages,
    a store that never fails; worker 0 handles all but the last two messages,
    then workers 0 and 1 take one message each and both add before either
    loads.  Everything has been processed, the counter is [totalMessages],
    and the completion line has been logged twice. *)
Theorem completion_logged_twice :
  exists s : System,
    @run reliable (racy_schedule (Z.to_nat (totalMessages - 2)))
      (start Buffered (one_client totalMessages)) = Some s
    /\ quiescent s = true
    /\ insertedCount (world s) = totalMessages
    /\ logs (world s) = [LogDone Buffered; LogDone Buffered]
    /\ completions (logs (world s)) = 2%nat.
Proof.
  assert (Hn : exists n, Z.of_nat n = totalMessages - 2
                         /\ Z.to_nat (totalMessages - 2) = n
                         /\ Z.to_nat totalMessages = (n + 2)%nat).
  { exists (Z.to_nat (totalMessages - 2)). pose proof totalMessages_val. lia. }
  destruct Hn as (n & Hn & -> & Hn2).
  unfold one_client, racy_schedule. rewrite Hn2, repeat_app. cbn [repeat].
  rewrite start_idle, run_app.
  destruct (rounds_spec "m"%string ["m"; "m"]%string n 0 [] []) as [sts E];
    [lia | lia |].
  rewrite E. replace (0 + Z.of_nat n) with (totalMessages - 2) by lia.
  destruct (race_twice sts [] "m"%string "m"%string) as [sts' E'].
  rewrite E'. eexists. split; [reflexivity|]. repeat split.
Qed.

(** With one message more than expected the same race makes the counter pass
    [totalMessages] between the add and the load of worker 0: the counter did
    reach the target and the completion line is never logged. *)
Lemma completion_skipped :
  exists s : System,
    @run reliable (racy_schedule (Z.to_nat (totalMessages - 1)))
      (start Buffered (one_client (totalMessages + 1))) = Some s
    /\ quiescent s = true
    /\ insertedCount (world s) = totalMessages + 1
    /\ completions (logs (world s)) = 0%nat.
Proof.
  assert (Hn : exists n, Z.of_nat n = totalMessages - 1
                         /\ Z.to_nat (totalMessages - 1) = n
                         /\ Z.to_nat (totalMessages + 1) = (n + 2)%nat).
  { exists (Z.to_nat (totalMessages - 1)). pose proof totalMessages_val. lia. }
  destruct Hn as (n & Hn & -> & Hn2).
  unfold one_client, racy_schedule. rewrite Hn2, repeat_app. cbn [repeat].
  rewrite start_idle, run_app.
  destruct (rounds_spec "m"%string ["m"; "m"]%string n 0 [] []) as [sts E];
    [lia | lia |].
  rewrite E. replace (0 + Z.of_nat n) with (totalMessages - 1) by lia.
  destruct (race_skip sts [] "m"%string "m"%string) as [sts' E'].
  rewrite E'. eexists. split; [reflexivity|]. repeat split.
Qed.

(** C2.  A failed write counts like a successful one.  Whatever the store
    answers, one message of the naive or buffered mode moves [insertedCount]
    by 1 and one flush of a non-empty batch moves it by the length of the
    batch; so two stores, one failing and one not, leave the same counter.  A
    write error is logged.  The loop goes on: under any two stores a handler
    or worker hands the same statements to the store, ends with the same
    counter and, in bulk mode, with the same batch. *)
Theorem failed_writes_are_counted :
  (forall (S : Store) (msg : string) (w : World),
      insertedCount (naiveMessage msg w) = Int64.add (insertedCount w) 1)
  /\ (forall (S : Store) (id : Z) (msg : string) (w : World),
      insertedCount (bufferedMessage id msg w) = Int64.add (insertedCount w) 1)
  /\ (forall (S : Store) (id : Z) (batch : list string) (w : World),
      batch <> [] ->
      insertedCount (fst (flush id (w, batch)))
      = Int64.add (insertedCount w) (Z.of_nat (length batch)))
  /\ (forall (S1 S2 : Store) (id : Z) (msg : string) (batch : list string)
             (w : World),
      insertedCount (@naiveMessage S1 msg w) = insertedCount (@naiveMessage S2 msg w)
      /\ insertedCount (@bufferedMessage S1 id msg w)
         = insertedCount (@bufferedMessage S2 id msg w)
      /\ insertedCount (fst (@flush S1 id (w, batch)))
         = insertedCount (fst (@flush S2 id (w, batch))))
  /\ (forall (S : Store) (id : Z) (msg err : string) (w : World),
      execErr (executed w) (mkStmt insertOne [msg]) = Some err ->
      In (LogDbError err) (logs (naiveMessage msg w))
      /\ In (LogWorkerError id err) (logs (bufferedMessage id msg w)))
  /\ (forall (S : Store) (id : Z) (batch : list string) (err : string) (w : World),
      batch <> [] ->
      execErr (executed w) (bulkStmt batch) = Some err ->
      In (LogBulkError id err) (logs (fst (flush id (w, batch)))))
  /\ (forall (S1 S2 : Store) (frames : list string) (w : World),
      same_progress (@naiveHandler S1 frames w) (@naiveHandler S2 frames w)
      /\ executed (@naiveHandler S1 frames w)
         = executed w ++ map (fun msg => mkStmt insertOne [msg]) frames)
  /\ (forall (S1 S2 : Store) (id : Z) (msgs : list string) (w : World),
      same_progress (@bufferedWorker S1 id msgs w) (@bufferedWorker S2 id msgs w)
      /\ executed (@bufferedWorker S1 id msgs w)
         = executed w ++ map (fun msg => mkStmt insertOne [msg]) msgs)
  /\ (forall (S1 S2 : Store) (id : Z) (cases : list SelectCase) (w : World),
      same_progress (fst (@bulkInsertWorker S1 id cases w))
                    (fst (@bulkInsertWorker S2 id cases w))
      /\ snd (@bulkInsertWorker S1 id cases w)
         = snd (@bulkInsertWorker S2 id cases w)).
Proof.
  split; [intros; apply naiveMessage_count|].
  split; [intros; apply bufferedMessage_count|].
  split; [intros; now apply flush_count|].
  split.
  { intros S1 S2 id msg batch w.
    rewrite !naiveMessage_count, !bufferedMessage_count.
    repeat split.
    apply (flush_indep S1 S2 id batch w w). now split. }
  split.
  { intros S id msg err w He. split;
      [now apply naiveMessage_logs_error | now apply bufferedMessage_logs_error]. }
  split; [intros; now apply flush_logs_error|].
  split.
  { intros S1 S2 frames w. split; [|apply naiveHandler_executed].
    unfold naiveHandler. revert w.
    enough (G : forall w1 w2, same_progress w1 w2 ->
              same_progress
                (fold_left (fun w msg => @naiveMessage S1 msg w) frames w1)
                (fold_left (fun w msg => @naiveMessage S2 msg w) frames w2))
      by (intros w; apply G; now split).
    induction frames as [|m fr IH]; intros w1 w2 Hw; [exact Hw|].
    cbn [fold_left]. apply IH. now apply naiveMessage_indep. }
  split.
  { intros S1 S2 id msgs w. split; [|apply bufferedWorker_executed].
    unfold bufferedWorker. revert w.
    enough (G : forall w1 w2, same_progress w1 w2 ->
              same_progress
                (fold_left (fun w msg => @bufferedMessage S1 id msg w) msgs w1)
                (fold_left (fun w msg => @bufferedMessage S2 id msg w) msgs w2))
      by (intros w; apply G; now split).
    induction msgs as [|m fr IH]; intros w1 w2 Hw; [exact Hw|].
    cbn [fold_left]. apply IH. now apply bufferedMessage_indep. }
  intros S1 S2 id cases w. apply bulkInsertWorker_indep.
Qed.

(** C3.  For a batch of [n] messages (non-empty or not) the statement built
    by [buildBulkInsert] has the placeholders [$1] to [$n], in this order and
    no other, and [n] value tuples; the argument list is the batch, message by
    message in the order of the batch. *)
Theorem buildBulkInsert_placeholders_args (batch : list string) :
  placeholders (fst (buildBulkInsert batch)) = seq 1 (length batch)
  /\ length (placeholders (fst (buildBulkInsert batch))) = length batch
  /\ tuples (fst (buildBulkInsert batch)) = length batch
  /\ fst (buildBulkInsert batch)
     = String.append insertPrefix
         (Join (map Sprintf_tuple (seq 1 (length batch))) ",")
  /\ snd (buildBulkInsert batch) = batch
  /\ length (snd (buildBulkInsert batch)) = length batch
  /\ forall i : nat, (i < length batch)%nat ->
       snd (buildBulkInsert batch) !! i = batch !! i.
Proof.
  rewrite placeholders_query, tuples_query, length_seq, buildBulkInsert_args.
  rewrite buildBulkInsert_eq. cbn [fst]. repeat split.
Qed.

(** C4.  A bulk worker (the constants are those of the program,
    [batchSize] = 5000) has taken any sequence of [select] cases, messages and
    ticks in any order, and now receives a message that fires the size
    trigger.  Then the batch held fewer than [batchSize] messages before the
    append and holds at most (in fact exactly) [batchSize] with the message
    appended; the worker flushes at once, and the one statement of this flush
    covers these at most [batchSize] messages. *)
Theorem size_flush_within_batchSize `{Store} (id : Z) (cases : list SelectCase)
    (msg : string) (w w1 : World) (batch : list string) :
  bulkInsertWorker id cases w = (w1, batch) ->
  (Z.of_nat (length (batch ++ [msg])) >=? batchSize) = true ->
  Z.of_nat (length batch) < batchSize
  /\ Z.of_nat (length (batch ++ [msg])) <= batchSize
  /\ Z.of_nat (length (batch ++ [msg])) = batchSize
  /\ bulkSelect id (RecvMsg msg) (w1, batch) = flush id (w1, batch ++ [msg])
  /\ executed (fst (bulkSelect id (RecvMsg msg) (w1, batch)))
     = executed w1 ++ [bulkStmt (batch ++ [msg])]
  /\ Z.of_nat (length (args (bulkStmt (batch ++ [msg])))) <= batchSize.
Proof.
  intros Hrun Htrig.
  pose proof (bulkInsertWorker_batch id cases w) as Hlt.
  rewrite Hrun in Hlt. cbn [snd] in Hlt.
  pose proof (size_trigger batch msg Hlt Htrig) as Heq.
  split; [exact Hlt|]. split; [lia|]. split; [exact Heq|].
  cbn [bulkSelect]. rewrite Htrig. split; [reflexivity|].
  split; [apply flush_executed; now destruct batch|].
  cbn [bulkStmt args]. lia.
Qed.

Lemma size_flush_within_batchSize_witness :
  Z.of_nat (length (repeat "m"%string (Z.to_nat 4999) ++ ["m"%string])) <= batchSize
  /\ executed (fst (@bulkSelect reliable 7 (RecvMsg "m")
                      (world0, repeat "m"%string (Z.to_nat 4999))))
     = [bulkStmt (repeat "m"%string (Z.to_nat 4999) ++ ["m"%string])].
Proof.
  destruct (@size_flush_within_batchSize reliable 7
              (map RecvMsg (repeat "m"%string (Z.to_nat 4999)))
              "m"%string world0 world0 (repeat "m"%string (Z.to_nat 4999)))
    as (_ & Hle & _ & _ & Hex & _).
  - vm_compute. reflexivity.
  - vm_compute. reflexivity.
  - split; [exact Hle | exact Hex].
Defined.

(** C5.  One call of [flush] on a non-empty batch, whatever the store
    answers: exactly one statement is handed to the store, it binds the
    messages of the batch in order, one placeholder each; the counter is
    incremented by the length of the batch (a 64-bit addition, the plain sum
    when it fits); the batch is empty afterwards, and so it is when the write
    failed, in which case the failure is logged and nothing is kept for a
    retry. *)
Theorem flush_writes_counts_resets `{Store} (id : Z) (w : World)
    (batch : list string) :
  batch <> [] ->
  executed (fst (flush id (w, batch))) = executed w ++ [bulkStmt batch]
  /\ args (bulkStmt batch) = batch
  /\ placeholders (query (bulkStmt batch)) = seq 1 (length batch)
  /\ insertedCount (fst (flush id (w, batch)))
     = Int64.add (insertedCount w) (Z.of_nat (length batch))
  /\ (Int64.in_range (insertedCount w + Z.of_nat (length batch)) ->
      insertedCount (fst (flush id (w, batch)))
      = insertedCount w + Z.of_nat (length batch))
  /\ snd (flush id (w, batch)) = []
  /\ (forall err : string,
        execErr (executed w) (bulkStmt batch) = Some err ->
        snd (flush id (w, batch)) = []
        /\ In (LogBulkError id err) (logs (fst (flush id (w, batch)))))
  /\ (forall (l : list Goroutine) (i : nat) (c : Chan),
        (i < length l)%nat ->
        run [Run i; Run i; Run i]
          {| world := w; ch := c; pool := <[i := BulkWorker id batch BExec]> l |}
        = Some {| world := fst (flush id (w, batch));
                  ch := c;
                  pool := <[i := BulkWorker id (snd (flush id (w, batch)))
                                   BSelect]> l |}).
Proof.
  intros Hne.
  split; [now apply flush_executed|]. split; [reflexivity|].
  split; [apply placeholders_query|].
  split; [now apply flush_count|].
  split; [intros Hr; rewrite flush_count by assumption; now apply add_in_range|].
  split; [apply flush_batch|].
  split; [intros err He; split; [apply flush_batch | now apply flush_logs_error]|].
  intros l i c Hi. rewrite flush_batch. now apply flush_body_alone.
Qed.

Lemma flush_writes_counts_resets_witness :
  executed (fst (@flush broken 2 (world0, ["a"; "b"]%string)))
  = [mkStmt "INSERT INTO messages (payload) VALUES ($1),($2)" ["a"; "b"]%string]
  /\ insertedCount (fst (@flush broken 2 (world0, ["a"; "b"]%string))) = 2
  /\ snd (@flush broken 2 (world0, ["a"; "b"]%string)) = [].
Proof.
  destruct (@flush_writes_counts_resets broken 2 world0 ["a"; "b"]%string)
    as (Hex & _ & _ & Hc & _ & Hb & _).
  - discriminate.
  - split; [exact Hex|]. split; [exact Hc | exact Hb].
Defined.

(** C6.  Whatever the mode, the connections, the store (in particular one on
    which no write fails) and the interleaving: once all the [N] delivered
    messages have been processed (every connection drained, the channel empty,
    every goroutine back at the head of its loop, the last partial batch of a
    bulk worker flushed on a tick), the counter [insertedCount] is exactly [N],
    the executed statements carry exactly [N] payloads, and these payloads are
    the delivered messages, each as often as it was delivered.  [N] is
    assumed to fit an int64, as any Go length does. *)
Theorem no_message_lost `{Store} (m : Mode) (conns : Conns)
    (acts : list Action) (s : System) :
  run acts (start m conns) = Some s ->
  quiescent s = true ->
  Z.of_nat (length (concat conns)) <= Int64.max_signed ->
  insertedCount (world s) = Z.of_nat (length (concat conns))
  /\ length (payloads (executed (world s))) = length (concat conns)
  /\ payloads (executed (world s)) ≡ₚ concat conns.
Proof.
  intros Hrun Hq HN.
  pose proof (run_messages _ _ _ Hrun) as Hm.
  rewrite start_messages in Hm.
  destruct (run_accounted _ _ _ (start_accounted m conns) Hrun) as [Hr [k Hk]].
  destruct (quiescent_spec s Hq) as [Hf Hd].
  unfold all_messages in Hm. rewrite Hf, app_nil_r in Hm.
  rewrite Hd in Hk. cbn in Hk.
  pose proof (Permutation_length Hm) as Hl.
  split; [|split; assumption].
  rewrite Hl in Hk. symmetry.
  apply (in_range_unique _ _ k); [|exact Hr|lia].
  unfold Int64.in_range, Int64.min_signed, Int64.max_signed, Int64.half_modulus in *.
  lia.
Qed.

Lemma no_message_lost_witness :
  exists s : System,
    @run reliable
      [Run 4; Run 4; Run 0; Run 5; Run 5; Run 1; Run 4; Run 4; Run 0;
       Tick 0; Run 0; Run 0; Run 0; Tick 1; Run 1; Run 1; Run 1]%nat
      (start Bulk [["a"; "b"]; ["c"]]%string) = Some s
    /\ insertedCount (world s) = 3
    /\ length (payloads (executed (world s))) = 3%nat
    /\ payloads (executed (world s)) ≡ₚ ["a"; "b"; "c"]%string.
Proof.
  eexists. split; [vm_compute; reflexivity|].
  apply (@no_message_lost reliable Bulk [["a"; "b"]; ["c"]]%string
           [Run 4; Run 4; Run 0; Run 5; Run 5; Run 1; Run 4; Run 4; Run 0;
            Tick 0; Run 0; Run 0; Run 0; Tick 1; Run 1; Run 1; Run 1]%nat).
  - vm_compute. reflexivity.
  - vm_compute. reflexivity.
  - vm_compute. discriminate.
Defined.

(** C7.  Flushing an empty batch does nothing: [flush] returns the shared
    state as it was (no statement handed to the store, the counter unchanged,
    no completion check, nothing logged) and the batch is still empty.  Among
    the goroutines: a tick taken by a worker with an empty batch leaves the
    whole system as it was, the worker back at its [select]. *)
Theorem flush_empty_noop `{Store} (id : Z) (w : World) :
  flush id (w, []) = (w, [])
  /\ bulkSelect id TickerC (w, []) = (w, [])
  /\ go_tick (BulkWorker id [] BSelect) = Some (BulkWorker id [] BSelect)
  /\ forall (s : System) (i : nat),
       pool s !! i = Some (BulkWorker id [] BSelect) ->
       sys_step (Tick i) s = Some s.
Proof.
  repeat split.
  intros s i Hg. cbn [sys_step]. rewrite Hg. cbn [go_tick flushEntry length].
  cbn. rewrite list_insert_id by assumption. now destruct s.
Qed.

(** C8.  In the buffered and bulk modes the channel is created with capacity
    [channelBufferSize] (500000) and, in every state a run can reach, holds at
    most that many messages.  Take a handler that stands at its send with the
    message [msg] in hand.  While the channel is full its send cannot proceed,
    and whatever any goroutine does next, the handler still stands at the send
    with [msg] in hand: no error path, no drop.  As soon as the channel holds
    fewer messages (a worker has received one) the send proceeds and puts
    [msg] at the back of the channel.  Across the run no message disappears:
    the executed payloads and the messages in flight are the delivered
    messages. *)
Theorem send_blocks_when_full `{Store} (m : Mode) (conns : Conns)
    (acts : list Action) (s : System) (i : nat) (frames : list string)
    (msg : string) :
  m <> Naive ->
  run acts (start m conns) = Some s ->
  pool s !! i = Some (Handler frames (HSend msg)) ->
  cap (ch s) = channelBufferSize
  /\ Z.of_nat (length (buf (ch s))) <= channelBufferSize
  /\ (Z.of_nat (length (buf (ch s))) = channelBufferSize ->
      sys_step (Run i) s = None
      /\ forall (a : Action) (s' : System),
           sys_step a s = Some s' ->
           pool s' !! i = Some (Handler frames (HSend msg))
           /\ Z.of_nat (length (buf (ch s'))) <= channelBufferSize)
  /\ (Z.of_nat (length (buf (ch s))) < channelBufferSize ->
      sys_step (Run i) s
      = Some {| world := world s;
                ch := {| cap := cap (ch s); buf := buf (ch s) ++ [msg] |};
                pool := <[i := Handler frames HRead]> (pool s) |})
  /\ all_messages s ≡ₚ concat conns.
Proof.
  intros Hm Hrun Hg.
  destruct (run_chan_inv m conns acts s Hm Hrun) as [Hcap Hle].
  split; [exact Hcap|]. split; [exact Hle|].
  split; [|split].
  - intros Hfull.
    assert (Hblocked : sys_step (Run i) s = None).
    { cbn [sys_step]. rewrite Hg. cbn [go_step].
      rewrite send_full; [reflexivity | congruence]. }
    split; [exact Hblocked|].
    intros a s' Hs. split.
    + apply (sys_step_other a s s' i); try assumption.
      * intros ->. congruence.
      * intros ->. cbn [sys_step] in Hs. rewrite Hg in Hs. discriminate.
    + now destruct (sys_step_chan a s s' (conj Hcap Hle) Hs).
  - intros Hroom. cbn [sys_step]. rewrite Hg. cbn [go_step]. unfold send.
    destruct (Z.ltb_spec (Z.of_nat (length (buf (ch s)))) (cap (ch s)));
      [reflexivity | lia].
  - rewrite <- (start_messages m conns). exact (run_messages acts _ _ Hrun).
Qed.

Lemma send_blocks_when_full_witness :
  exists s : System,
    @run reliable [Run 4; Run 4; Run 4]%nat
      (start Buffered [["a"; "b"]%string]) = Some s
    /\ pool s !! 4%nat = Some (Handler [] (HSend "b"%string))
    /\ Z.of_nat (length (buf (ch s))) <= channelBufferSize
    /\ all_messages s ≡ₚ ["a"; "b"]%string.
Proof.
  eexists. split; [vm_compute; reflexivity|]. split; [reflexivity|].
  destruct (@send_blocks_when_full reliable Buffered [["a"; "b"]%string]
              [Run 4; Run 4; Run 4]%nat
              (backlog ["a"%string] [] (HSend "b"%string))
              4%nat [] "b"%string)
    as (_ & Hle & _ & _ & Hall).
  - discriminate.
  - vm_compute. reflexivity.
  - reflexivity.
  - split; [exact Hle | exact Hall].
Defined.

(** C9.  The handler of the naive mode writes every frame it reads on its own
    path, one statement per frame, in the order read; each statement is the
    single-row INSERT with the one placeholder [$1] bound to the frame; each
    frame moves the counter by 1 and the handler never touches a channel.
    After 10 frames, 10 such statements have been executed and the counter is
    10. *)
Theorem naive_one_statement_per_message `{Store} (frames : list string) :
  executed (naiveHandler frames world0)
  = map (fun msg => mkStmt insertOne [msg]) frames
  /\ Forall (fun st => query st = insertOne /\ length (args st) = 1%nat
                       /\ placeholders (query st) = [1%nat])
       (executed (naiveHandler frames world0))
  /\ (forall (msg : string) (w : World),
        executed (naiveMessage msg w) = executed w ++ [mkStmt insertOne [msg]]
        /\ insertedCount (naiveMessage msg w) = Int64.add (insertedCount w) 1)
  /\ insertedCount (naiveHandler frames world0)
     = Int64.wrap (Z.of_nat (length frames))
  /\ (length frames = 10%nat ->
      length (executed (naiveHandler frames world0)) = 10%nat
      /\ insertedCount (naiveHandler frames world0) = 10)
  /\ (forall (pc : NaivePc) (w w' : World) (c c' : Chan) (g' : Goroutine),
        go_step (NaiveHandler frames pc) w c = Some (g', w', c') -> c' = c)
  /\ (forall (s : System) (i : nat) (msg : string),
        pool s !! i = Some (NaiveHandler (msg :: frames) NRead) ->
        run [Run i; Run i; Run i; Run i] s
        = Some {| world := naiveMessage msg (world s);
                  ch := ch s;
                  pool := <[i := NaiveHandler frames NRead]> (pool s) |}).
Proof.
  assert (Hex : executed (naiveHandler frames world0)
                = map (fun msg => mkStmt insertOne [msg]) frames)
    by (now rewrite naiveHandler_executed).
  assert (Hc : insertedCount (naiveHandler frames world0)
               = Int64.wrap (Z.of_nat (length frames))).
  { rewrite naiveHandler_count; [reflexivity|]. cbn.
    unfold Int64.in_range, Int64.min_signed, Int64.max_signed,
      Int64.half_modulus. lia. }
  split; [exact Hex|]. split.
  { rewrite Hex. apply Forall_map. apply Forall_forall. intros msg _.
    cbn. repeat split. }
  split; [intros; split; [apply naiveMessage_executed | apply naiveMessage_count]|].
  split; [exact Hc|]. split.
  { intros Hlen. rewrite Hex, Hc, length_map, Hlen. split; reflexivity. }
  split.
  { intros pc w w' c c' g' Hs. destruct pc; cbn [go_step] in Hs;
      try (destruct frames); inversion Hs; reflexivity. }
  intros s i msg Hg. now apply naive_alone.
Qed.

(** C10.  Every statement a run of the bulk mode has handed to the store was
    built by [buildBulkInsert] from a non-empty batch and has at least one
    value tuple.  On the empty batch [buildBulkInsert] would return the bare
    prefix, ending in "VALUES " with no tuple and no placeholder, and an empty
    argument list; [flush] returns before the call when the batch is empty. *)
Theorem bulk_statements_nonempty `{Store} (conns : Conns) (acts : list Action)
    (s : System) :
  run acts (start Bulk conns) = Some s ->
  Forall (fun st => exists batch : list string,
                      batch <> []
                      /\ query st = fst (buildBulkInsert batch)
                      /\ args st = batch
                      /\ (1 <= tuples (query st))%nat
                      /\ args st <> [])
    (executed (world s))
  /\ buildBulkInsert [] = ("INSERT INTO messages (payload) VALUES "%string, [])
  /\ tuples (fst (buildBulkInsert [])) = 0%nat
  /\ placeholders (fst (buildBulkInsert [])) = []
  /\ (forall (id : Z) (w : World),
        flush id (w, []) = (w, []))
  /\ (forall (id : Z) (w : World) (batch : list string),
        executed (fst (flush id (w, batch))) <> executed w -> batch <> []).
Proof.
  intros Hrun. split; [|repeat split].
  - destruct (run_bulk_inv conns acts s Hrun) as [_ Hex].
    eapply Forall_impl; [exact Hex|].
    intros st (batch & Hne & -> & _). exists batch.
    cbn [bulkStmt query args]. rewrite tuples_query.
    repeat split; try assumption. destruct batch; [congruence | cbn; lia].
  - intros id w batch Hch ->. now apply Hch.
Qed.

Lemma bulk_statements_nonempty_witness :
  exists s : System,
    @run reliable
      [Run 4; Run 4; Run 0; Tick 1; Tick 0; Run 0; Run 0; Run 0; Tick 0]%nat
      (start Bulk [["a"]%string]) = Some s
    /\ executed (world s)
       = [mkStmt "INSERT INTO messages (payload) VALUES ($1)" ["a"%string]]
    /\ Forall (fun st => args st <> []) (executed (world s)).
Proof.
  eexists. split; [vm_compute; reflexivity|]. split; [reflexivity|].
  destruct (@bulk_statements_nonempty reliable [["a"]%string]
              [Run 4; Run 4; Run 0; Tick 1; Tick 0; Run 0; Run 0; Run 0; Tick 0]%nat
              _ ltac:(vm_compute; reflexivity)) as [Hall _].
  eapply Forall_impl; [exact Hall|].
  intros st (batch & _ & _ & _ & _ & Hne). exact Hne.
Defined.

(* ===================================================================== *)
(** * Further properties *)
(* ===================================================================== *)

(** ** Start-up *)

Section StartUp.

Context `{Store}.

Lemma modeOf_Some (mode : string) (m : Mode) :
  modeOf mode = Some m <->
  (mode = "naive"%string /\ m = Naive)
  \/ (mode = "buffered"%string /\ m = Buffered)
  \/ (mode = "bulk"%string /\ m = Bulk).
Proof.
  unfold modeOf.
  destruct (String.eqb_spec mode "naive") as [->|H1].
  { cbn. split; [intros [= <-]; auto|].
    intros [[_ ->]|[[E _]|[E _]]]; (reflexivity || discriminate). }
  destruct (String.eqb_spec mode "buffered") as [->|H2].
  { cbn. split; [intros [= <-]; auto|].
    intros [[E _]|[[_ ->]|[E _]]]; (reflexivity || discriminate). }
  destruct (String.eqb_spec mode "bulk") as [->|H3].
  { cbn. split; [intros [= <-]; auto|].
    intros [[E _]|[[E _]|[_ ->]]]; (reflexivity || discriminate). }
  split; [discriminate|]. intros [[E _]|[[E _]|[E _]]]; congruence.
Qed.

Lemma modeOf_None (mode : string) :
  modeOf mode = None <->
  mode <> "naive"%string /\ mode <> "buffered"%string /\ mode <> "bulk"%string.
Proof.
  unfold modeOf.
  destruct (String.eqb_spec mode "naive"); [split; [discriminate | tauto]|].
  destruct (String.eqb_spec mode "buffered"); [split; [discriminate | tauto]|].
  destruct (String.eqb_spec mode "bulk"); [split; [discriminate | tauto]|].
  tauto.
Qed.

Lemma mustSQL_cases (openErr : option string) (w : World) :
  match mustSQL openErr w with
  | inr w' =>
      openErr = None
      /\ execErr (executed w) (mkStmt dropTable []) = None
      /\ execErr (executed w ++ [mkStmt dropTable []]) (mkStmt createTable [])
         = None
      /\ w' = {| insertedCount := insertedCount w;
                 executed := executed w ++ ddl;
                 logs := logs w |}
  | inl (FatalOpen e, w') => openErr = Some e /\ w' = w
  | inl (FatalDrop e, w') =>
      openErr = None
      /\ execErr (executed w) (mkStmt dropTable []) = Some e
      /\ executed w' = executed w ++ [mkStmt dropTable []]
  | inl (FatalCreate e, w') =>
      openErr = None
      /\ execErr (executed w) (mkStmt dropTable []) = None
      /\ execErr (executed w ++ [mkStmt dropTable []]) (mkStmt createTable [])
         = Some e
      /\ executed w' = executed w ++ ddl
  | inl (_, _) => False
  end.
Proof.
  unfold mustSQL, dbExec. destruct openErr as [e|]; [auto|].
  destruct (execErr (executed w) _) as [e|] eqn:E1; [auto|].
  cbn [executed].
  destruct (execErr (executed w ++ _) _) as [e|] eqn:E2.
  - cbn [executed]. rewrite <- app_assoc. auto.
  - rewrite <- app_assoc. auto.
Qed.

End StartUp.

(** ** The store after start-up *)

Section Preceded.

Variable pre : list Stmt.
Variable S : Store.

Lemma preceded_logIfErr line err (w : World) :
  logIfErr line err (preceded pre w) = preceded pre (logIfErr line err w).
Proof. now destruct err. Qed.

Lemma preceded_checkDone (m : Mode) (w : World) :
  checkDone m (preceded pre w) = preceded pre (checkDone m w).
Proof. unfold checkDone, LoadInt64. cbn. now destruct (_ =? _). Qed.

Lemma dbExec_preceded (q : string) (a : list string) (w : World) :
  @dbExec S q a (preceded pre w)
  = (preceded pre (fst (@dbExec (after pre S) q a w)),
     snd (@dbExec (after pre S) q a w)).
Proof.
  unfold dbExec, preceded, after. cbn. now rewrite app_assoc.
Qed.

Lemma go_step_preceded (g : Goroutine) (w : World) (c : Chan) :
  @go_step S g (preceded pre w) c
  = match @go_step (after pre S) g w c with
    | Some (g', w', c') => Some (g', preceded pre w', c')
    | None => None
    end.
Proof.
  destruct g as [frames pc|frames pc|id pc|id batch pc]; destruct pc;
    cbn [go_step];
    try (destruct frames; reflexivity);
    try reflexivity;
    try (now rewrite preceded_checkDone);
    try (rewrite dbExec_preceded, preceded_logIfErr; reflexivity).
  - now destruct (send msg c).
  - now destruct (recv c) as [[m c1]|].
  - destruct (recv c) as [[m c1]|]; [|reflexivity]. now destruct (_ >=? _).
  - destruct (buildBulkInsert batch) as [q a].
    rewrite dbExec_preceded, preceded_logIfErr. reflexivity.
Qed.

Lemma sys_step_preceded (a : Action) (s : System) :
  @sys_step S a (preceded_sys pre s)
  = option_map (preceded_sys pre) (@sys_step (after pre S) a s).
Proof.
  destruct a as [i|i]; cbn [sys_step preceded_sys pool world ch].
  - destruct (pool s !! i) as [g|]; [|reflexivity].
    rewrite go_step_preceded.
    now destruct (@go_step (after pre S) g (world s) (ch s)) as [[[g' w'] c']|].
  - destruct (pool s !! i) as [g|]; [|reflexivity].
    now destruct (go_tick g).
Qed.

Lemma run_preceded (acts : list Action) (s : System) :
  @run S acts (preceded_sys pre s)
  = option_map (preceded_sys pre) (@run (after pre S) acts s).
Proof.
  revert s. induction acts as [|a acts IH]; intros s; cbn [run]; [reflexivity|].
  rewrite sys_step_preceded.
  destruct (@sys_step (after pre S) a s) as [s1|]; cbn [option_map];
    [apply IH | reflexivity].
Qed.

End Preceded.

Section Kinds.

Context `{Store}.

Lemma go_step_same_kind (g g' : Goroutine) (w w' : World) (c c' : Chan) :
  go_step g w c = Some (g', w', c') -> kind g' = kind g.
Proof.
  destruct g as [frames pc|frames pc|id pc|id batch pc]; destruct pc;
    cbn [go_step]; intros Hs;
    repeat match type of Hs with
      | context [match ?x with _ => _ end] => destruct x; try discriminate
      end;
    inversion Hs; reflexivity.
Qed.

Lemma go_tick_same_kind (g g' : Goroutine) :
  go_tick g = Some g' -> kind g' = kind g.
Proof. destruct g as [| | |? ? []]; try discriminate. now intros [= <-]. Qed.

Lemma kinds_insert (l : list Goroutine) (i : nat) (g g' : Goroutine) :
  l !! i = Some g -> kind g' = kind g ->
  map kind (<[i := g']> l) = map kind l.
Proof.
  intros Hl Hk. destruct (pool_split l i g g' Hl) as (l1 & l2 & -> & ->).
  rewrite !map_app. cbn [map]. now rewrite Hk.
Qed.

Lemma sys_step_kinds (a : Action) (s s' : System) :
  sys_step a s = Some s' -> map kind (pool s') = map kind (pool s).
Proof.
  intros Hs.
  destruct (sys_step_inv a s s' Hs) as (i & g & g' & Hg & -> & Hc).
  apply (kinds_insert _ _ g); [exact Hg|].
  destruct Hc as [(_ & Hstep) | (_ & Htick & _)].
  - eapply go_step_same_kind; eauto.
  - now apply go_tick_same_kind.
Qed.

Lemma run_kinds (acts : list Action) (s s' : System) :
  run acts s = Some s' -> map kind (pool s') = map kind (pool s).
Proof.
  intros Hr.
  apply (run_invariant (fun x => map kind (pool x) = map kind (pool s)))
    with (acts := acts) (s := s); [|reflexivity|exact Hr].
  intros a s1 s2 H1 H2. now rewrite (sys_step_kinds a s1 s2 H2).
Qed.

Lemma kinds_lookup (l : list Goroutine) (i : nat) (g : Goroutine) :
  l !! i = Some g -> map kind l !! i = Some (kind g).
Proof. intros Hl. now rewrite list_lookup_fmap, Hl. Qed.

End Kinds.

(** ** What reaches the store *)

Section Statements.

Context `{Store}.

(** A step hands at most one statement to the store: the single-row INSERT
    when the goroutine is not a bulk worker, the statement built from its
    batch when it is. *)
Lemma go_step_stmt (g g' : Goroutine) (w w' : World) (c c' : Chan) :
  go_step g w c = Some (g', w', c') ->
  executed w' = executed w
  \/ (kind g <> KBulk
      /\ exists msg, executed w' = executed w ++ [mkStmt insertOne [msg]])
  \/ (exists id batch, g = BulkWorker id batch BExec
        /\ executed w' = executed w ++ [bulkStmt batch]).
Proof.
  destruct g as [frames pc|frames pc|id pc|id batch pc]; destruct pc;
    cbn [go_step]; intros Hs.
  - left. destruct frames; inversion Hs; subst; reflexivity.
  - right; left. inversion Hs; subst. rewrite logIfErr_executed.
    split; [discriminate | eauto].
  - left. inversion Hs; subst; reflexivity.
  - left. inversion Hs; subst. apply checkDone_executed.
  - left. destruct frames; inversion Hs; subst; reflexivity.
  - left. destruct (send msg c); inversion Hs; subst; reflexivity.
  - left. destruct (recv c) as [[m c1]|]; inversion Hs; subst; reflexivity.
  - right; left. inversion Hs; subst. rewrite logIfErr_executed.
    split; [discriminate | eauto].
  - left. inversion Hs; subst; reflexivity.
  - left. inversion Hs; subst. apply checkDone_executed.
  - left. destruct (recv c) as [[m c1]|]; [|discriminate].
    destruct (_ >=? _); inversion Hs; subst; reflexivity.
  - do 2 right. exists id, batch. split; [reflexivity|].
    rewrite buildBulkInsert_eq in Hs. inversion Hs; subst.
    rewrite logIfErr_executed. unfold bulkStmt. now rewrite buildBulkInsert_eq.
  - left. inversion Hs; subst; reflexivity.
  - left. inversion Hs; subst. apply checkDone_executed.
Qed.

Lemma sys_step_stmt (a : Action) (s s' : System) :
  sys_step a s = Some s' ->
  executed (world s') = executed (world s)
  \/ exists (i : nat) (g : Goroutine) (st : Stmt),
       pool s !! i = Some g
       /\ executed (world s') = executed (world s) ++ [st]
       /\ ((kind g <> KBulk /\ single_row st)
           \/ exists id batch, g = BulkWorker id batch BExec
                               /\ st = bulkStmt batch).
Proof.
  intros Hs.
  destruct (sys_step_inv a s s' Hs) as (i & g & g' & Hg & _ & Hc).
  destruct Hc as [(_ & Hstep) | (_ & _ & -> & _)]; [|now left].
  destruct (go_step_stmt _ _ _ _ _ _ Hstep)
    as [E|[(Hk & msg & E)|(id & batch & -> & E)]]; [now left| |].
  - right. exists i, g, (mkStmt insertOne [msg]).
    split; [exact Hg|]. split; [exact E|]. left. split; [exact Hk|]. now exists msg.
  - right. exists i, (BulkWorker id batch BExec), (bulkStmt batch).
    split; [exact Hg|]. split; [exact E|]. right. eauto.
Qed.

Lemma run_inserts (acts : list Action) (s s' : System) :
  run acts s = Some s' ->
  exists inserts : list Stmt,
    executed (world s') = executed (world s) ++ inserts
    /\ Forall is_insert inserts.
Proof.
  intros Hr.
  apply (run_invariant
           (fun x => exists inserts,
                executed (world x) = executed (world s) ++ inserts
                /\ Forall is_insert inserts))
    with (acts := acts) (s := s); [| |exact Hr].
  - intros a s1 s2 (ins & E & Hins) Hs.
    destruct (sys_step_stmt a s1 s2 Hs) as [E'|(i & g & st & _ & E' & Hst)].
    + exists ins. now rewrite E'.
    + exists (ins ++ [st]). rewrite E', E, <- app_assoc. split; [reflexivity|].
      apply Forall_app; split; [exact Hins|]. constructor; [|constructor].
      destruct Hst as [[_ Hsr]|(id & batch & _ & ->)];
        [now left | right; now exists batch].
  - exists []. now rewrite app_nil_r.
Qed.

End Statements.

(** ** [main] *)

Section Main.

Context `{S : Store}.

Lemma serving_preceded (m : Mode) (conns : Conns) :
  serving m conns {| insertedCount := 0; executed := ddl; logs := [] |}
  = preceded_sys ddl (start m conns).
Proof.
  unfold serving, preceded_sys. now rewrite start_world.
Qed.

Lemma main_Up (mode : string) (openErr listenErr : option string)
    (conns : Conns) (s : System) :
  main mode openErr listenErr conns = Up s ->
  exists m : Mode,
    modeOf mode = Some m
    /\ openErr = None /\ listenErr = None
    /\ execErr [] (mkStmt dropTable []) = None
    /\ execErr [mkStmt dropTable []] (mkStmt createTable []) = None
    /\ s = preceded_sys ddl (start m conns).
Proof.
  unfold main. destruct (modeOf mode) as [m|]; [|discriminate].
  pose proof (mustSQL_cases openErr world0) as Hc.
  destruct (mustSQL openErr world0) as [[why w]|w]; [discriminate|].
  destruct Hc as (-> & E1 & E2 & ->).
  destruct listenErr as [e|]; [discriminate|].
  intros [= <-]. exists m. cbn [world0 executed insertedCount logs app] in *.
  repeat split; try assumption. apply serving_preceded.
Qed.

End Main.

(** ** The counter without wrap-around *)

Section Exact.

Context `{Store}.

Lemma no_wrap_bounds (s : System) :
  no_wrap s ->
  0 <= insertedCount (world s)
  /\ insertedCount (world s)
     <= Z.of_nat (length (payloads (executed (world s))))
  /\ Z.of_nat (length (payloads (executed (world s))))
     <= Z.of_nat (length (all_messages s)).
Proof.
  intros (Hmax & H0 & Hacc). unfold all_messages. rewrite length_app. lia.
Qed.

Lemma sys_step_no_wrap (a : Action) (s s' : System) :
  no_wrap s -> sys_step a s = Some s' ->
  no_wrap s'
  /\ insertedCount (world s) <= insertedCount (world s')
  /\ (Z.of_nat (length (all_messages s)) < totalMessages ->
      completions (logs (world s')) = completions (logs (world s))).
Proof.
  intros Hex Hs. pose proof (no_wrap_bounds s Hex) as (_ & Hle & Hpay).
  destruct Hex as (Hmax & H0 & Hacc).
  pose proof (Permutation_length (sys_step_messages a s s' Hs)) as Hlen.
  destruct (sys_step_inv a s s' Hs) as (i & g & g' & Hg & Hp & Hc).
  pose proof (owed_insert (pool s) i g g' Hg) as Ho. rewrite <- Hp in Ho.
  pose proof (sum_owed_ge (pool s) i g Hg) as Hge.
  unfold no_wrap, debt in *. rewrite Hlen.
  destruct Hc as [(_ & Hstep) | (_ & Htick & Hw & _)].
  - destruct (go_step_kind _ _ _ _ _ _ Hstep)
      as [(Ew & Eo & Eo' & _)
         |[(st & Eex & Ec & Ecomp & Eo & Eo' & _)
         |[(Ew & Eo' & _)
         |(m & Ew & Eo & Eo' & _)]]].
    + rewrite Ew. repeat split; try lia.
    + rewrite Ec, Eex, payloads_length_snoc, Ecomp. repeat split; try lia.
    + rewrite Ew. cbn [AddInt64 insertedCount executed logs].
      rewrite add_in_range
        by (unfold Int64.in_range, Int64.min_signed, Int64.max_signed,
              Int64.half_modulus in *; lia).
      repeat split; try lia.
    + rewrite Ew, checkDone_count, checkDone_executed.
      split; [repeat split; lia|]. split; [lia|].
      intros Hshort. rewrite checkDone_miss; [reflexivity | lia].
  - apply go_tick_unsent in Htick as [_ Ho']. rewrite Hw.
    repeat split; try lia.
Qed.

Lemma start_no_wrap (m : Mode) (conns : Conns) :
  Z.of_nat (length (concat conns)) <= Int64.max_signed ->
  no_wrap (start m conns).
Proof.
  intros HN. unfold no_wrap.
  rewrite start_messages, start_debt, start_world.
  split; [exact HN|]. split; reflexivity.
Qed.

Lemma run_no_wrap (acts : list Action) (s s' : System) :
  no_wrap s -> run acts s = Some s' ->
  no_wrap s' /\ insertedCount (world s) <= insertedCount (world s').
Proof.
  intros Hex Hr.
  apply (run_invariant
           (fun x => no_wrap x
                     /\ insertedCount (world s) <= insertedCount (world x)))
    with (acts := acts) (s := s); [| split; [exact Hex | lia] | exact Hr].
  intros a s1 s2 [H1 Hle] H2.
  destruct (sys_step_no_wrap a s1 s2 H1 H2) as (H3 & Hle' & _).
  split; [exact H3 | lia].
Qed.

Lemma run_short (acts : list Action) (s s' : System) :
  no_wrap s -> Z.of_nat (length (all_messages s)) < totalMessages ->
  run acts s = Some s' ->
  completions (logs (world s')) = completions (logs (world s)).
Proof.
  intros Hex Hshort Hr.
  enough (G : no_wrap s'
              /\ Z.of_nat (length (all_messages s')) < totalMessages
              /\ completions (logs (world s'))
                 = completions (logs (world s))) by apply G.
  apply (run_invariant
           (fun x => no_wrap x
                     /\ Z.of_nat (length (all_messages x)) < totalMessages
                     /\ completions (logs (world x))
                        = completions (logs (world s))))
    with (acts := acts) (s := s);
    [| split; [exact Hex | split; [exact Hshort | reflexivity]] | exact Hr].
  intros a s1 s2 (H1 & Hsh & Hc) H2.
  destruct (sys_step_no_wrap a s1 s2 H1 H2) as (H3 & _ & Hc').
  split; [exact H3|].
  rewrite (Permutation_length (sys_step_messages a s1 s2 H2)).
  split; [exact Hsh|]. rewrite Hc' by exact Hsh. exact Hc.
Qed.

End Exact.

(** ** The work left *)

Section Work.

Context `{Store}.

Lemma sum_insert (f : Goroutine -> nat) (l : list Goroutine) (i : nat)
    (g g' : Goroutine) :
  l !! i = Some g ->
  (f g + sum_list_with f (<[i := g']> l) = f g' + sum_list_with f l)%nat.
Proof.
  intros Hl. destruct (pool_split l i g g' Hl) as (l1 & l2 & -> & ->).
  rewrite !sum_list_with_app. cbn [sum_list_with]. lia.
Qed.

Lemma go_step_work (g g' : Goroutine) (w w' : World) (c c' : Chan) :
  go_step g w c = Some (g', w', c') ->
  (5 * length (buf c') + work_of g' < 5 * length (buf c) + work_of g)%nat.
Proof.
  destruct g as [frames pc|frames pc|id pc|id batch pc]; destruct pc;
    cbn [go_step]; intros Hs.
  - destruct frames; inversion Hs; subst. cbn [work_of length]. lia.
  - inversion Hs; subst. cbn [work_of]. lia.
  - inversion Hs; subst. cbn [work_of]. lia.
  - inversion Hs; subst. cbn [work_of]. lia.
  - destruct frames; inversion Hs; subst. cbn [work_of length]. lia.
  - destruct (send msg c) as [c1|] eqn:E; inversion Hs; subst.
    apply send_Some in E as (-> & _ & _). rewrite length_app.
    cbn [work_of length]. lia.
  - destruct (recv c) as [[m c1]|] eqn:E; inversion Hs; subst.
    apply recv_Some in E as (-> & _). cbn [work_of length]. lia.
  - inversion Hs; subst. cbn [work_of]. lia.
  - inversion Hs; subst. cbn [work_of]. lia.
  - inversion Hs; subst. cbn [work_of]. lia.
  - destruct (recv c) as [[m c1]|] eqn:E; [|discriminate].
    apply recv_Some in E as (-> & _).
    assert (Hne : exists x l, batch ++ [m] = x :: l)
      by (destruct batch; cbn; eauto).
    destruct Hne as (x & l & Hne).
    destruct (_ >=? _); inversion Hs; subst; clear Hs; cbn [work_of length].
    + destruct (flushEntry_cases (batch ++ [m])) as [[He _]|[_ ->]];
        [now destruct batch|]. lia.
    + rewrite Hne. destruct batch; lia.
  - destruct (buildBulkInsert batch). inversion Hs; subst. cbn [work_of]. lia.
  - inversion Hs; subst. cbn [work_of]. lia.
  - inversion Hs; subst. cbn [work_of]. lia.
Qed.

Lemma go_tick_work (g g' : Goroutine) :
  go_tick g = Some g' ->
  (exists id, g = BulkWorker id [] BSelect /\ g' = g)
  \/ (work_of g' < work_of g)%nat.
Proof.
  destruct g as [| | |id batch []]; try discriminate. intros [= <-].
  destruct batch as [|x l]; [left; eauto | right].
  destruct (flushEntry_cases (x :: l)) as [[[=] _]|[_ ->]]. cbn [work_of]. lia.
Qed.

Lemma sys_step_work (a : Action) (s s' : System) :
  sys_step a s = Some s' ->
  (idle_tick a s = true /\ s' = s)
  \/ (idle_tick a s = false /\ (work s' < work s)%nat).
Proof.
  intros Hs.
  destruct (sys_step_inv a s s' Hs) as (i & g & g' & Hg & Hp & Hc).
  pose proof (sum_insert work_of (pool s) i g g' Hg) as Hsum.
  rewrite <- Hp in Hsum. unfold work.
  destruct Hc as [(-> & Hstep) | (-> & Htick & Hw & Hch)].
  - right. split; [reflexivity|]. apply go_step_work in Hstep. lia.
  - cbn [idle_tick]. rewrite Hg.
    destruct (go_tick_work g g' Htick) as [(id & -> & ->)|Hlt].
    + left. split; [reflexivity|].
      destruct s as [w c p], s' as [w' c' p']. cbn in *. subst.
      now rewrite list_insert_id.
    + right. split; [|rewrite Hch; lia].
      destruct g as [| | |id [|x l] []]; try reflexivity. cbn in *. 
      injection Htick as <-. cbn in Hlt. lia.
Qed.

Lemma run_work (acts : list Action) :
  forall s s' : System,
    run acts s = Some s' -> (effective acts s + work s' <= work s)%nat.
Proof.
  induction acts as [|a acts IH]; intros s s' Hr; cbn [run effective] in *.
  - inversion Hr; subst. lia.
  - destruct (sys_step a s) as [s1|] eqn:Hs; [|discriminate].
    specialize (IH s1 s' Hr).
    destruct (sys_step_work a s s1 Hs) as [[-> ->]|[-> Hlt]]; lia.
Qed.

Lemma start_work (m : Mode) (conns : Conns) :
  work (start m conns) = (steps_per_message m * length (concat conns))%nat.
Proof.
  unfold work.
  assert (Hn : forall l : Conns,
             (sum_list_with work_of (map (fun fr => NaiveHandler fr NRead) l)
              = 4 * length (concat l))%nat).
  { induction l as [|fr l IH]; cbn [map sum_list_with concat]; [reflexivity|].
    rewrite IH, length_app. cbn [work_of]. lia. }
  assert (Hh : forall l : Conns,
             (sum_list_with work_of (map (fun fr => Handler fr HRead) l)
              = 7 * length (concat l))%nat).
  { induction l as [|fr l IH]; cbn [map sum_list_with concat]; [reflexivity|].
    rewrite IH, length_app. cbn [work_of]. lia. }
  destruct m;
    cbn [start runNaive runBuffered runBulk ch pool make_chan buf length
         steps_per_message].
  - rewrite Hn. lia.
  - rewrite spawn_eq, sum_list_with_app, Hh.
    cbn [sum_list_with work_of]. lia.
  - rewrite spawn_eq, sum_list_with_app, Hh.
    cbn [sum_list_with work_of]. lia.
Qed.

Lemma work_of_at_rest (g : Goroutine) :
  work_of g = 0%nat <-> at_rest g = true.
Proof.
  destruct g as [frames pc|frames pc|id pc|id batch pc]; destruct pc;
    try destruct frames; try destruct batch; cbn [work_of at_rest length];
    split; (reflexivity || discriminate || lia).
Qed.

Lemma work_quiescent (s : System) :
  work s = 0%nat <-> quiescent s = true.
Proof.
  unfold work, quiescent.
  assert (Hp : forall l : list Goroutine,
             sum_list_with work_of l = 0%nat <-> forallb at_rest l = true).
  { induction l as [|g l IH]; cbn [sum_list_with forallb]; [tauto|].
    rewrite andb_true_iff, <- IH, <- work_of_at_rest. lia. }
  destruct (buf (ch s)); cbn [length].
  - rewrite <- Hp. lia.
  - split; [lia | discriminate].
Qed.

End Work.

(** ** Progress *)

Section Progress.

Context `{Store}.

Lemma Mode_eq_dec (m1 m2 : Mode) : {m1 = m2} + {m1 <> m2}.
Proof. decide equality. Qed.

Lemma busy_goroutine (g : Goroutine) (w : World) (c : Chan) :
  at_rest g = false ->
  (exists r, go_step g w c = Some r)
  \/ (exists g', go_tick g = Some g')
  \/ (exists frames msg, g = Handler frames (HSend msg) /\ send msg c = None).
Proof.
  destruct g as [frames pc|frames pc|id pc|id batch pc]; destruct pc;
    cbn [at_rest go_step go_tick]; intros Hr;
    try (destruct frames; [discriminate|]);
    try (left; eexists; reflexivity).
  - destruct (send msg c) eqn:E; [left; eexists; reflexivity|].
    right; right. eauto.
  - discriminate.
  - right; left. eauto.
  - left. destruct (buildBulkInsert batch). eexists; reflexivity.
Qed.

Lemma worker_receives (g : Goroutine) (w : World) (c : Chan) :
  is_worker g = true -> buf c <> [] -> exists r, go_step g w c = Some r.
Proof.
  intros Hw Hb.
  assert (Hrecv : exists m c1, recv c = Some (m, c1)).
  { unfold recv. destruct (buf c); [congruence | eauto]. }
  destruct Hrecv as (m & c1 & Hrecv).
  destruct g as [frames pc|frames pc|id pc|id batch pc]; try discriminate;
    destruct pc; cbn [go_step]; rewrite ?Hrecv;
    try (eexists; reflexivity).
  - destruct (_ >=? _); eexists; reflexivity.
  - destruct (buildBulkInsert batch). eexists; reflexivity.
Qed.

Lemma send_None (msg : string) (c : Chan) :
  send msg c = None -> 0 < cap c -> buf c <> [].
Proof.
  unfold send.
  destruct (Z.ltb_spec (Z.of_nat (length (buf c))) (cap c)); [discriminate|].
  intros _ Hpos E. rewrite E in *. cbn in *. lia.
Qed.

Lemma not_all_at_rest (l : list Goroutine) :
  forallb at_rest l = false ->
  exists i g, l !! i = Some g /\ at_rest g = false.
Proof.
  induction l as [|g l IH]; cbn [forallb]; [discriminate|].
  destruct (at_rest g) eqn:E; cbn [andb].
  - intros Hl. destruct (IH Hl) as (i & g' & Hg' & Hr).
    exists (Datatypes.S i), g'. auto.
  - intros _. exists 0%nat, g. auto.
Qed.

Lemma step_of (s : System) (i : nat) (g : Goroutine) :
  pool s !! i = Some g ->
  (exists r, go_step g (world s) (ch s) = Some r) -> can_move s.
Proof.
  intros Hg [[[g' w'] c'] Hs].
  assert (Hstep : sys_step (Run i) s
                  = Some (mkSystem w' c' (<[i := g']> (pool s))))
    by (cbn [sys_step]; now rewrite Hg, Hs).
  exists (Run i). eexists. split; [exact Hstep|].
  destruct (sys_step_work _ _ _ Hstep) as [[[=] _]|[_ Hlt]]. exact Hlt.
Qed.

Lemma tick_of (s : System) (i : nat) (g : Goroutine) :
  pool s !! i = Some g -> at_rest g = false ->
  (exists g', go_tick g = Some g') -> can_move s.
Proof.
  intros Hg Hbusy [g' Hs].
  assert (Hstep : sys_step (Tick i) s
                  = Some (mkSystem (world s) (ch s) (<[i := g']> (pool s))))
    by (cbn [sys_step]; now rewrite Hg, Hs).
  exists (Tick i). eexists. split; [exact Hstep|].
  destruct (sys_step_work _ _ _ Hstep) as [[Hidle _]|[_ Hlt]]; [|exact Hlt].
  cbn [idle_tick] in Hidle. rewrite Hg in Hidle.
  destruct g as [| | |id [|x l] []]; discriminate.
Qed.

Lemma first_is_worker (m : Mode) (conns : Conns) (acts : list Action)
    (s : System) :
  m <> Naive -> run acts (start m conns) = Some s ->
  exists g, pool s !! 0%nat = Some g /\ is_worker g = true.
Proof.
  intros Hm Hr. pose proof (run_kinds acts _ _ Hr) as Hk.
  assert (H0 : map kind (pool s) !! 0%nat = Some KBuffered
               \/ map kind (pool s) !! 0%nat = Some KBulk).
  { rewrite Hk. destruct m; [congruence | left | right]; reflexivity. }
  destruct (pool s) as [|g l]; [destruct H0; discriminate|].
  exists g. split; [reflexivity|].
  destruct g; cbn in H0; destruct H0 as [[=]|[=]]; reflexivity.
Qed.

Lemma naive_pool (conns : Conns) (acts : list Action) (s : System)
    (i : nat) (g : Goroutine) :
  run acts (start Naive conns) = Some s ->
  pool s !! i = Some g -> kind g = KNaive.
Proof.
  intros Hr Hg. pose proof (run_kinds acts _ _ Hr) as Hk.
  apply kinds_lookup in Hg. rewrite Hk in Hg.
  cbn [start runNaive pool] in Hg. rewrite map_map in Hg. cbn [kind] in Hg.
  apply list_elem_of_lookup_2, list_elem_of_In, in_map_iff in Hg.
  destruct Hg as (x & E & _). now symmetry.
Qed.

Lemma naive_chan (conns : Conns) (acts : list Action) (s : System) :
  run acts (start Naive conns) = Some s -> ch s = make_chan 0.
Proof.
  revert s. induction acts as [|a acts IH] using rev_ind; intros s Hr.
  - cbn in Hr. now inversion Hr.
  - rewrite run_app in Hr.
    destruct (run acts (start Naive conns)) as [s1|] eqn:E; [|discriminate].
    cbn [run] in Hr.
    destruct (sys_step a s1) as [s2|] eqn:Hs; [|discriminate].
    inversion Hr; subst s2; clear Hr. rewrite <- (IH s1 eq_refl).
    destruct (sys_step_inv a s1 s Hs) as (i & g & g' & Hg & _ & Hc).
    destruct Hc as [(_ & Hstep) | (_ & _ & _ & Hc)]; [|exact Hc].
    pose proof (naive_pool conns acts s1 i g E Hg) as Hk.
    destruct g as [frames pc| | |]; try discriminate.
    destruct pc; cbn [go_step] in Hstep;
      try (destruct frames); inversion Hstep; reflexivity.
Qed.

End Progress.

(** ** A bulk worker and the order of its messages *)

Section WorkerOrder.

Context `{Store}.

Lemma payloads_app (a b : list Stmt) :
  payloads (a ++ b) = payloads a ++ payloads b.
Proof. unfold payloads. now rewrite map_app, concat_app. Qed.

Lemma received_app (a b : list SelectCase) :
  received (a ++ b) = received a ++ received b.
Proof. unfold received. now rewrite map_app, concat_app. Qed.

Lemma received_msgs (msgs : list string) : received (map RecvMsg msgs) = msgs.
Proof.
  unfold received. induction msgs as [|m l IH]; cbn; [reflexivity|].
  now f_equal.
Qed.

Lemma flush_payloads (id : Z) (w : World) (batch : list string) :
  payloads (executed (fst (flush id (w, batch)))) ++ snd (flush id (w, batch))
  = payloads (executed w) ++ batch.
Proof.
  destruct batch as [|m b]; [reflexivity|].
  rewrite flush_executed, flush_batch by discriminate.
  now rewrite payloads_snoc, app_nil_r.
Qed.

Lemma flush_wrap (id : Z) (w : World) (batch : list string) :
  Int64.wrap (insertedCount (fst (flush id (w, batch)))
              + Z.of_nat (length (snd (flush id (w, batch)))))
  = Int64.wrap (insertedCount w + Z.of_nat (length batch)).
Proof.
  destruct batch as [|m b]; [reflexivity|].
  rewrite flush_count, flush_batch by discriminate.
  unfold Int64.add. rewrite wrap_add_l. f_equal. cbn [length]. lia.
Qed.

Lemma bulkSelect_payloads (id : Z) (c : SelectCase) (w : World)
    (batch : list string) :
  payloads (executed (fst (bulkSelect id c (w, batch))))
  ++ snd (bulkSelect id c (w, batch))
  = payloads (executed w) ++ batch ++ received [c].
Proof.
  destruct c as [msg|]; cbn [bulkSelect received map concat app].
  - destruct (_ >=? _); [apply flush_payloads | reflexivity].
  - rewrite app_nil_r. apply flush_payloads.
Qed.

Lemma bulkSelect_wrap (id : Z) (c : SelectCase) (w : World)
    (batch : list string) :
  Int64.wrap (insertedCount (fst (bulkSelect id c (w, batch)))
              + Z.of_nat (length (snd (bulkSelect id c (w, batch)))))
  = Int64.wrap (insertedCount w
                + Z.of_nat (length (batch ++ received [c]))).
Proof.
  destruct c as [msg|]; cbn [bulkSelect received map concat app].
  - destruct (_ >=? _); [apply flush_wrap | reflexivity].
  - rewrite app_nil_r. apply flush_wrap.
Qed.

Lemma wrap_congr (a b d : Z) :
  Int64.wrap a = Int64.wrap b -> Int64.wrap (a + d) = Int64.wrap (b + d).
Proof.
  intros E. rewrite <- (wrap_add_l a d), <- (wrap_add_l b d). now rewrite E.
Qed.

(** No tick: every statement of the worker carries exactly [batchSize]
    messages. *)
Lemma bulkInsertWorker_full (id : Z) (msgs : list string) (w : World) :
  exists new : list Stmt,
    executed (fst (bulkInsertWorker id (map RecvMsg msgs) w))
    = executed w ++ new
    /\ Forall (fun st => Z.of_nat (length (args st)) = batchSize
                         /\ st = bulkStmt (args st)) new.
Proof.
  unfold bulkInsertWorker.
  induction msgs as [|msg pre IH] using rev_ind.
  - exists []. cbn. now rewrite app_nil_r.
  - rewrite map_app, fold_left_app. cbn [map fold_left].
    pose proof (bulkInsertWorker_batch id (map RecvMsg pre) w) as Hlt.
    unfold bulkInsertWorker in Hlt.
    destruct (fold_left _ (map RecvMsg pre) (w, [])) as [w1 batch].
    cbn [fst snd] in *. destruct IH as (new & E & Hall).
    cbn [bulkSelect].
    destruct (Z.of_nat (length (batch ++ [msg])) >=? batchSize) eqn:Htrig.
    + exists (new ++ [bulkStmt (batch ++ [msg])]).
      rewrite flush_executed by (now destruct batch).
      rewrite E, <- app_assoc. split; [reflexivity|].
      apply Forall_app; split; [exact Hall|]. constructor; [|constructor].
      cbn [bulkStmt args]. split; [now apply size_trigger | reflexivity].
    + exists new. auto.
Qed.

Lemma payloads_full (new : list Stmt) (b : nat) :
  Forall (fun st => length (args st) = b) new ->
  length (payloads new) = (b * length new)%nat.
Proof.
  induction 1 as [|st l Hst _ IH]; cbn [payloads map concat length].
  - lia.
  - rewrite length_app. fold (payloads l). rewrite IH, Hst. lia.
Qed.

Lemma bulkInsertWorker_payloads (id : Z) (cases : list SelectCase) (w : World) :
  payloads (executed (fst (bulkInsertWorker id cases w)))
  ++ snd (bulkInsertWorker id cases w)
  = payloads (executed w) ++ received cases
  /\ Int64.wrap (insertedCount (fst (bulkInsertWorker id cases w))
                 + Z.of_nat (length (snd (bulkInsertWorker id cases w))))
     = Int64.wrap (insertedCount w + Z.of_nat (length (received cases))).
Proof.
  unfold bulkInsertWorker.
  induction cases as [|c pre IH] using rev_ind.
  - cbn. now rewrite app_nil_r.
  - rewrite fold_left_app. cbn [fold_left].
    destruct (fold_left _ pre (w, [])) as [w1 batch]. cbn [fst snd] in IH.
    destruct IH as [IHp IHc]. rewrite received_app. split.
    + now rewrite bulkSelect_payloads, !app_assoc, IHp.
    + rewrite bulkSelect_wrap, !length_app, !Nat2Z.inj_add, !Z.add_assoc.
      now apply wrap_congr.
Qed.

Lemma bulkInsertWorker_chunks (id : Z) (msgs : list string) (w : World) :
  exists new : list Stmt,
    executed (fst (bulkInsertWorker id (map RecvMsg msgs) w)) = executed w ++ new
    /\ Forall (fun st => Z.of_nat (length (args st)) = batchSize
                         /\ st = bulkStmt (args st)) new
    /\ length new = (length msgs / Z.to_nat batchSize)%nat
    /\ payloads new ++ snd (bulkInsertWorker id (map RecvMsg msgs) w) = msgs
    /\ length (snd (bulkInsertWorker id (map RecvMsg msgs) w))
       = (length msgs mod Z.to_nat batchSize)%nat.
Proof.
  destruct (bulkInsertWorker_full id msgs w) as (new & E & Hall).
  destruct (bulkInsertWorker_payloads id (map RecvMsg msgs) w) as [Hp _].
  pose proof (bulkInsertWorker_batch id (map RecvMsg msgs) w) as Hlt.
  rewrite received_msgs, E, payloads_app, <- app_assoc in Hp.
  apply app_inv_head in Hp.
  exists new. split; [exact E|]. split; [exact Hall|].
  assert (Hlen : length (payloads new) = (Z.to_nat batchSize * length new)%nat).
  { apply payloads_full. eapply Forall_impl; [exact Hall|].
    intros st [Hst _]. lia. }
  pose proof (f_equal (@length string) Hp) as Hl. rewrite length_app, Hlen in Hl.
  pose proof batchSize_pos as Hpos.
  set (b := Z.to_nat batchSize) in *.
  set (r := length (snd (bulkInsertWorker id (map RecvMsg msgs) w))) in *.
  assert (Hr : (r < b)%nat) by lia.
  assert (Hb : (b <> 0)%nat) by lia.
  split; [|split; [exact Hp|]].
  - apply (Nat.div_unique _ _ _ r); [exact Hr | lia].
  - apply (Nat.mod_unique _ _ (length new)); [exact Hr | lia].
Qed.

End WorkerOrder.

(** ** The load generator *)

Section ClientLoop.

Context `{Client.Net}.

Lemma sendLoop_spec (id n : nat) :
  forall (i : nat) (sent : list string),
  exists k : nat,
    (k <= n)%nat
    /\ fst (Client.sendLoop id i n sent)
       = sent ++ map (Client.message id) (seq i k)
    /\ (forall j, (i <= j < i + k)%nat -> Client.writeErr id j = None)
    /\ ((k = n /\ snd (Client.sendLoop id i n sent) = [])
        \/ (k < n)%nat
           /\ exists e, Client.writeErr id (i + k) = Some e
                        /\ snd (Client.sendLoop id i n sent)
                           = [Client.WriteError id e]).
Proof.
  induction n as [|n IH]; intros i sent; cbn [Client.sendLoop].
  - exists 0%nat. cbn. rewrite app_nil_r.
    split; [lia|]. split; [reflexivity|]. split; [intros; lia | auto].
  - destruct (Client.writeErr id i) as [e|] eqn:E.
    + exists 0%nat. cbn [fst snd seq map]. rewrite app_nil_r, Nat.add_0_r.
      split; [lia|]. split; [reflexivity|]. split; [intros; lia|].
      right. split; [lia|]. eauto.
    + destruct (IH (Datatypes.S i) (sent ++ [Client.message id i]))
        as (k & Hk & Hf & Hok & Hend).
      exists (Datatypes.S k). split; [lia|]. split.
      { rewrite Hf, <- app_assoc. reflexivity. }
      split.
      { intros j Hj. destruct (Nat.eq_dec j i) as [->|Hne];
          [exact E | apply Hok; lia]. }
      destruct Hend as [[-> Hs]|(Hlt & e & He & Hs)].
      * left. auto.
      * right. split; [lia|]. exists e.
        replace (i + Datatypes.S k)%nat with (Datatypes.S i + k)%nat by lia. auto.
Qed.

Lemma runClient_spec (id : nat) :
  exists k : nat,
    (k <= Z.to_nat Client.messagesPerClient)%nat
    /\ fst (Client.runClient id) = map (Client.message id) (seq 0 k)
    /\ (forall j, (j < k)%nat ->
          Client.dialErr id = None /\ Client.writeErr id j = None)
    /\ ((k = Z.to_nat Client.messagesPerClient
         /\ snd (Client.runClient id) = [] /\ Client.dialErr id = None)
        \/ (k = 0%nat
            /\ exists e, Client.dialErr id = Some e
                         /\ snd (Client.runClient id) = [Client.DialError id e])
        \/ ((k < Z.to_nat Client.messagesPerClient)%nat
            /\ Client.dialErr id = None
            /\ exists e, Client.writeErr id k = Some e
                         /\ snd (Client.runClient id)
                            = [Client.WriteError id e])).
Proof.
  unfold Client.runClient. destruct (Client.dialErr id) as [e|] eqn:Ed.
  - exists 0%nat. cbn [fst snd seq map].
    split; [lia|]. split; [reflexivity|]. split; [intros; lia|].
    right; left. eauto.
  - destruct (sendLoop_spec id (Z.to_nat Client.messagesPerClient) 0 [])
      as (k & Hk & Hf & Hok & Hend).
    exists k. split; [exact Hk|]. split; [exact Hf|].
    split; [intros j Hj; split; [reflexivity | apply Hok; lia]|].
    destruct Hend as [[-> Hs]|(Hlt & e & He & Hs)]; [left; auto|].
    right; right. split; [exact Hlt|]. split; [reflexivity|]. eauto.
Qed.

End ClientLoop.

Section ClientMessages.

Lemma read_digits_uint (d : Decimal.uint) :
  forall (acc : nat) (s : string),
    Client.no_digit_head s ->
    Client.read_digits acc (String.append (NilEmpty.string_of_uint d) s)
    = (Nat.of_uint_acc d acc, s).
Proof.
  induction d; intros acc s Hs; cbn [NilEmpty.string_of_uint String.append];
    [destruct s as [|c r]; cbn [Client.read_digits]; [reflexivity|];
     cbn in Hs; now rewrite Hs | ..];
    cbn [Client.read_digits Nat.of_uint_acc];
    match goal with
    | |- context [is_digit ?c] => change (is_digit c) with true
    end;
    cbn match; rewrite IHd by assumption; rewrite Nat.tail_mul_spec;
    unfold digit_val; simpl nat_of_ascii; simpl Nat.sub;
    f_equal; f_equal; lia.
Qed.

Lemma to_uint_nonnil (n : nat) : Nat.to_uint n <> Decimal.Nil.
Proof.
  rewrite <- (Unsigned.of_to n) at 1. rewrite Unsigned.to_of.
  apply unorm_nonnil.
Qed.

Lemma digit_head (d : Decimal.uint) (s : string) :
  d <> Decimal.Nil ->
  exists c r, String.append (NilEmpty.string_of_uint d) s = String c r
              /\ is_digit c = true.
Proof.
  destruct d; [congruence| | | | | | | | | |]; intros _;
    cbn [NilEmpty.string_of_uint String.append]; eexists; eexists;
    (split; [reflexivity | reflexivity]).
Qed.

Lemma read_nat_fmt_d (n : nat) (s : string) :
  Client.no_digit_head s ->
  Client.read_nat (String.append (fmt_d n) s) = Some (n, s).
Proof.
  intros Hs. unfold Client.read_nat, fmt_d.
  destruct (digit_head (Nat.to_uint n) s (to_uint_nonnil n)) as (c & r & E & Hc).
  rewrite E, Hc, <- E, read_digits_uint by assumption.
  change (Nat.of_uint_acc (Nat.to_uint n) 0) with (Nat.of_uint (Nat.to_uint n)).
  now rewrite Unsigned.of_to.
Qed.

Lemma parseMessage_message (id i : nat) :
  Client.parseMessage (Client.message id i) = Some (id, i).
Proof.
  unfold Client.parseMessage, Client.message.
  cbn [String.append Client.strip Ascii.eqb Bool.eqb].
  rewrite read_nat_fmt_d by reflexivity.
  cbn [String.append Client.strip Ascii.eqb Bool.eqb].
  rewrite <- (append_nil_r (fmt_d i)), read_nat_fmt_d by exact I.
  reflexivity.
Qed.

Lemma message_inj (id i id' i' : nat) :
  Client.message id i = Client.message id' i' -> id = id' /\ i = i'.
Proof.
  intros E. pose proof (parseMessage_message id i) as P.
  rewrite E, parseMessage_message in P. now inversion P.
Qed.

End ClientMessages.

Section ClientMain.

Context `{Client.Net}.

Lemma written_main :
  Client.written Client.main
  = map (fun id => fst (Client.runClient id))
      (seq 0 (Z.to_nat Client.clientCount)).
Proof. unfold Client.main. cbn [Client.written]. now rewrite map_map. Qed.

Lemma logged_main :
  Client.logged Client.main
  = map (fun id => snd (Client.runClient id))
      (seq 0 (Z.to_nat Client.clientCount)).
Proof. unfold Client.main. cbn [Client.logged]. now rewrite map_map. Qed.

Lemma runClient_NoDup (id : nat) : NoDup (fst (Client.runClient id)).
Proof.
  destruct (runClient_spec id) as (k & _ & -> & _).
  apply NoDup_fmap_2_strong; [|apply NoDup_seq].
  intros x y _ _ E. now apply message_inj in E.
Qed.

Lemma runClient_owner (id : nat) (msg : string) :
  In msg (fst (Client.runClient id)) ->
  exists i, msg = Client.message id i.
Proof.
  destruct (runClient_spec id) as (k & _ & -> & _).
  intros (i & <- & _)%in_map_iff. eauto.
Qed.

Lemma NoDup_concat_map {A B : Type} (f : A -> list B) (l : list A) :
  NoDup l ->
  (forall x, In x l -> NoDup (f x)) ->
  (forall x1 x2 y, In x1 l -> In x2 l -> In y (f x1) -> In y (f x2) -> x1 = x2) ->
  NoDup (concat (map f l)).
Proof.
  induction 1 as [|x l Hx Hl IH]; intros Hf Hinj; cbn [map concat];
    [constructor|].
  apply NoDup_app. split; [apply Hf; now left|]. split.
  - intros y Hy Hy'. apply list_elem_of_In in Hy, Hy'.
    apply in_concat in Hy' as (ys & Hys & Hy').
    apply in_map_iff in Hys as (x' & <- & Hx').
    apply Hx. apply list_elem_of_In.
    rewrite (Hinj x x' y); auto; [now left | now right].
  - apply IH; [intros; apply Hf; now right|].
    intros x1 x2 y H1 H2. apply Hinj; now right.
Qed.

Lemma written_NoDup : NoDup (concat (Client.written Client.main)).
Proof.
  rewrite written_main. apply NoDup_concat_map.
  - apply NoDup_seq.
  - intros id _. apply runClient_NoDup.
  - intros id1 id2 msg _ _ H1 H2.
    apply runClient_owner in H1 as (i1 & ->).
    apply runClient_owner in H2 as (i2 & E).
    now apply message_inj in E.
Qed.

Lemma length_concat_map {A B : Type} (f : A -> list B) (l : list A) (b : nat) :
  (forall x, In x l -> (length (f x) <= b)%nat) ->
  (length (concat (map f l)) <= b * length l)%nat
  /\ ((forall x, In x l -> length (f x) = b) ->
      length (concat (map f l)) = (b * length l)%nat)
  /\ ((exists x, In x l /\ (length (f x) < b)%nat) ->
      (length (concat (map f l)) < b * length l)%nat).
Proof.
  induction l as [|x l IH]; intros Hle; cbn [map concat length].
  - split; [lia|]. split; [intros; lia|]. intros (x & [] & _).
  - rewrite length_app.
    pose proof (Hle x (or_introl eq_refl)) as Hx.
    destruct IH as (IH1 & IH2 & IH3); [intros; apply Hle; now right|].
    split; [lia|]. split.
    + intros Hall. rewrite (Hall x) by now left.
      rewrite IH2 by (intros; apply Hall; now right). lia.
    + intros (y & [->|Hy] & Hlt); [lia|].
      assert (length (concat (map f l)) < b * length l)%nat
        by (apply IH3; eauto). lia.
Qed.

Lemma runClient_length (id : nat) :
  (length (fst (Client.runClient id)) <= Z.to_nat Client.messagesPerClient)%nat
  /\ (snd (Client.runClient id) = [] <->
      length (fst (Client.runClient id)) = Z.to_nat Client.messagesPerClient).
Proof.
  destruct (runClient_spec id) as (k & Hk & E & _ & Hend).
  rewrite E, length_map, length_seq. split; [exact Hk|].
  assert (0 < Z.to_nat Client.messagesPerClient)%nat
    by (unfold Client.messagesPerClient; lia).
  destruct Hend as [(-> & -> & _)|[(-> & e & _ & ->)|(Hlt & _ & e & _ & ->)]];
    split; intros; try reflexivity; try discriminate; lia.
Qed.

Lemma workload_size :
  Z.of_nat (Z.to_nat Client.messagesPerClient
            * length (seq 0 (Z.to_nat Client.clientCount)))
  = totalMessages.
Proof.
  rewrite length_seq, Nat2Z.inj_mul, !Z2Nat.id by discriminate. reflexivity.
Qed.

Lemma written_total :
  Z.of_nat (length (concat (Client.written Client.main))) <= totalMessages
  /\ (Forall (fun l => l = []) (Client.logged Client.main) ->
      Z.of_nat (length (concat (Client.written Client.main))) = totalMessages)
  /\ (Exists (fun l => l <> []) (Client.logged Client.main) ->
      Z.of_nat (length (concat (Client.written Client.main))) < totalMessages).
Proof.
  rewrite written_main, logged_main, <- workload_size.
  destruct (length_concat_map (fun id => fst (Client.runClient id))
              (seq 0 (Z.to_nat Client.clientCount))
              (Z.to_nat Client.messagesPerClient))
    as (Hle & Heq & Hlt); [intros; apply runClient_length|].
  split; [lia|]. split.
  - intros Hall. rewrite Heq; [reflexivity|].
    intros id Hin. apply runClient_length.
    rewrite Forall_forall in Hall. apply Hall.
    apply list_elem_of_In, in_map_iff. eauto.
  - intros Hex. apply Exists_exists in Hex as (l & Hl & Hne).
    apply list_elem_of_In, in_map_iff in Hl as (id & <- & Hin).
    assert (length (concat (map (fun id => fst (Client.runClient id))
                             (seq 0 (Z.to_nat Client.clientCount))))
            < Z.to_nat Client.messagesPerClient
              * length (seq 0 (Z.to_nat Client.clientCount)))%nat; [|lia].
    apply Hlt. exists id. split; [exact Hin|].
    destruct (runClient_length id) as [Hk Hiff].
    destruct (Nat.eq_dec (length (fst (Client.runClient id)))
                (Z.to_nat Client.messagesPerClient)) as [E|E]; [|lia].
    apply Hiff in E. contradiction.
Qed.

End ClientMain.

Section SoundNet.

Lemma sound_logged :
  Forall (fun l => l = []) (Client.logged (@Client.main Client.sound)).
Proof.
  rewrite logged_main. apply Forall_forall. intros l Hl.
  apply list_elem_of_In, in_map_iff in Hl as (id & <- & _).
  destruct (@runClient_spec Client.sound id)
    as (k & _ & _ & _ & [(_ & E & _)|[(_ & e & He & _)|(_ & _ & e & He & _)]]);
    [exact E | discriminate | discriminate].
Qed.

End SoundNet.

(** The load generator on a network that breaks every connection at its
    third write: each of the ten clients has written two messages and logged
    the write error, and [main] prints that a million were sent. *)
Example main_on_cut_network :
  Client.written (@Client.main (Client.cut 2))
  = map (fun id => [Client.message id 0; Client.message id 1]) (seq 0 10)
  /\ Client.logged (@Client.main (Client.cut 2))
     = map (fun id => [Client.WriteError id "broken pipe"]) (seq 0 10)
  /\ Client.printed (@Client.main (Client.cut 2))
     = String.append "Sent 1000000 messages using 10 clients " nl.
Proof. repeat split; vm_compute; reflexivity. Qed.

Example message_3_41 :
  Client.message 3 41 = "client-3-message-41"%string
  /\ Client.parseMessage "client-3-message-41" = Some (3%nat, 41%nat)
  /\ Client.parseMessage "client--message-41" = None
  /\ Client.parseMessage "client-3-message-41x" = None.
Proof. repeat split. Qed.

Example main_modes :
  modeOf defaultMode = Some Naive
  /\ modeOf "bulk" = Some Bulk
  /\ modeOf "Bulk" = None
  /\ @main reliable "turbo" None None [] = Died (FatalMode "turbo") world0.
Proof. repeat split. Qed.

(** ** Runs that finish, and the number of round trips *)

Section Finish.

Context `{Store}.

(** A naive handler left alone drains its connection. *)
Lemma naive_drain_one (frames : list string) :
  forall (s : System) (i : nat),
    pool s !! i = Some (NaiveHandler frames NRead) ->
    run (repeat (Run i) (4 * length frames)) s
    = Some {| world := naiveHandler frames (world s);
              ch := ch s;
              pool := <[i := NaiveHandler [] NRead]> (pool s) |}.
Proof.
  induction frames as [|msg frames IH]; intros s i Hg.
  - cbn [length Nat.mul repeat run naiveHandler fold_left].
    destruct (system_at s i _ Hg) as [Es _]. now rewrite <- Es.
  - replace (4 * length (msg :: frames))%nat
      with (4 + 4 * length frames)%nat by (cbn [length]; lia).
    rewrite repeat_app, run_app. cbn [repeat].
    rewrite (naive_alone s i msg frames Hg).
    rewrite IH
      by (cbn [pool]; apply list_lookup_insert_eq; now apply lookup_lt_Some in Hg).
    cbn [world ch pool]. now rewrite list_insert_insert_eq.
Qed.

Lemma naive_drain_all (todo : list (list string)) :
  forall (done : list Goroutine) (w : World) (c : Chan),
  exists acts : list Action,
    run acts {| world := w; ch := c;
                pool := done ++ map (fun fr => NaiveHandler fr NRead) todo |}
    = Some {| world := fold_left (fun w fr => naiveHandler fr w) todo w;
              ch := c;
              pool := done ++ map (fun _ => NaiveHandler [] NRead) todo |}.
Proof.
  induction todo as [|fr todo IH]; intros done w c.
  - exists []. reflexivity.
  - destruct (IH (done ++ [NaiveHandler [] NRead]) (naiveHandler fr w) c)
      as [acts Hacts].
    exists (repeat (Run (length done)) (4 * length fr) ++ acts).
    rewrite run_app. cbn [map].
    rewrite (naive_drain_one fr _ (length done))
      by (cbn [pool]; apply list_lookup_middle; reflexivity).
    cbn [world ch pool fold_left].
    replace (length done) with (length done + 0)%nat at 1 by lia.
    rewrite insert_app_r. cbn [insert list_insert].
    rewrite <- !app_assoc in Hacts. exact Hacts.
Qed.

Lemma naive_drains (conns : Conns) :
  exists (acts : list Action) (s : System),
    run acts (start Naive conns) = Some s
    /\ quiescent s = true
    /\ world s = fold_left (fun w fr => naiveHandler fr w) conns world0.
Proof.
  destruct (naive_drain_all conns [] world0 (make_chan 0)) as [acts Hacts].
  exists acts. eexists. split; [exact Hacts|]. split; [|reflexivity].
  unfold quiescent. cbn [ch make_chan buf pool app]. clear Hacts.
  induction conns as [|fr conns IH]; [reflexivity | exact IH].
Qed.






End Finish.

(* ===================================================================== *)
(** * Further properties of the server and of the load generator *)
(* ===================================================================== *)

(** X1.  When [main] gets to serve, whatever the goroutines do afterwards, the
    statements handed to the store are the DROP TABLE, then the CREATE TABLE,
    both answered without error, and after them only INSERTs of the program:
    the table is recreated before the first message is written. *)
Theorem main_recreates_table_first `{S : Store} (mode : string)
    (openErr listenErr : option string) (conns : Conns)
    (s : System) (acts : list Action) (s' : System) :
  main mode openErr listenErr conns = Up s ->
  run acts s = Some s' ->
  exists inserts : list Stmt,
    executed (world s')
    = mkStmt dropTable [] :: mkStmt createTable [] :: inserts
    /\ Forall is_insert inserts
    /\ payloads (executed (world s')) = payloads inserts
    /\ execErr [] (mkStmt dropTable []) = None
    /\ execErr [mkStmt dropTable []] (mkStmt createTable []) = None.
Proof.
  intros Hup Hrun.
  destruct (main_Up _ _ _ _ _ Hup) as (m & _ & _ & _ & E1 & E2 & ->).
  destruct (run_inserts acts _ _ Hrun) as (inserts & E & Hins).
  exists inserts. rewrite E. cbn [preceded_sys world preceded executed].
  rewrite start_world. cbn [world0 executed]. rewrite app_nil_r.
  repeat split; assumption.
Qed.

Lemma main_recreates_table_first_witness :
  exists (s' : System) (inserts : list Stmt),
    @run reliable [Run 4; Run 4; Run 0; Tick 0; Run 0]%nat
      (serving Bulk [["a"]%string]
         {| insertedCount := 0; executed := ddl; logs := [] |}) = Some s'
    /\ executed (world s')
       = mkStmt dropTable [] :: mkStmt createTable [] :: inserts
    /\ Forall is_insert inserts.
Proof.
  assert (Hrun : exists s' : System,
             @run reliable [Run 4; Run 4; Run 0; Tick 0; Run 0]%nat
               (serving Bulk [["a"]%string]
                  {| insertedCount := 0; executed := ddl; logs := [] |})
             = Some s')
    by (eexists; vm_compute; reflexivity).
  destruct Hrun as [s' Hrun]. exists s'.
  destruct (@main_recreates_table_first reliable "bulk"%string None None
              [["a"]%string] _ _ s' eq_refl Hrun)
    as (inserts & E & Hins & _).
  exists inserts. auto.
Defined.

(** X2.  When [main] dies, nothing has been inserted and nothing counted.
    On a flag that is none of the three modes it dies before [mustSQL]: not
    even the DROP TABLE reaches the store.  When [sql.Open] fails no statement
    is executed; when the DROP TABLE fails the CREATE TABLE is not attempted;
    when the CREATE TABLE or the listener fails the two statements are all
    the store has seen. *)
Theorem main_dies_without_insert `{S : Store} (mode : string)
    (openErr listenErr : option string) (conns : Conns)
    (why : Fatal) (w : World) :
  main mode openErr listenErr conns = Died why w ->
  insertedCount w = 0
  /\ logs w = []
  /\ match why with
     | FatalMode md =>
         md = mode /\ executed w = []
         /\ mode <> "naive"%string /\ mode <> "buffered"%string
         /\ mode <> "bulk"%string
     | FatalOpen e => openErr = Some e /\ executed w = []
     | FatalDrop e =>
         execErr [] (mkStmt dropTable []) = Some e
         /\ executed w = [mkStmt dropTable []]
     | FatalCreate e =>
         execErr [mkStmt dropTable []] (mkStmt createTable []) = Some e
         /\ executed w = ddl
     | FatalListen e => listenErr = Some e /\ executed w = ddl
     end.
Proof.
  unfold main. destruct (modeOf mode) as [m|] eqn:Em.
  - unfold mustSQL, dbExec. destruct openErr as [e|].
    { intros [= <- <-]. repeat split. }
    cbn [world0 executed insertedCount logs app].
    destruct (execErr [] _) as [e|] eqn:E1.
    { intros [= <- <-]. repeat split; assumption. }
    destruct (execErr [_] _) as [e|] eqn:E2.
    { intros [= <- <-]. repeat split; assumption. }
    destruct listenErr as [e|]; [|discriminate].
    intros [= <- <-]. repeat split.
  - intros [= <- <-]. apply modeOf_None in Em. repeat split; apply Em.
Qed.

Lemma main_dies_without_insert_witness :
  @main broken "bulk" None None [["a"]%string]
  = Died (FatalDrop "connection refused")
      {| insertedCount := 0; executed := [mkStmt dropTable []]; logs := [] |}
  /\ executed {| insertedCount := 0; executed := [mkStmt dropTable []];
                 logs := [] |} = [mkStmt dropTable []].
Proof.
  split; [reflexivity|].
  destruct (@main_dies_without_insert broken "bulk"%string None None
              [["a"]%string] _ _ eq_refl) as (_ & _ & _ & E).
  exact E.
Defined.

(** X3.  The system [main] serves is the system [start] of the same mode
    with the two statements of [mustSQL] already executed: every schedule
    runs on it as it runs on [start] under the store as it is after these two
    statements, step for step, with the same counter, the same logs, the same
    channel and goroutines, and the same statements after the two. *)
Theorem main_runs_like_start `{S : Store} (mode : string)
    (openErr listenErr : option string) (conns : Conns) (s : System) :
  main mode openErr listenErr conns = Up s ->
  exists m : Mode,
    modeOf mode = Some m
    /\ s = preceded_sys ddl (start m conns)
    /\ forall acts : list Action,
         run acts s
         = option_map (preceded_sys ddl)
             (@run (after ddl S) acts (start m conns)).
Proof.
  intros Hup.
  destruct (main_Up _ _ _ _ _ Hup) as (m & Hm & _ & _ & _ & _ & ->).
  exists m. split; [exact Hm|]. split; [reflexivity|].
  intros acts. apply run_preceded.
Qed.

Lemma main_runs_like_start_witness :
  @run reliable [Run 0; Run 0; Run 0; Run 0]%nat
    (serving Naive [["a"]%string]
       {| insertedCount := 0; executed := ddl; logs := [] |})
  = option_map (preceded_sys ddl)
      (@run (after ddl reliable) [Run 0; Run 0; Run 0; Run 0]%nat
         (start Naive [["a"]%string])).
Proof.
  destruct (@main_runs_like_start reliable "naive"%string None None
              [["a"]%string] _ eq_refl) as (m & Hm & _ & Hr).
  injection Hm as <-. apply Hr.
Defined.

(** X4.  The server never deadlocks: in every state a run of any mode can
    reach, as long as something is left to do (a frame unread, a message in
    the channel or in a goroutine's hands, a batch not flushed, an increment
    or a load outstanding), some goroutine can take a step or the ticker of a
    worker that holds a batch can fire, and that step leaves strictly less
    work to do. *)
Theorem server_never_deadlocks `{Store} (m : Mode) (conns : Conns)
    (acts : list Action) (s : System) :
  run acts (start m conns) = Some s ->
  quiescent s = false ->
  can_move s.
Proof.
  intros Hr Hq.
  assert (Hworker : m <> Naive -> buf (ch s) <> [] -> can_move s).
  { intros Hm Hb. destruct (first_is_worker m conns acts s Hm Hr) as (g & Hg & Hw).
    apply (step_of s 0 g Hg). now apply worker_receives. }
  assert (Hnaive : m = Naive -> buf (ch s) = []).
  { intros ->. now rewrite (naive_chan conns acts s Hr). }
  unfold quiescent in Hq. destruct (buf (ch s)) as [|x b] eqn:Eb.
  - destruct (not_all_at_rest _ Hq) as (i & g & Hg & Hbusy).
    destruct (busy_goroutine g (world s) (ch s) Hbusy)
      as [Hstep|[Htick|(frames & msg & -> & Hfull)]].
    + now apply (step_of s i g).
    + now apply (tick_of s i g).
    + destruct (Mode_eq_dec m Naive) as [->|Hm].
      * pose proof (naive_pool conns acts s i _ Hr Hg). discriminate.
      * destruct (run_chan_inv m conns acts s Hm Hr) as [Hcap _].
        apply send_None in Hfull; [|rewrite Hcap; reflexivity].
        now rewrite Eb in Hfull.
  - destruct (Mode_eq_dec m Naive) as [->|Hm].
    + now specialize (Hnaive eq_refl).
    + apply Hworker; [exact Hm | discriminate].
Qed.

Lemma server_never_deadlocks_witness :
  @can_move reliable (start Buffered [["a"]%string]).
Proof.
  apply (@server_never_deadlocks reliable Buffered [["a"]%string] []);
    reflexivity.
Defined.

(** X5.  Along every run that delivers no more messages than an int64 holds,
    [insertedCount] never wraps and never runs ahead: it is non-negative, at
    most the number of payloads handed to the store, which is at most the
    number of messages delivered; it lags behind the executed payloads by
    exactly what goroutines have executed and not yet added; and no step
    decreases it. *)
Theorem counter_never_overshoots `{Store} (m : Mode) (conns : Conns)
    (acts : list Action) (s : System) :
  Z.of_nat (length (concat conns)) <= Int64.max_signed ->
  run acts (start m conns) = Some s ->
  0 <= insertedCount (world s)
  /\ insertedCount (world s)
     <= Z.of_nat (length (payloads (executed (world s))))
  /\ Z.of_nat (length (payloads (executed (world s))))
     <= Z.of_nat (length (concat conns))
  /\ insertedCount (world s) + Z.of_nat (debt s)
     = Z.of_nat (length (payloads (executed (world s))))
  /\ forall (a : Action) (s' : System),
       sys_step a s = Some s' ->
       insertedCount (world s) <= insertedCount (world s').
Proof.
  intros HN Hr.
  destruct (run_no_wrap acts _ _ (start_no_wrap m conns HN) Hr) as [Hex _].
  pose proof (no_wrap_bounds s Hex) as (H0 & Hle & Hpay).
  pose proof (Permutation_length (run_messages acts _ _ Hr)) as Hlen.
  rewrite start_messages in Hlen. rewrite Hlen in Hpay.
  split; [exact H0|]. split; [exact Hle|]. split; [exact Hpay|].
  split; [apply Hex|].
  intros a s' Hs. now destruct (sys_step_no_wrap a s s' Hex Hs) as (_ & Hmono & _).
Qed.

Lemma counter_never_overshoots_witness :
  exists s : System,
    @run broken [Run 4; Run 4; Run 0; Run 0; Run 4; Run 4; Run 1; Run 0]%nat
      (start Buffered [["a"; "b"]%string]) = Some s
    /\ insertedCount (world s) + Z.of_nat (debt s)
       = Z.of_nat (length (payloads (executed (world s))))
    /\ insertedCount (world s) = 1.
Proof.
  assert (Hrun : exists s : System,
             @run broken [Run 4; Run 4; Run 0; Run 0; Run 4; Run 4; Run 1; Run 0]%nat
               (start Buffered [["a"; "b"]%string]) = Some s
             /\ insertedCount (world s) = 1)
    by (eexists; split; vm_compute; reflexivity).
  destruct Hrun as (s & Hrun & Hc). exists s.
  destruct (@counter_never_overshoots broken Buffered [["a"; "b"]%string] _ s
              ltac:(vm_compute; discriminate) Hrun) as (_ & _ & _ & Hacc & _).
  auto.
Defined.

(** X6.  A run that delivers fewer than [totalMessages] messages never logs
    the completion line, in any mode, on any interleaving, whatever the store
    answers: the counter stays below the target. *)
Theorem short_run_never_completes `{Store} (m : Mode) (conns : Conns)
    (acts : list Action) (s : System) :
  Z.of_nat (length (concat conns)) < totalMessages ->
  run acts (start m conns) = Some s ->
  completions (logs (world s)) = 0%nat
  /\ insertedCount (world s) < totalMessages
  /\ Forall (fun l => is_done l = false) (logs (world s)).
Proof.
  intros HN Hr.
  assert (Hmax : Z.of_nat (length (concat conns)) <= Int64.max_signed).
  { pose proof totalMessages_val. unfold Int64.max_signed, Int64.half_modulus. lia. }
  pose proof (start_no_wrap m conns Hmax) as Hex.
  assert (Hc : completions (logs (world s)) = 0%nat).
  { rewrite (run_short acts _ _ Hex) by (rewrite ?start_messages; assumption).
    now rewrite start_world. }
  split; [exact Hc|]. split.
  - destruct (run_no_wrap acts _ _ Hex Hr) as [Hex' _].
    pose proof (no_wrap_bounds s Hex') as (_ & Hle & Hpay).
    pose proof (Permutation_length (run_messages acts _ _ Hr)) as Hlen.
    rewrite start_messages in Hlen. lia.
  - unfold completions in Hc. apply Forall_forall. intros l Hl.
    destruct (is_done l) eqn:E; [|reflexivity].
    apply list_elem_of_In in Hl.
    assert (In l (List.filter is_done (logs (world s))))
      by (apply filter_In; auto).
    destruct (List.filter is_done (logs (world s))); [contradiction | discriminate].
Qed.

Lemma short_run_never_completes_witness :
  exists s : System,
    @run reliable
      [Run 4; Run 4; Run 0; Tick 0; Run 0; Run 0; Run 0]%nat
      (start Bulk [["a"]%string]) = Some s
    /\ quiescent s = true
    /\ completions (logs (world s)) = 0%nat.
Proof.
  assert (Hrun : exists s : System,
             @run reliable [Run 4; Run 4; Run 0; Tick 0; Run 0; Run 0; Run 0]%nat
               (start Bulk [["a"]%string]) = Some s
             /\ quiescent s = true)
    by (eexists; split; vm_compute; reflexivity).
  destruct Hrun as (s & Hrun & Hq). exists s.
  destruct (@short_run_never_completes reliable Bulk [["a"]%string] _ s
              ltac:(vm_compute; reflexivity) Hrun) as (Hc & _).
  auto.
Defined.

(** X7.  A run that delivers exactly [totalMessages] messages and processes
    them all ends with the counter at the target and the completion line in
    the log, at least once: in every mode, on every interleaving, whether the
    writes failed or not. *)
Theorem full_run_completes `{Store} (m : Mode) (conns : Conns)
    (acts : list Action) (s : System) :
  Z.of_nat (length (concat conns)) = totalMessages ->
  run acts (start m conns) = Some s ->
  quiescent s = true ->
  insertedCount (world s) = totalMessages
  /\ (1 <= completions (logs (world s)))%nat
  /\ Exists (fun l => is_done l = true) (logs (world s)).
Proof.
  intros HN Hr Hq.
  destruct (completion_at_least_once m conns acts s HN Hr Hq) as [Hc Hd].
  split; [exact Hc|]. split; [exact Hd|].
  unfold completions in Hd.
  destruct (List.filter is_done (logs (world s))) as [|l ls] eqn:E;
    [cbn in Hd; lia|].
  assert (Hin : In l (List.filter is_done (logs (world s))))
    by (rewrite E; now left).
  apply filter_In in Hin as [Hin Hl].
  apply Exists_exists. exists l. split; [now apply list_elem_of_In | exact Hl].
Qed.

Lemma full_run_completes_witness :
  exists (acts : list Action) (s : System),
    @run reliable acts (start Naive (one_client totalMessages)) = Some s
    /\ quiescent s = true
    /\ insertedCount (world s) = totalMessages
    /\ (1 <= completions (logs (world s)))%nat.
Proof.
  destruct (@naive_drains reliable (one_client totalMessages))
    as (acts & s & Hrun & Hq & _).
  exists acts, s.
  destruct (@full_run_completes reliable Naive (one_client totalMessages)
              acts s) as (Hc & Hd & _).
  - unfold one_client. cbn [concat]. rewrite app_nil_r, repeat_length.
    apply Z2Nat.id. discriminate.
  - exact Hrun.
  - exact Hq.
  - auto.
Defined.





(** X10.  A bulk worker keeps the order of its messages.  Whatever cases its
    [select] takes, messages and ticks in any order, and whatever the store
    answers: the payloads of the statements it has executed, in the order
    executed, followed by the batch it still holds, are the messages it has
    received, in the order received; and up to the 64-bit wrap-around the
    counter has advanced by the messages received less those still in the
    batch; and the batch it holds between two cases is always shorter than
    [batchSize]. *)
Theorem bulk_worker_keeps_order `{Store} (id : Z) (cases : list SelectCase)
    (w : World) :
  payloads (executed (fst (bulkInsertWorker id cases w)))
  ++ snd (bulkInsertWorker id cases w)
  = payloads (executed w) ++ received cases
  /\ Int64.wrap (insertedCount (fst (bulkInsertWorker id cases w))
                 + Z.of_nat (length (snd (bulkInsertWorker id cases w))))
     = Int64.wrap (insertedCount w + Z.of_nat (length (received cases)))
  /\ Z.of_nat (length (snd (bulkInsertWorker id cases w))) < batchSize.
Proof.
  destruct (bulkInsertWorker_payloads id cases w) as [Hp Hc].
  split; [exact Hp|]. split; [exact Hc|]. apply bulkInsertWorker_batch.
Qed.

(** X11.  Without a tick a bulk worker writes full batches only.  After the
    messages [msgs], and no tick, it has executed [length msgs / batchSize]
    statements, each with exactly [batchSize] arguments, which together carry
    the first messages of [msgs] in order, and it holds the last
    [length msgs mod batchSize] messages in its batch. *)
Theorem bulk_worker_full_batches `{Store} (id : Z) (msgs : list string)
    (w : World) :
  exists new : list Stmt,
    executed (fst (bulkInsertWorker id (map RecvMsg msgs) w)) = executed w ++ new
    /\ length new = (length msgs / Z.to_nat batchSize)%nat
    /\ Forall (fun st => Z.of_nat (length (args st)) = batchSize
                         /\ st = bulkStmt (args st)) new
    /\ payloads new
       = take (Z.to_nat batchSize * (length msgs / Z.to_nat batchSize)) msgs
    /\ snd (bulkInsertWorker id (map RecvMsg msgs) w)
       = drop (Z.to_nat batchSize * (length msgs / Z.to_nat batchSize)) msgs
    /\ length (snd (bulkInsertWorker id (map RecvMsg msgs) w))
       = (length msgs mod Z.to_nat batchSize)%nat.
Proof.
  destruct (bulkInsertWorker_chunks id msgs w) as (new & E & Hall & Hn & Hp & Hr).
  exists new. split; [exact E|]. split; [exact Hn|]. split; [exact Hall|].
  assert (Hlen : length (payloads new)
                 = (Z.to_nat batchSize * (length msgs / Z.to_nat batchSize))%nat).
  { rewrite <- Hn. apply payloads_full. eapply Forall_impl; [exact Hall|].
    intros st [Hst _]. lia. }
  rewrite <- Hlen.
  set (batch := snd (bulkInsertWorker id (map RecvMsg msgs) w)) in *.
  split; [|split; [|exact Hr]].
  - transitivity (take (length (payloads new)) (payloads new ++ batch));
      [symmetry; apply take_app_length | now rewrite Hp].
  - transitivity (drop (length (payloads new)) (payloads new ++ batch));
      [symmetry; apply drop_app_length | now rewrite Hp].
Qed.

(** X12.  A partial batch waits for the tick.  A bulk worker that receives
    fewer than [batchSize] messages, starting from an empty batch, hands
    nothing to the store and leaves the counter alone; the next tick writes
    exactly these messages, in order, as one statement, adds their number to
    the counter and empties the batch; a second tick changes nothing. *)
Theorem partial_batch_flushed_on_tick `{Store} (id : Z) (msgs : list string)
    (w : World) :
  msgs <> [] ->
  Z.of_nat (length msgs) < batchSize ->
  bulkInsertWorker id (map RecvMsg msgs) w = (w, msgs)
  /\ bulkInsertWorker id (map RecvMsg msgs ++ [TickerC]) w = flush id (w, msgs)
  /\ executed (fst (bulkInsertWorker id (map RecvMsg msgs ++ [TickerC]) w))
     = executed w ++ [bulkStmt msgs]
  /\ snd (bulkInsertWorker id (map RecvMsg msgs ++ [TickerC]) w) = []
  /\ insertedCount (fst (bulkInsertWorker id (map RecvMsg msgs ++ [TickerC]) w))
     = Int64.add (insertedCount w) (Z.of_nat (length msgs))
  /\ bulkInsertWorker id (map RecvMsg msgs ++ [TickerC; TickerC]) w
     = bulkInsertWorker id (map RecvMsg msgs ++ [TickerC]) w.
Proof.
  intros Hne Hlt.
  assert (Hacc : forall l batch,
            Z.of_nat (length (batch ++ l)) < batchSize ->
            fold_left (fun st c => bulkSelect id c st) (map RecvMsg l) (w, batch)
            = (w, batch ++ l)).
  { induction l as [|x l IH]; intros batch Hb; cbn [map fold_left].
    - now rewrite app_nil_r.
    - cbn [bulkSelect].
      destruct (Z.geb_spec (Z.of_nat (length (batch ++ [x]))) batchSize) as [Hge|_].
      + rewrite !length_app in *. cbn [length] in *. lia.
      + rewrite IH by (rewrite <- app_assoc; exact Hb).
        now rewrite <- app_assoc. }
  assert (E : bulkInsertWorker id (map RecvMsg msgs) w = (w, msgs))
    by (apply (Hacc msgs []); exact Hlt).
  assert (E1 : bulkInsertWorker id (map RecvMsg msgs ++ [TickerC]) w
               = flush id (w, msgs)).
  { unfold bulkInsertWorker in *. rewrite fold_left_app, E. reflexivity. }
  split; [exact E|]. split; [exact E1|]. rewrite E1.
  split; [now apply flush_executed|]. split; [apply flush_batch|].
  split; [now apply flush_count|].
  unfold bulkInsertWorker in *.
  change [TickerC; TickerC] with ([TickerC] ++ [TickerC]).
  rewrite app_assoc, fold_left_app, E1. cbn [fold_left bulkSelect].
  rewrite (surjective_pairing (flush id (w, msgs))), flush_batch.
  apply flush_empty.
Qed.

Lemma partial_batch_flushed_on_tick_witness :
  @bulkInsertWorker broken 3 [RecvMsg "a"; RecvMsg "b"; TickerC] world0
  = @flush broken 3 (world0, ["a"; "b"]%string)
  /\ snd (@bulkInsertWorker broken 3 [RecvMsg "a"; RecvMsg "b"; TickerC] world0)
     = [].
Proof.
  destruct (@partial_batch_flushed_on_tick broken 3 ["a"; "b"]%string world0)
    as (_ & E & _ & Hb & _).
  - discriminate.
  - reflexivity.
  - split; [exact E | exact Hb].
Defined.

(** X13.  The payload of a message names its client and its index: reading
    ["client-<id>-message-<i>"] back gives [id] and [i], so two messages are
    equal only if they come from the same client and have the same index. *)
Theorem message_round_trip (id i : nat) :
  Client.parseMessage (Client.message id i) = Some (id, i)
  /\ forall id' i' : nat,
       Client.message id i = Client.message id' i' -> id = id' /\ i = i'.
Proof.
  split; [apply parseMessage_message|]. intros id' i'. apply message_inj.
Qed.

(** X14.  What a client writes is a prefix of its workload.  Whatever the
    network does, client [id] writes messages 0, 1, ..., k-1 in this order
    and nothing else, for some [k <= messagesPerClient]; and
    - [k = messagesPerClient] and nothing is logged; or
    - the dial failed: [k = 0] and the dial error is the one line logged; or
    - the write of message [k] failed: that error is the one line logged and
      no later message is attempted. *)
Theorem client_sends_prefix `{Client.Net} (id : nat) :
  exists k : nat,
    (k <= Z.to_nat Client.messagesPerClient)%nat
    /\ fst (Client.runClient id) = map (Client.message id) (seq 0 k)
    /\ (forall j : nat, (j < k)%nat -> Client.writeErr id j = None)
    /\ ((k = Z.to_nat Client.messagesPerClient
         /\ snd (Client.runClient id) = [])
        \/ (k = 0%nat
            /\ exists e, Client.dialErr id = Some e
                         /\ snd (Client.runClient id) = [Client.DialError id e])
        \/ ((k < Z.to_nat Client.messagesPerClient)%nat
            /\ exists e, Client.writeErr id k = Some e
                         /\ snd (Client.runClient id)
                            = [Client.WriteError id e])).
Proof.
  destruct (runClient_spec id) as (k & Hk & Hf & Hok & Hend).
  exists k. split; [exact Hk|]. split; [exact Hf|].
  split; [intros j Hj; now apply Hok|].
  destruct Hend as [(? & ? & _)|[?|(? & _ & ?)]]; auto.
Qed.

(** X15.  No two messages of a load test are equal: whatever the network
    does, the messages written by all clients of [main] are pairwise
    distinct, and each one names the client that wrote it. *)
Theorem client_messages_distinct `{Client.Net} :
  NoDup (concat (Client.written Client.main))
  /\ length (Client.written Client.main) = 10%nat
  /\ forall (id : nat) (l : list string) (msg : string),
       Client.written Client.main !! id = Some l -> In msg l ->
       exists i : nat,
         msg = Client.message id i
         /\ Client.parseMessage msg = Some (id, i).
Proof.
  split; [apply written_NoDup|]. rewrite written_main. split.
  - now rewrite length_map, length_seq.
  - intros id l msg Hl Hin. rewrite list_lookup_fmap in Hl.
    destruct (seq 0 (Z.to_nat Client.clientCount) !! id) as [id'|] eqn:E;
      [|discriminate].
    apply lookup_seq in E as [-> _]. cbn in Hl. injection Hl as <-.
    apply runClient_owner in Hin as (i & ->).
    exists i. split; [reflexivity | apply parseMessage_message].
Qed.

(** X16.  The line [main] of the load generator prints does not depend on
    what was sent: it always reads "Sent 1000000 messages using 10 clients".
    The messages actually written are never more than that; they are that
    many when no client logged an error, and strictly fewer as soon as one
    client logged a dial or write error. *)
Theorem client_report_ignores_failures `{Client.Net} :
  Client.printed Client.main
  = String.append "Sent 1000000 messages using 10 clients " nl
  /\ Z.of_nat (length (concat (Client.written Client.main))) <= 1000000
  /\ (Forall (fun l => l = []) (Client.logged Client.main) ->
      Z.of_nat (length (concat (Client.written Client.main))) = 1000000)
  /\ (Exists (fun l => l <> []) (Client.logged Client.main) ->
      Z.of_nat (length (concat (Client.written Client.main))) < 1000000).
Proof.
  split; [reflexivity|]. rewrite <- totalMessages_val. apply written_total.
Qed.

(** X17.  The load generator against the server.  Take what the clients of
    [main] wrote, one connection per client, and any run of the server, in any
    mode, that has processed it all.  Then the counter is the number of
    messages written; the payloads handed to the store are these messages,
    and no payload was handed over twice.  If no client logged an error the
    counter is [totalMessages] and the completion line is in the log; if some
    client logged an error the counter is below [totalMessages] and the
    completion line is never logged, although the load generator prints that
    it sent them all.  (A client whose dial failed appears as a connection
    without frames.) *)
Theorem load_test_end_to_end `{Store} (N : Client.Net) (m : Mode)
    (acts : list Action) (s : System) :
  run acts (start m (Client.written (@Client.main N))) = Some s ->
  quiescent s = true ->
  insertedCount (world s)
  = Z.of_nat (length (concat (Client.written (@Client.main N))))
  /\ payloads (executed (world s))
     ≡ₚ concat (Client.written (@Client.main N))
  /\ NoDup (payloads (executed (world s)))
  /\ (Forall (fun l => l = []) (Client.logged (@Client.main N)) ->
      insertedCount (world s) = totalMessages
      /\ (1 <= completions (logs (world s)))%nat)
  /\ (Exists (fun l => l <> []) (Client.logged (@Client.main N)) ->
      insertedCount (world s) < totalMessages
      /\ completions (logs (world s)) = 0%nat).
Proof.
  intros Hr Hq.
  destruct (@written_total N) as (Hle & Hfull & Hshort).
  pose proof (run_messages acts _ _ Hr) as Hm. rewrite start_messages in Hm.
  destruct (quiescent_spec s Hq) as [Hf Hd].
  unfold all_messages in Hm. rewrite Hf, app_nil_r in Hm.
  assert (Hmax : Z.of_nat (length (concat (Client.written (@Client.main N))))
                 <= Int64.max_signed).
  { pose proof totalMessages_val. unfold Int64.max_signed, Int64.half_modulus. lia. }
  destruct (run_no_wrap acts _ _ (start_no_wrap m _ Hmax) Hr) as [(_ & _ & Hacc) _].
  rewrite Hd in Hacc.
  assert (Hc : insertedCount (world s)
               = Z.of_nat (length (concat (Client.written (@Client.main N))))).
  { rewrite <- (Permutation_length Hm). lia. }
  split; [exact Hc|]. split; [exact Hm|]. split.
  { rewrite Hm. apply written_NoDup. }
  split.
  - intros Hall. specialize (Hfull Hall).
    exact (completion_at_least_once m _ acts s Hfull Hr Hq).
  - intros Hex. specialize (Hshort Hex). split; [lia|].
    rewrite (run_short acts _ _ (start_no_wrap m _ Hmax))
      by (rewrite ?start_messages; assumption).
    now rewrite start_world.
Qed.

Lemma load_test_end_to_end_witness :
  exists (acts : list Action) (s : System),
    @run reliable acts
      (start Naive (Client.written (@Client.main Client.sound))) = Some s
    /\ quiescent s = true
    /\ insertedCount (world s) = totalMessages
    /\ (1 <= completions (logs (world s)))%nat.
Proof.
  destruct (@naive_drains reliable (Client.written (@Client.main Client.sound)))
    as (acts & s & Hrun & Hq & _).
  exists acts, s.
  destruct (@load_test_end_to_end reliable Client.sound Naive acts s Hrun Hq)
    as (_ & _ & _ & Hfull & _).
  destruct (Hfull sound_logged) as [Hc Hd]. auto.
Defined.

(** X18.  The naive mode can always finish, and when its handlers run one
    after the other it does what the handlers do one after the other: for
    every set of connections there is a schedule that processes every frame
    and leaves the shared state that [naiveHandler] yields on the first
    connection, then on the second, and so on. *)
Theorem naive_can_finish `{Store} (conns : Conns) :
  exists (acts : list Action) (s : System),
    run acts (start Naive conns) = Some s
    /\ quiescent s = true
    /\ world s = fold_left (fun w frames => naiveHandler frames w) conns world0
    /\ executed (world s)
       = map (fun msg => mkStmt insertOne [msg]) (concat conns).
Proof.
  destruct (naive_drains conns) as (acts & s & Hr & Hq & Hw).
  exists acts, s. split; [exact Hr|]. split; [exact Hq|]. split; [exact Hw|].
  rewrite Hw.
  enough (G : forall w, executed (fold_left
                          (fun w frames => naiveHandler frames w) conns w)
                        = executed w
                          ++ map (fun msg => mkStmt insertOne [msg]) (concat conns))
    by (rewrite (G world0); reflexivity).
  clear. induction conns as [|fr conns IH]; intros w; cbn [fold_left concat].
  - now rewrite app_nil_r.
  - now rewrite IH, naiveHandler_executed, map_app, <- app_assoc.
Qed.

(** X19.  A worker left alone does what its loop body says.  In any state of
    the system, when no other goroutine moves in between:
    - a buffered worker at its receive, the channel holding a message, takes
      four steps and leaves the shared state of [bufferedMessage];
    - a bulk worker at its [select] that takes the message case leaves, after
      one or four steps, the shared state and the batch of [bulkSelect] on
      that message;
    - a bulk worker at its [select] that takes the ticker case leaves, after
      the tick and no or three steps, the shared state and the batch of
      [bulkSelect] on the tick.
    The channel loses the message received and nothing else; the other
    goroutines are untouched. *)
Theorem worker_alone_is_sequential `{Store} (s : System) (i : nat) (id : Z) :
  (forall (msg : string) (c' : Chan),
      pool s !! i = Some (BufferedWorker id WRecv) ->
      recv (ch s) = Some (msg, c') ->
      run [Run i; Run i; Run i; Run i] s
      = Some {| world := bufferedMessage id msg (world s);
                ch := c';
                pool := <[i := BufferedWorker id WRecv]> (pool s) |})
  /\ (forall (batch : list string) (msg : string) (c' : Chan),
      pool s !! i = Some (BulkWorker id batch BSelect) ->
      recv (ch s) = Some (msg, c') ->
      exists k : nat,
        (k = 0%nat \/ k = 3%nat)
        /\ run (Run i :: repeat (Run i) k) s
           = Some {| world := fst (bulkSelect id (RecvMsg msg) (world s, batch));
                     ch := c';
                     pool := <[i := BulkWorker id
                                      (snd (bulkSelect id (RecvMsg msg)
                                              (world s, batch)))
                                      BSelect]> (pool s) |})
  /\ (forall batch : list string,
      pool s !! i = Some (BulkWorker id batch BSelect) ->
      exists k : nat,
        (k = 0%nat \/ k = 3%nat)
        /\ run (Tick i :: repeat (Run i) k) s
           = Some {| world := fst (bulkSelect id TickerC (world s, batch));
                     ch := ch s;
                     pool := <[i := BulkWorker id
                                      (snd (bulkSelect id TickerC
                                              (world s, batch)))
                                      BSelect]> (pool s) |}).
Proof.
  split; [intros; now apply buffered_alone|]. split.
  - intros batch msg c' Hg Hr. destruct (system_at s i _ Hg) as [Es Hi].
    cbn [bulkSelect].
    destruct (Z.of_nat (length (batch ++ [msg])) >=? batchSize) eqn:E.
    + exists 3%nat. split; [now right|].
      assert (He : flushEntry (batch ++ [msg]) = BExec)
        by (destruct (flushEntry_cases (batch ++ [msg])) as [[He _]|[_ ->]];
            [now destruct batch | reflexivity]).
      rewrite Es at 1. cbn [repeat]. cbn [run].
      erewrite step_at
        by (assumption || (cbn [go_step]; rewrite Hr, E, He; reflexivity)).
      rewrite flush_batch. apply flush_body_alone; [assumption | now destruct batch].
    + exists 0%nat. split; [now left|].
      rewrite Es at 1. cbn [repeat run fst snd].
      erewrite step_at
        by (assumption || (cbn [go_step]; rewrite Hr, E; reflexivity)).
      reflexivity.
  - intros batch Hg. destruct (system_at s i _ Hg) as [Es Hi].
    cbn [bulkSelect]. rewrite flush_batch.
    destruct (flushEntry_cases batch) as [[-> He]|[Hne He]].
    + exists 0%nat. split; [now left|]. rewrite Es at 1. cbn [repeat run].
      erewrite tick_at by (assumption || reflexivity). reflexivity.
    + exists 3%nat. split; [now right|]. rewrite Es at 1. cbn [repeat]. cbn [run].
      erewrite tick_at by (assumption || (cbn [go_tick]; rewrite He; reflexivity)).
      now apply flush_body_alone.
Qed.

(** X20.  Every run is bounded: whatever the schedule and the store, a run of
    the server over n messages takes at most 4 n steps in naive mode and 7 n
    in buffered and bulk mode, not counting ticks that find an empty batch;
    the steps taken and the work left never exceed that budget, and no work
    is left exactly when the run has come to rest. *)
Theorem runs_are_bounded `{Store} (m : Mode) (conns : Conns)
    (acts : list Action) (s : System) :
  run acts (start m conns) = Some s ->
  (effective acts (start m conns) + work s
   <= steps_per_message m * length (concat conns))%nat
  /\ (work s = 0%nat <-> quiescent s = true).
Proof.
  intros Hr. split; [|apply work_quiescent].
  rewrite <- start_work. now apply run_work.
Qed.

Lemma runs_are_bounded_witness :
  exists s : System,
    @run reliable [Run 4; Run 4; Run 0; Tick 1; Tick 0; Run 0; Run 0]
      (start Bulk [["a"]%string]) = Some s
    /\ quiescent s = false /\ (work s <= 1)%nat.
Proof.
  assert (Hrun : exists s : System,
             @run reliable [Run 4; Run 4; Run 0; Tick 1; Tick 0; Run 0; Run 0]
               (start Bulk [["a"]%string]) = Some s)
    by (eexists; vm_compute; reflexivity).
  destruct Hrun as [s Hr]. exists s. split; [exact Hr|].
  pose proof Hr as Hr'. vm_compute in Hr.
  destruct (@runs_are_bounded reliable Bulk [["a"]%string] _ s Hr')
    as [Hb Hq].
  assert (He : @effective reliable
                 [Run 4; Run 4; Run 0; Tick 1; Tick 0; Run 0; Run 0]
                 (start Bulk [["a"]%string]) = 6%nat)
    by (vm_compute; reflexivity).
  rewrite He in Hb. cbn [steps_per_message concat length app] in Hb.
  split; [|lia].
  injection Hr as <-. reflexivity.
Defined.
